(** * Silva: abstract interpretation of decision-tree ensembles

    A shallow embedding of the numeric core of silva (intervals,
    hyperrectangles, binary heap, sets, lists, binary trees, decision trees,
    forests, adversarial regions and the stability verifiers) together with
    the properties established about it.

    Conventions of the embedding.
    - The C type [Real] (a [double]) is embedded as an exact rational [Q];
      comparisons are the boolean comparisons of [Q].  The rounding-mode
      macros [round_down] and [round_up] of the interval header are taken as
      two functions on [Q] (the header that defines them is not part of the
      sources); the libm function [exp] is taken as a function on [Q] as well.
    - Arithmetic on [Q] is exact: the rounding of a sum, a product or a
      quotient of doubles, overflow to an infinity and NaN are not
      represented, and a division by zero yields 0.  The program and the
      embedding agree wherever a result is obtained by comparisons of
      numbers, by counting votes (small integers, which doubles hold
      exactly) or by comparing quotients of counts by one positive number of
      samples (which compare like the counts).  A property whose conclusion
      depends on more than that says so in its hypotheses: leaves that hold
      samples, priorities that are numbers, the voting scheme MAX, or a
      monotone rounding taken as a parameter.
    - A C array is a [list]; reads use the total lookup [!!!] and writes use
      the list update [<[i:=v]>], which leaves the list unchanged out of
      range (where the C code has undefined behaviour).
    - A [for (i = 0; i < n; ++i)] loop is [for_loop n body], a state passing
      iteration over [0 .. n-1]; [while] loops carry an explicit fuel. *)

From Stdlib Require Import QArith Qminmax Lqa Lia ZArith Bool String Sorted.
From stdpp Require Import base list.

Open Scope Q_scope.

(* ================================================================== *)
(** * Part I: the embedding                                            *)
(* ================================================================== *)

(** ** Real numbers and loops *)

Abbreviation Real := Q.

#[global] Instance Q_inhabited : Inhabited Q := populate 0.

#[global] Instance string_inhabited : Inhabited string := populate EmptyString.

Definition Qleb (a b : Q) : bool := Qle_bool a b.
Definition Qltb (a b : Q) : bool := negb (Qle_bool b a).
Definition Qgtb (a b : Q) : bool := Qltb b a.
Definition Qgeb (a b : Q) : bool := Qleb b a.
Definition Qeqb (a b : Q) : bool := Qeq_bool a b.

(** The macros [min] and [max]. *)
Definition min (a b : Q) : Q := if Qltb a b then a else b.
Definition max (a b : Q) : Q := if Qgtb a b then a else b.

(** [for_from lo n body s] runs [body lo], [body (lo+1)], ... ([n] times). *)
Fixpoint for_from {S : Type} (lo n : nat) (body : nat -> S -> S) (s : S) : S :=
  match n with
  | O => s
  | Datatypes.S n' => for_from (Datatypes.S lo) n' body (body lo s)
  end.

Definition for_loop {S : Type} (n : nat) (body : nat -> S -> S) (s : S) : S :=
  for_from 0 n body s.

(** ** interval.h *)

Record Interval := mkInterval { l : Real; u : Real }.

#[global] Instance Interval_inhabited : Inhabited Interval :=
  populate (mkInterval 0 0).

Definition interval_is_bottom (x : Interval) : bool := Qgtb (l x) (u x).

Definition interval_is_lt (x y : Interval) : bool := Qltb (u x) (l y).

Definition interval_is_leq (x y : Interval) : bool := Qleb (u x) (l y).

(** The exact midpoint; the double computed by the program is its rounding
    (and an infinity when the sum of the bounds overflows). *)
Definition interval_midpoint (x : Interval) : Real := (l x + u x) * (1 # 2).

Definition interval_radius (x : Interval) : Real := (u x - l x) * (1 # 2).

Definition interval_glb (x y : Interval) : Interval :=
  {| l := if Qgtb (l x) (l y) then l x else l y;
     u := if Qltb (u x) (u y) then u x else u y |}.

Definition interval_lub (x y : Interval) : Interval :=
  {| l := if Qltb (l x) (l y) then l x else l y;
     u := if Qgtb (u x) (u y) then u x else u y |}.

Section Rounding.

(** [round_down; e] evaluates [e] rounded toward minus infinity and
    [round_up; e] rounded toward plus infinity. *)
Variables round_down round_up : Q -> Q.

(** The libm exponential. *)
Variable exp : Q -> Q.

Definition interval_add (x y : Interval) : Interval :=
  {| l := round_down (l x + l y); u := round_up (u x + u y) |}.

Definition interval_sub (x y : Interval) : Interval :=
  {| l := round_down (l x - l y); u := round_up (u x - u y) |}.

Definition is_zero_interval (x : Interval) : bool :=
  Qeqb (l x) 0 && Qeqb (u x) 0.

Definition interval_mul (x y : Interval) : Interval :=
  if is_zero_interval x || is_zero_interval y then {| l := 0; u := 0 |}
  else if Qgeb (l x) 0 then
    if Qgeb (l y) 0 then
      {| l := round_down (l x * l y); u := round_up (u x * u y) |}
    else if Qleb (u y) 0 then
      {| l := round_down (u x * l y); u := round_up (l x * u y) |}
    else
      {| l := round_down (u x * l y); u := round_up (u x * u y) |}
  else if Qleb (u x) 0 then
    if Qgeb (l y) 0 then
      {| l := round_down (l x * u y); u := round_up (u x * l y) |}
    else if Qleb (u y) 0 then
      {| l := round_down (u x * u y); u := round_up (l x * l y) |}
    else
      {| l := round_down (l x * u y); u := round_up (l x * l y) |}
  else
    if Qgeb (l y) 0 then
      {| l := round_down (l x * u y); u := round_up (u x * u y) |}
    else if Qleb (u y) 0 then
      {| l := round_down (u x * l y); u := round_up (l x * l y) |}
    else
      {| l := min (round_down (l x * u y)) (round_down (u x * l y));
         u := max (round_up (l x * l y)) (round_up (u x * u y)) |}.

Definition interval_pow (x : Interval) (degree : nat) : Interval :=
  for_from 1 (degree - 1) (fun _ r => interval_mul r x) x.

Definition interval_exp (x : Interval) : Interval :=
  {| l := round_down (exp (l x)); u := round_up (exp (u x)) |}.

Definition interval_translate (x : Interval) (t : Real) : Interval :=
  {| l := round_down (l x + t); u := round_up (u x + t) |}.

Definition interval_scale (x : Interval) (s : Real) : Interval :=
  if Qgeb s 0 then
    {| l := round_down (s * l x); u := round_up (s * u x) |}
  else
    {| l := round_down (s * u x); u := round_up (s * l x) |}.

Definition interval_fma (alpha : Real) (x y : Interval) : Interval :=
  if Qgeb alpha 0 then
    {| l := round_down (round_down (alpha * l x) + l y);
       u := round_up (round_up (alpha * u x) + u y) |}
  else
    {| l := round_down (round_down (alpha * u x) + l y);
       u := round_up (round_up (alpha * l x) + u y) |}.

End Rounding.

(** ** hyperrectangle.h *)

(** [struct hyperrectangle]: the array [intervals]; the field [n] is its
    length. *)
Abbreviation Hyperrectangle := (list Interval).

Definition hyperrectangle_get_space_size (x : Hyperrectangle) : nat := length x.

Definition hyperrectangle_is_bottom (x : Hyperrectangle) : bool :=
  existsb interval_is_bottom x.

Definition hyperrectangle_midpoint (x : Hyperrectangle) : list Real :=
  map interval_midpoint x.

Definition hyperrectangle_radius (x : Hyperrectangle) : list Real :=
  map interval_radius x.

Definition hyperrectangle_volume (x : Hyperrectangle) : Real :=
  for_loop (length x) (fun i volume => volume * interval_radius (x !!! i)) 1.

(** A component-wise operation writes its results into the output
    hyperrectangle [r], one index at a time. *)
Definition hyperrectangle_map2 (f : Interval -> Interval -> Interval)
    (r x y : Hyperrectangle) : Hyperrectangle :=
  for_loop (length x) (fun i r => <[i := f (x !!! i) (y !!! i)]> r) r.

Section HyperrectangleRounding.

Variables round_down round_up : Q -> Q.

Definition hyperrectangle_add : Hyperrectangle -> Hyperrectangle -> Hyperrectangle -> Hyperrectangle :=
  hyperrectangle_map2 (interval_add round_down round_up).

Definition hyperrectangle_sub : Hyperrectangle -> Hyperrectangle -> Hyperrectangle -> Hyperrectangle :=
  hyperrectangle_map2 (interval_sub round_down round_up).

Definition hyperrectangle_mul : Hyperrectangle -> Hyperrectangle -> Hyperrectangle -> Hyperrectangle :=
  hyperrectangle_map2 (interval_mul round_down round_up).

Definition hyperrectangle_fma (alpha : Real) : Hyperrectangle -> Hyperrectangle -> Hyperrectangle -> Hyperrectangle :=
  hyperrectangle_map2 (interval_fma round_down round_up alpha).

End HyperrectangleRounding.

(** The canonical bottom written by [hyperrectangle_glb]. *)
Definition bottom_interval : Interval := {| l := 1; u := -1 |}.

Definition hyperrectangle_glb (r x y : Hyperrectangle) : Hyperrectangle :=
  for_loop (length x) (fun i r =>
    let r := <[i := interval_glb (x !!! i) (y !!! i)]> r in
    if interval_is_bottom (r !!! i) then <[0%nat := bottom_interval]> r else r) r.

Definition hyperrectangle_lub : Hyperrectangle -> Hyperrectangle -> Hyperrectangle -> Hyperrectangle :=
  hyperrectangle_map2 interval_lub.

(** ** binary_heap.c *)

Inductive HeapType := HEAP_MIN | HEAP_MAX.

(** [struct node]: an element with its numerical key.  The keys of the
    embedding are the keys that are numbers; a NaN key, with which every
    comparison of the heap is false, is not represented. *)
Record heap_node (A : Type) := mk_heap_node { data : A; key : Q }.
Arguments mk_heap_node {A} _ _.
Arguments data {A} _.
Arguments key {A} _.

(** [struct binary_heap].  [nodes] is the initialised part of the array: the
    first [size] cells are the heap, the cells after them keep whatever was
    last written there.  The capacity is not represented ([realloc] is
    assumed to succeed). *)
Record BinaryHeap (A : Type) := mk_binary_heap {
  nodes : list (heap_node A);
  size : nat;
  type : HeapType
}.
Arguments mk_binary_heap {A} _ _ _.
Arguments nodes {A} _.
Arguments size {A} _.
Arguments type {A} _.

Definition index_of_parent (i : nat) : nat := Nat.div2 (i - 1).
Definition index_of_left_child (i : nat) : nat := (2 * i + 1)%nat.
Definition index_of_right_child (i : nat) : nat := (2 * i + 2)%nat.

Section BinaryHeap.

Context {A : Type}.

(** [nodes[i].key]; the fallback value is never read by the heap
    operations on a well-formed heap. *)
Definition key_at (ns : list (heap_node A)) (i : nat) : Q :=
  match ns !! i with Some n => key n | None => 0 end.

Definition swap_nodes (ns : list (heap_node A)) (i j : nat) : list (heap_node A) :=
  match ns !! i, ns !! j with
  | Some a, Some b => <[j := a]> (<[i := b]> ns)
  | _, _ => ns
  end.

Definition heap_property_local (t : HeapType) (ns : list (heap_node A))
    (node_idx : nat) : bool :=
  if (node_idx =? 0)%nat then true
  else match t with
       | HEAP_MIN => Qleb (key_at ns (index_of_parent node_idx)) (key_at ns node_idx)
       | HEAP_MAX => Qgeb (key_at ns (index_of_parent node_idx)) (key_at ns node_idx)
       end.

Definition chose_child (t : HeapType) (ns : list (heap_node A))
    (left right : nat) : nat :=
  match t with
  | HEAP_MIN => if Qltb (key_at ns left) (key_at ns right) then left else right
  | HEAP_MAX => if Qgtb (key_at ns left) (key_at ns right) then left else right
  end.

Fixpoint sift_up_loop (fuel : nat) (t : HeapType) (ns : list (heap_node A))
    (node_idx : nat) : list (heap_node A) :=
  match fuel with
  | O => ns
  | S fuel =>
      if heap_property_local t ns node_idx then ns
      else
        let parent_idx := index_of_parent node_idx in
        sift_up_loop fuel t (swap_nodes ns node_idx parent_idx) parent_idx
  end.

(** The index at least halves at every iteration, so [index + 1]
    iterations are enough. *)
Definition sift_up (t : HeapType) (ns : list (heap_node A)) (index : nat) :
    list (heap_node A) :=
  sift_up_loop (S index) t ns index.

Fixpoint sift_down_loop (fuel : nat) (t : HeapType) (ns : list (heap_node A))
    (sz node_idx : nat) : list (heap_node A) :=
  match fuel with
  | O => ns
  | S fuel =>
      let left_idx := index_of_left_child node_idx in
      let right_idx := index_of_right_child node_idx in
      let is_restored :=
        (if (left_idx <? sz)%nat then heap_property_local t ns left_idx else true)
        && (if (right_idx <? sz)%nat then heap_property_local t ns right_idx else true) in
      if is_restored then ns
      else
        let swap_idx := chose_child t ns left_idx right_idx in
        sift_down_loop fuel t (swap_nodes ns node_idx swap_idx) sz swap_idx
  end.

(** The index grows at every iteration and the loop stops once the left
    child is outside the heap, so [size + 1] iterations are enough. *)
Definition sift_down (t : HeapType) (ns : list (heap_node A)) (sz index : nat) :
    list (heap_node A) :=
  sift_down_loop (S sz) t ns sz index.

Definition binary_heap_create (t : HeapType) : BinaryHeap A :=
  {| nodes := []; size := 0; type := t |}.

Definition binary_heap_is_empty (H : BinaryHeap A) : bool := (size H =? 0)%nat.

Definition binary_heap_get_size (H : BinaryHeap A) : nat := size H.

Definition binary_heap_get_next_key (H : BinaryHeap A) : Q := key_at (nodes H) 0.

Definition binary_heap_peek (H : BinaryHeap A) : option A := data <$> nodes H !! 0%nat.

(** [nodes[i] = v], where [i] is at most the number of initialised cells. *)
Definition write_node (ns : list (heap_node A)) (i : nat) (v : heap_node A) :
    list (heap_node A) :=
  if (i <? length ns)%nat then <[i := v]> ns else ns ++ [v].

Definition binary_heap_push (H : BinaryHeap A) (x : A) (k : Q) : BinaryHeap A :=
  let ns := write_node (nodes H) (size H) (mk_heap_node x k) in
  {| nodes := sift_up (type H) ns (size H);
     size := S (size H);
     type := type H |}.

(** Popping from an empty heap terminates the program: [None]. *)
Definition binary_heap_pop (H : BinaryHeap A) : option (A * BinaryHeap A) :=
  if (size H =? 0)%nat then None
  else
    match nodes H !! 0%nat, nodes H !! (size H - 1)%nat with
    | Some first, Some last =>
        let ns := <[0%nat := last]> (nodes H) in
        Some (data first,
              {| nodes := sift_down (type H) ns (size H - 1) 0;
                 size := size H - 1;
                 type := type H |})
    | _, _ => None
    end.

(** ** priority_queue.c *)

(** [struct priority_queue]: a binary heap of type [HEAP_MAX]. *)
Record PriorityQueue := mk_priority_queue { heap : BinaryHeap A }.

Definition priority_queue_create : PriorityQueue :=
  {| heap := binary_heap_create HEAP_MAX |}.

Definition priority_queue_is_empty (P : PriorityQueue) : bool :=
  binary_heap_is_empty (heap P).

Definition priority_queue_get_size (P : PriorityQueue) : nat :=
  binary_heap_get_size (heap P).

Definition priority_queue_get_max_priority (P : PriorityQueue) : Q :=
  binary_heap_get_next_key (heap P).

Definition priority_queue_peek (P : PriorityQueue) : option A :=
  binary_heap_peek (heap P).

Definition priority_queue_push (P : PriorityQueue) (x : A) (priority : Q) : PriorityQueue :=
  {| heap := binary_heap_push (heap P) x priority |}.

Definition priority_queue_pop (P : PriorityQueue) : option (A * PriorityQueue) :=
  match binary_heap_pop (heap P) with
  | Some (x, H) => Some (x, {| heap := H |})
  | None => None
  end.

(** The elements currently stored in a heap, with their keys. *)
Definition stored (H : BinaryHeap A) : list (heap_node A) := take (size H) (nodes H).

End BinaryHeap.

Arguments PriorityQueue : clear implicits.

(** ** Tiers (forest_hyperrectangle.c) *)

(** [struct tier] (its declaration is not part of the sources): the array
    [tiers] of group identifiers, one per feature, and its length [size].
    Group 0 means that the feature belongs to no tier. *)
Record Tier := mk_tier { tiers : list nat; tier_size : nat }.

Definition interval_zero : Interval := {| l := 0; u := 0 |}.
Definition interval_one : Interval := {| l := 1; u := 1 |}.

(** State of the second loop of [adjust_tier]. *)
Record tier_scan := mk_tier_scan {
  scan_x : Hyperrectangle;
  n_members : nat;
  n_off : nat;
  candidate : nat
}.

Definition adjust_tier (x : Hyperrectangle) (tier : Tier) (i : nat)
    (is_active : bool) : Hyperrectangle :=
  let group := tiers tier !!! i in
  if (group =? 0)%nat then x
  else if is_active then
    let x := <[i := interval_one]> x in
    for_loop (tier_size tier) (fun j x =>
      if negb (j =? i)%nat && (tiers tier !!! j =? group)%nat
      then <[j := interval_zero]> x else x) x
  else
    let x := <[i := interval_zero]> x in
    scan_x (for_loop (tier_size tier) (fun j st =>
      let st :=
        if (tiers tier !!! j =? group)%nat then
          let is_off : nat :=
            if Qeqb (l (scan_x st !!! j)) 0 && Qeqb (u (scan_x st !!! j)) 0
            then 1%nat else 0%nat in
          {| scan_x := scan_x st;
             n_members := S (n_members st);
             n_off := (n_off st + is_off)%nat;
             candidate := (j * (1 - is_off))%nat |}
        else st in
      if (n_members st =? n_off st + 1)%nat
      then {| scan_x := <[candidate st := interval_one]> (scan_x st);
              n_members := n_members st;
              n_off := n_off st;
              candidate := candidate st |}
      else st)
      {| scan_x := x; n_members := 0; n_off := 0; candidate := 0 |}).

(** ** set.c *)

(** [struct set] with the equality [set_equality_string]: the array of
    elements, without repetitions, in insertion order.  (The identifier
    [Set] is reserved, hence [LabelSet].) *)
Abbreviation LabelSet := (list string).

Definition set_equality_string (x y : string) : bool := String.eqb x y.

Definition set_clear (S : LabelSet) : LabelSet := [].

Definition set_has_element (S : LabelSet) (x : string) : bool :=
  existsb (fun e => set_equality_string x e) S.

Definition set_is_subset (A B : LabelSet) : bool :=
  forallb (fun a => set_has_element B a) A.

Definition set_is_equal (A B : LabelSet) : bool :=
  if (length A =? length B)%nat then set_is_subset A B && set_is_subset B A
  else false.

Definition set_is_disjoint (A B : LabelSet) : bool :=
  forallb (fun a => forallb (fun b => negb (set_equality_string a b)) B) A.

Definition set_get_cardinality (S : LabelSet) : nat := length S.

Definition set_add_element (S : LabelSet) (x : string) : LabelSet :=
  if set_has_element S x then S else S ++ [x].

(** [set_intersection(R, A, B)]: the new contents of [R]. *)
Definition set_intersection (A B : LabelSet) : LabelSet :=
  fold_left (fun T x => if set_has_element B x then set_add_element T x else T) A [].

(** Further operations of set.c.  A set is passed by pointer and is never
    [NULL] here; an operation that writes its result into the set [R]
    returns the new contents of [R]. *)

Definition set_is_empty (S : LabelSet) : bool := (length S =? 0)%nat.

Definition set_is_singleton (S : LabelSet) : bool := (length S =? 1)%nat.

(** The loop of [set_is_proper_subset] over the elements of [A]: [None]
    when it returns 0 from inside the loop, otherwise the final value of
    [n_common]. *)
Fixpoint set_is_proper_subset_loop (elements : list string) (B : LabelSet)
    (n_common : nat) : option nat :=
  match elements with
  | [] => Some n_common
  | a :: elements =>
      if negb (set_has_element B a) then None
      else set_is_proper_subset_loop elements B (Datatypes.S n_common)
  end.

Definition set_is_proper_subset (A B : LabelSet) : bool :=
  match set_is_proper_subset_loop A B 0 with
  | None => false
  | Some n_common => negb (n_common =? length A)%nat
  end.

Definition set_is_superset (A B : LabelSet) : bool := set_is_subset B A.

Definition set_copy (R S : LabelSet) : LabelSet := S.

(** The loop of [set_remove_element]: the index advances at every
    iteration, also after a removal, and the bound is the current size. *)
Fixpoint set_remove_element_loop (fuel : nat) (i : nat) (S : LabelSet) (x : string) :
    LabelSet :=
  match fuel with
  | O => S
  | Datatypes.S fuel =>
      if (i <? length S)%nat then
        if set_equality_string (S !!! i) x
        then set_remove_element_loop fuel (i + 1) (delete i S) x
        else set_remove_element_loop fuel (i + 1) S x
      else S
  end.

(** The index grows by one per iteration, so [size] iterations suffice. *)
Definition set_remove_element (S : LabelSet) (x : string) : LabelSet :=
  set_remove_element_loop (length S) 0 S x.

Definition set_union (A B : LabelSet) : LabelSet :=
  fold_left (fun T x => set_add_element T x) B
    (fold_left (fun T x => set_add_element T x) A []).

Definition set_difference (A B : LabelSet) : LabelSet :=
  fold_left (fun T x => if negb (set_has_element B x) then set_add_element T x else T) A [].

Definition set_symmetric_difference (A B : LabelSet) : LabelSet :=
  let A_minus_B := set_difference A B in
  let B_minus_A := set_difference B A in
  set_union A_minus_B B_minus_A.

(** ** binary_tree.c and decision_tree.c *)

(** A node of a decision tree with its payload [struct node]: a leaf with
    the per-label sample counts (and the cached [max_score] and
    [n_samples]), a leaf with logarithmic scores, or a univariate linear
    split [x_i <= k] with its two children.  Values of type [unsigned int]
    are integers in [[0, 2^32)]. *)
Inductive Node :=
| Leaf (scores : list Z) (max_score n_samples : Z)
| LeafLog (scores : list Q) (weight : Q)
| Split (i : nat) (k : Real) (left_child right_child : Node).

Definition UINT_RANGE : Z := (2 ^ 32)%Z.

(** [decision_tree_leaf_create]: caches the sum (modulo 2^32) and the
    maximum of the scores. *)
Definition decision_tree_leaf_create (scores : list Z) : Node :=
  let s0 := scores !!! 0%nat in
  let '(n_samples, max_score) :=
    for_from 1 (length scores - 1) (fun i '(n_samples, max_score) =>
      (((n_samples + scores !!! i) mod UINT_RANGE)%Z,
       if (scores !!! i >? max_score)%Z then scores !!! i else max_score))
      (s0, s0) in
  Leaf scores max_score n_samples.

Definition decision_tree_leaf_logarithmic_create (scores : list Q) (weight : Q) : Node :=
  LeafLog scores weight.

(** A pointer to a node of a tree is embedded as a zipper: the subtree
    rooted at the node ([here]) and the path back to the root ([up]), each
    step recording which child the node is, the split of the parent and the
    sibling subtree.  Parent, child and depth are then the usual zipper
    moves. *)
Inductive Side := LeftSide | RightSide.

Record Frame := mk_frame {
  frame_side : Side;
  frame_i : nat;
  frame_k : Real;
  frame_sibling : Node
}.

Record DecisionTreeNode := mk_node_ptr { here : Node; up : list Frame }.

Inductive DecisionTreeNodeType :=
| DECISION_TREE_LEAF
| DECISION_TREE_LEAF_LOG
| DECISION_TREE_UNIVARIATE_LINEAR_SPLIT.

Definition decision_tree_node_get_type (N : DecisionTreeNode) : DecisionTreeNodeType :=
  match here N with
  | Leaf _ _ _ => DECISION_TREE_LEAF
  | LeafLog _ _ => DECISION_TREE_LEAF_LOG
  | Split _ _ _ _ => DECISION_TREE_UNIVARIATE_LINEAR_SPLIT
  end.

Definition decision_tree_node_is_leaf (N : DecisionTreeNode) : bool :=
  match here N with Split _ _ _ _ => false | _ => true end.

Definition decision_tree_node_is_root (N : DecisionTreeNode) : bool :=
  match up N with [] => true | _ => false end.

Definition binary_tree_node_get_depth (N : DecisionTreeNode) : nat := length (up N).

Definition decision_tree_node_get_parent (N : DecisionTreeNode) : option DecisionTreeNode :=
  match up N with
  | [] => None
  | f :: rest =>
      Some {| here := match frame_side f with
                      | LeftSide => Split (frame_i f) (frame_k f) (here N) (frame_sibling f)
                      | RightSide => Split (frame_i f) (frame_k f) (frame_sibling f) (here N)
                      end;
              up := rest |}
  end.

Definition decision_tree_univariate_linear_split_get_left_child
    (N : DecisionTreeNode) : option DecisionTreeNode :=
  match here N with
  | Split i k lc rc => Some {| here := lc; up := mk_frame LeftSide i k rc :: up N |}
  | _ => None
  end.

Definition decision_tree_univariate_linear_split_get_right_child
    (N : DecisionTreeNode) : option DecisionTreeNode :=
  match here N with
  | Split i k lc rc => Some {| here := rc; up := mk_frame RightSide i k lc :: up N |}
  | _ => None
  end.

(** [struct decision_tree]. *)
Record DecisionTree := mk_decision_tree {
  root : Node;
  space_size : nat;
  labels : list string;
  n_labels : nat
}.

Definition decision_tree_get_root (T : DecisionTree) : DecisionTreeNode :=
  {| here := root T; up := [] |}.

(** The walk of [decision_tree_compute_decision_function]: from a node down
    to the leaf selected by the sample [x]. *)
Fixpoint decision_tree_walk (N : Node) (ctx : list Frame) (x : list Real) : DecisionTreeNode :=
  match N with
  | Split i k lc rc =>
      if Qleb (x !!! i) k
      then decision_tree_walk lc (mk_frame LeftSide i k rc :: ctx) x
      else decision_tree_walk rc (mk_frame RightSide i k lc :: ctx) x
  | _ => {| here := N; up := ctx |}
  end.

Definition Z2R (z : Z) : Real := inject_Z z.

(** The score written for label [i] at a leaf.  For a counting leaf it is
    the quotient of the count by the number of samples of the leaf, which
    is meant to be positive: with no sample the C quotient is NaN or an
    infinity, and 0 here. *)
Definition leaf_decision_score (N : Node) (i : nat) : Real :=
  match N with
  | Leaf scores _ n_samples => Z2R (scores !!! i) / Z2R n_samples
  | LeafLog scores _ => scores !!! i
  | Split _ _ _ _ => 0
  end.

Definition decision_tree_compute_decision_function (T : DecisionTree)
    (x : list Real) : list Real :=
  let N := decision_tree_walk (root T) [] x in
  map (leaf_decision_score (here N)) (seq 0 (n_labels T)).

(** The two loops shared by every classification routine: the maximum of
    the scores, then the labels whose score equals the maximum. *)
Definition max_from (start : nat) (n : nat) (scores : list Real) : Real :=
  for_from start (n - start) (fun i m => if Qgtb (scores !!! i) m then scores !!! i else m)
    (scores !!! 0%nat).

Definition labels_at_max (n : nat) (scores : list Real) (m : Real)
    (labels_array : list string) (S : LabelSet) : LabelSet :=
  for_loop n (fun i S =>
    if Qeqb (scores !!! i) m then set_add_element S (labels_array !!! i) else S) S.

Definition decision_tree_classify (T : DecisionTree) (x : list Real) : LabelSet :=
  let scores := decision_tree_compute_decision_function T x in
  let m := max_from 1 (n_labels T) scores in
  labels_at_max (n_labels T) scores m (labels T) [].

(** ** stability_status.h *)

Inductive StabilityResult := STABILITY_TRUE | STABILITY_FALSE | STABILITY_DONT_KNOW.

Record StabilityStatus := mk_stability_status {
  result : StabilityResult;
  has_sample : bool;
  sample_a : list Real;
  sample_b : list Real;
  labels_a : LabelSet;
  timeout : Z
}.

Definition set_result (r : StabilityResult) (st : StabilityStatus) : StabilityStatus :=
  {| result := r; has_sample := has_sample st; sample_a := sample_a st;
     sample_b := sample_b st; labels_a := labels_a st; timeout := timeout st |}.

Definition set_sample_b (b : list Real) (st : StabilityStatus) : StabilityStatus :=
  {| result := result st; has_sample := has_sample st; sample_a := sample_a st;
     sample_b := b; labels_a := labels_a st; timeout := timeout st |}.

Definition set_sample_a (a : list Real) (la : LabelSet) (st : StabilityStatus) :
    StabilityStatus :=
  {| result := result st; has_sample := has_sample st; sample_a := a;
     sample_b := sample_b st; labels_a := la; timeout := timeout st |}.

Definition stability_status_unset_sample (st : StabilityStatus) : StabilityStatus :=
  {| result := result st; has_sample := false; sample_a := sample_a st;
     sample_b := sample_b st; labels_a := labels_a st; timeout := timeout st |}.

(** ** depth_first.c *)

(** The stack is a list with its top first.  [compute_adjacent_nodes]
    appends the successors to a list which is then drained from its end
    onto the stack, so the successors end up on the stack in their order of
    insertion, the first one on top.  The result is the value left in
    [*goal]: [Some (Some x)] when a goal node was popped, [Some None] when
    the stack ran empty, [None] when the fuel of the model ran out. *)
Fixpoint depth_first_search {N : Type} (fuel : nat) (is_goal : N -> bool)
    (compute_adjacent_nodes : N -> list N) (stack : list N) : option (option N) :=
  match fuel with
  | O => None
  | Datatypes.S fuel =>
      match stack with
      | [] => Some None
      | x :: stack =>
          if is_goal x then Some (Some x)
          else depth_first_search fuel is_goal compute_adjacent_nodes
                 (compute_adjacent_nodes x ++ stack)
      end
  end.

(** ** decision_tree_hyperrectangle.c *)

(** Maximum of an array of [unsigned int] scores and the labels that
    attain it. *)
Definition scores_to_labels (scores : list Z) (T : DecisionTree) : LabelSet :=
  let m := for_loop (n_labels T) (fun i m =>
             if (scores !!! i >? m)%Z then scores !!! i else m) (scores !!! 0%nat) in
  for_loop (n_labels T) (fun i S =>
    if (scores !!! i =? m)%Z then set_add_element S (labels T !!! i) else S) [].

Definition log_scores_to_labels (scores : list Real) (T : DecisionTree) : LabelSet :=
  let m := max_from 0 (n_labels T) scores in
  labels_at_max (n_labels T) scores m (labels T) [].

Definition is_counterexample_leaf (T : DecisionTree) (concrete_labels : LabelSet)
    (node : DecisionTreeNode) : bool :=
  match here node with
  | Leaf scores _ _ => negb (set_is_equal concrete_labels (scores_to_labels scores T))
  | LeafLog scores _ => negb (set_is_equal concrete_labels (log_scores_to_labels scores T))
  | Split _ _ _ _ => false
  end.

Definition compute_reachable_paths (x : Hyperrectangle) (node : DecisionTreeNode) :
    list DecisionTreeNode :=
  match here node with
  | Split i k lc rc =>
      (if Qleb (l (x !!! i)) k
       then [ {| here := lc; up := mk_frame LeftSide i k rc :: up node |} ] else [])
      ++
      (if Qgtb (u (x !!! i)) k
       then [ {| here := rc; up := mk_frame RightSide i k lc :: up node |} ] else [])
  | _ => []
  end.

(** One iteration per ancestor, from the parent of the leaf up to the
    root; [previous] is the left child of [current] exactly when its frame
    says [LeftSide]. *)
Fixpoint leaf_to_hyperrectangle_loop (x : Hyperrectangle) (path : list Frame) :
    Hyperrectangle :=
  match path with
  | [] => x
  | f :: path =>
      let i := frame_i f in
      let k := frame_k f in
      let x :=
        match frame_side f with
        | LeftSide => <[i := {| l := l (x !!! i); u := min (u (x !!! i)) k |}]> x
        | RightSide => <[i := {| l := max (u (x !!! i)) k; u := u (x !!! i) |}]> x
        end in
      leaf_to_hyperrectangle_loop x path
  end.

Definition leaf_to_hyperrectangle (x : Hyperrectangle) (leaf : DecisionTreeNode) :
    Hyperrectangle :=
  leaf_to_hyperrectangle_loop x (up leaf).

Definition search_counterexample (fuel : nat) (status : StabilityStatus)
    (T : DecisionTree) (x : Hyperrectangle) : option StabilityStatus :=
  match depth_first_search fuel (is_counterexample_leaf T (labels_a status))
          (compute_reachable_paths x) [decision_tree_get_root T] with
  | None => None
  | Some None => Some status
  | Some (Some leaf) =>
      let y := leaf_to_hyperrectangle x leaf in
      Some (set_sample_b (hyperrectangle_midpoint y) (set_result STABILITY_FALSE status))
  end.

Definition decision_tree_hyperrectangle_is_stable (fuel : nat)
    (status : StabilityStatus) (T : DecisionTree) (x : Hyperrectangle) :
    option StabilityStatus :=
  let has_sample := has_sample status in
  let status :=
    if has_sample then status
    else
      let a := hyperrectangle_midpoint x in
      set_sample_a a (decision_tree_classify T a) status in
  let status := set_result STABILITY_DONT_KNOW status in
  match search_counterexample fuel status T x with
  | None => None
  | Some status =>
      let status :=
        match result status with
        | STABILITY_DONT_KNOW => set_result STABILITY_TRUE status
        | _ => status
        end in
      Some (if has_sample then status else stability_status_unset_sample status)
  end.

(** Number of nodes of a tree. *)
Fixpoint node_count (N : Node) : nat :=
  match N with
  | Split _ _ lc rc => Datatypes.S (node_count lc + node_count rc)
  | _ => 1
  end.

(** ** forest_hyperrectangle.c: reachable leaves *)

Definition EPSILON : Real := 1 # 1000000000000.

(** The explicit stack [S] is the list [stack], top first; [L] is the
    output array. *)
Fixpoint reachable_leaves_loop (fuel : nat) (stack L : list DecisionTreeNode)
    (intervals : Hyperrectangle) : list DecisionTreeNode :=
  match fuel with
  | O => L
  | Datatypes.S fuel =>
      match stack with
      | [] => L
      | n :: stack =>
          match here n with
          | Split i k lc rc =>
              let stack := if Qleb (l (intervals !!! i)) k
                       then {| here := lc; up := mk_frame LeftSide i k rc :: up n |} :: stack
                       else stack in
              let stack := if Qgtb (u (intervals !!! i)) k
                       then {| here := rc; up := mk_frame RightSide i k lc :: up n |} :: stack
                       else stack in
              reachable_leaves_loop fuel stack L intervals
          | _ => reachable_leaves_loop fuel stack (L ++ [n]) intervals
          end
      end
  end.

(** Every iteration pops one node and every node is pushed at most once, so
    [node_count] iterations are enough. *)
Definition reachable_leaves (T : DecisionTree) (x : Hyperrectangle) :
    list DecisionTreeNode :=
  reachable_leaves_loop (node_count (root T)) [decision_tree_get_root T] [] x.

(** ** forest.c *)

Inductive ForestVotingScheme :=
| FOREST_VOTING_MAX
| FOREST_VOTING_AVERAGE
| FOREST_VOTING_SOFTARGMAX.

(** [struct forest]. *)
Record Forest := mk_forest {
  voting_scheme : ForestVotingScheme;
  trees : list DecisionTree;
  n_trees : nat
}.

#[global] Instance DecisionTree_inhabited : Inhabited DecisionTree :=
  populate {| root := Leaf [] 0 0; space_size := 0; labels := []; n_labels := 0 |}.

#[global] Instance DecisionTreeNode_inhabited : Inhabited DecisionTreeNode :=
  populate {| here := Leaf [] 0 0; up := [] |}.

Definition forest_get_labels_as_array (F : Forest) : list string :=
  labels (trees F !!! 0%nat).

Definition forest_get_n_labels (F : Forest) : nat := n_labels (trees F !!! 0%nat).

Definition forest_get_voting_scheme (F : Forest) : ForestVotingScheme := voting_scheme F.

Definition forest_get_n_trees (F : Forest) : nat := n_trees F.

(** The three decision functions accumulate into the array [scores], one
    tree at a time; [tree_scores] is the decision function of the tree. *)
Definition decision_function_max (F : Forest) (x : list Real) : list Real :=
  let n_labels := forest_get_n_labels F in
  for_loop (n_trees F) (fun i scores =>
    let tree_scores := decision_tree_compute_decision_function (trees F !!! i) x in
    let m := max_from 1 n_labels tree_scores in
    for_loop n_labels (fun j scores =>
      if Qeqb (tree_scores !!! j) m then <[j := scores !!! j + 1]> scores else scores)
      scores)
    (replicate n_labels 0).

Definition decision_function_average (F : Forest) (x : list Real) : list Real :=
  let n_labels := forest_get_n_labels F in
  for_loop (n_trees F) (fun i scores =>
    let tree_scores := decision_tree_compute_decision_function (trees F !!! i) x in
    for_loop n_labels (fun j scores =>
      <[j := scores !!! j + tree_scores !!! j / Z2R (Z.of_nat (n_trees F))]> scores)
      scores)
    (replicate n_labels 0).

Definition decision_function_softargmax (F : Forest) (x : list Real) : list Real :=
  let n_labels := forest_get_n_labels F in
  for_loop (n_trees F) (fun i scores =>
    let tree_scores := decision_tree_compute_decision_function (trees F !!! i) x in
    for_loop n_labels (fun j scores =>
      <[j := scores !!! j + tree_scores !!! j]> scores)
      scores)
    (replicate n_labels 0).

Definition forest_compute_decision_function (F : Forest) (x : list Real) : list Real :=
  match voting_scheme F with
  | FOREST_VOTING_MAX => decision_function_max F x
  | FOREST_VOTING_AVERAGE => decision_function_average F x
  | FOREST_VOTING_SOFTARGMAX => decision_function_softargmax F x
  end.

Definition forest_classify (F : Forest) (x : list Real) : LabelSet :=
  let n_labels := forest_get_n_labels F in
  let scores := forest_compute_decision_function F x in
  let m := max_from 1 n_labels scores in
  labels_at_max n_labels scores m (forest_get_labels_as_array F) [].

(** ** best_first.c *)

(** The search context is threaded through the three callbacks, which may
    update it.  The adjacency list is drained from its end into the queue.
    The result is [None] when the model runs out of fuel or the program
    exits (a pop from an empty heap); otherwise the value left in [*goal]
    and the final context. *)
Section BestFirst.

Context {N C : Type}.
Variable is_goal : N -> C -> bool * C.
Variable compute_adjacent_nodes : N -> C -> option (list N * C).
Variable compute_priority : N -> C -> Q * C.

Definition enqueue_adjacent (adjacent_nodes : list N) (Qc : PriorityQueue N * C) :
    PriorityQueue N * C :=
  fold_left (fun '(Qu, ctx) y =>
               let '(p, ctx) := compute_priority y ctx in
               (priority_queue_push Qu y p, ctx))
            (rev adjacent_nodes) Qc.

Fixpoint best_first_search_loop (fuel : nat) (Qu : PriorityQueue N) (context : C) :
    option (option N * C) :=
  match fuel with
  | O => None
  | S fuel =>
      if priority_queue_is_empty Qu then Some (None, context)
      else
        match priority_queue_pop Qu with
        | None => None
        | Some (x, Qu) =>
            let '(stop, context) := is_goal x context in
            if stop then Some (Some x, context)
            else
              match compute_adjacent_nodes x context with
              | None => None
              | Some (adjacent_nodes, context) =>
                  let '(Qu, context) := enqueue_adjacent adjacent_nodes (Qu, context) in
                  best_first_search_loop fuel Qu context
              end
        end
  end.

Definition best_first_search (fuel : nat) (root : N) (context : C) :
    option (option N * C) :=
  best_first_search_loop fuel (priority_queue_push priority_queue_create root 0) context.

End BestFirst.

(** ** forest_hyperrectangle.c *)

Inductive InternalStatus := DONT_KNOW | UNSTABLE | ABORTED.

(** [struct hyperrectangle_decorator].  The list of children serves the
    final deallocation only and is not represented; neither is the release
    of the region of a decorator once it has been refined. *)
#[local] Unset Elimination Schemes.
Inductive HyperrectangleDecorator := mk_decorator {
  d_x : Hyperrectangle;
  d_leaf : option DecisionTreeNode;
  d_parent : option HyperrectangleDecorator;
  d_labels : LabelSet
}.
#[local] Set Elimination Schemes.

(** [struct analysis_data] (fields prefixed with [a_]).  The scratch arrays
    [S], [L] and [local_scores] are local values of the functions that use
    them.  [a_clock] counts the calls of [time] made so far. *)
Record analysis_data := mk_analysis_data {
  a_status : StabilityStatus;
  a_F : Forest;
  a_start_time : Z;
  a_timeout : Z;
  a_internal_status : InternalStatus;
  a_labels : list string;
  a_n_labels : nat;
  a_n_trees : nat;
  a_local_labels : LabelSet;
  a_tier : Tier;
  a_clock : nat
}.

Definition set_internal_status (s : InternalStatus) (data : analysis_data) : analysis_data :=
  {| a_status := a_status data; a_F := a_F data; a_start_time := a_start_time data;
     a_timeout := a_timeout data; a_internal_status := s; a_labels := a_labels data;
     a_n_labels := a_n_labels data; a_n_trees := a_n_trees data;
     a_local_labels := a_local_labels data; a_tier := a_tier data;
     a_clock := a_clock data |}.

Definition set_status (st : StabilityStatus) (data : analysis_data) : analysis_data :=
  {| a_status := st; a_F := a_F data; a_start_time := a_start_time data;
     a_timeout := a_timeout data; a_internal_status := a_internal_status data;
     a_labels := a_labels data; a_n_labels := a_n_labels data;
     a_n_trees := a_n_trees data; a_local_labels := a_local_labels data;
     a_tier := a_tier data; a_clock := a_clock data |}.

Definition set_local_labels (ls : LabelSet) (data : analysis_data) : analysis_data :=
  {| a_status := a_status data; a_F := a_F data; a_start_time := a_start_time data;
     a_timeout := a_timeout data; a_internal_status := a_internal_status data;
     a_labels := a_labels data; a_n_labels := a_n_labels data;
     a_n_trees := a_n_trees data; a_local_labels := ls; a_tier := a_tier data;
     a_clock := a_clock data |}.

Definition tick (data : analysis_data) : analysis_data :=
  {| a_status := a_status data; a_F := a_F data; a_start_time := a_start_time data;
     a_timeout := a_timeout data; a_internal_status := a_internal_status data;
     a_labels := a_labels data; a_n_labels := a_n_labels data;
     a_n_trees := a_n_trees data; a_local_labels := a_local_labels data;
     a_tier := a_tier data; a_clock := S (a_clock data) |}.

(** The static [scores_to_labels] of forest_hyperrectangle.c: the labels
    that no other label strictly dominates. *)
Definition forest_scores_to_labels (scores : Hyperrectangle) (data : analysis_data) :
    LabelSet :=
  for_loop (a_n_labels data) (fun i labels =>
    if set_has_element labels (a_labels data !!! i) then labels
    else
      let is_maximal :=
        forallb (fun j => (i =? j)%nat
                          || negb (interval_is_lt (scores !!! i) (scores !!! j)))
                (seq 0 (a_n_labels data)) in
      if is_maximal then set_add_element labels (a_labels data !!! i) else labels) [].

Fixpoint decorator_get_depth (x : HyperrectangleDecorator) : nat :=
  match x with
  | mk_decorator _ _ (Some parent) _ => S (decorator_get_depth parent)
  | mk_decorator _ _ None _ => 0
  end.

(** The payload of a leaf, read through the member of the union that the
    voting scheme prescribes.  (On a node of another kind the C code reads
    the union through the wrong member; the accessors then return an empty
    array or zero.) *)
Definition leaf_scores (N : DecisionTreeNode) : list Z :=
  match here N with Leaf scores _ _ => scores | _ => [] end.

Definition leaf_max_score (N : DecisionTreeNode) : Z :=
  match here N with Leaf _ max_score _ => max_score | _ => 0%Z end.

Definition leaf_n_samples (N : DecisionTreeNode) : Z :=
  match here N with Leaf _ _ n_samples => n_samples | _ => 0%Z end.

Definition leaf_logarithmic_scores (N : DecisionTreeNode) : list Real :=
  match here N with LeafLog scores _ => scores | _ => [] end.

Definition add_point (c : Real) (x : Interval) : Interval :=
  {| l := l x + c; u := u x + c |}.

Definition init_scores (n_labels : nat) (scores : Hyperrectangle) : Hyperrectangle :=
  for_loop n_labels (fun i scores => <[i := interval_zero]> scores) scores.

(** The loop [while (current->leaf)] over a decorator and its ancestors. *)
Fixpoint for_each_fixed_leaf (body : DecisionTreeNode -> Hyperrectangle -> Hyperrectangle)
    (current : HyperrectangleDecorator) (scores : Hyperrectangle) : Hyperrectangle :=
  match current with
  | mk_decorator _ (Some leaf) (Some parent) _ =>
      for_each_fixed_leaf body parent (body leaf scores)
  | mk_decorator _ (Some leaf) None _ => body leaf scores
  | mk_decorator _ None _ _ => scores
  end.

Definition decorator_score_concrete_max (scores : Hyperrectangle)
    (x : HyperrectangleDecorator) (data : analysis_data) : Hyperrectangle :=
  let n_labels := a_n_labels data in
  for_each_fixed_leaf (fun leaf scores =>
    for_loop n_labels (fun i scores =>
      if (leaf_scores leaf !!! i =? leaf_max_score leaf)%Z
      then <[i := add_point 1 (scores !!! i)]> scores else scores) scores)
    x (init_scores n_labels scores).

(** The shares are added as exact rationals, so the order of the additions
    does not matter here.  The program adds rounded doubles, along the chain
    of decorators from the last tree to the first, whereas
    [decision_function_average] adds them from the first tree to the last;
    the two sums of doubles may differ in their last bit. *)
Definition decorator_score_concrete_average (scores : Hyperrectangle)
    (x : HyperrectangleDecorator) (data : analysis_data) : Hyperrectangle :=
  let n_labels := forest_get_n_labels (a_F data) in
  for_each_fixed_leaf (fun leaf scores =>
    for_loop n_labels (fun i scores =>
      <[i := add_point (Z2R (leaf_scores leaf !!! i) / Z2R (leaf_n_samples leaf)
                        / Z2R (Z.of_nat (a_n_trees data))) (scores !!! i)]> scores) scores)
    x (init_scores n_labels scores).

Definition decorator_score_concrete_softargmax (scores : Hyperrectangle)
    (x : HyperrectangleDecorator) (data : analysis_data) : Hyperrectangle :=
  let n_labels := forest_get_n_labels (a_F data) in
  for_each_fixed_leaf (fun leaf scores =>
    for_loop n_labels (fun i scores =>
      <[i := add_point (leaf_logarithmic_scores leaf !!! i) (scores !!! i)]> scores) scores)
    x (init_scores n_labels scores).

Definition decorator_score_concrete (scores : Hyperrectangle)
    (x : HyperrectangleDecorator) (data : analysis_data) : Hyperrectangle :=
  match forest_get_voting_scheme (a_F data) with
  | FOREST_VOTING_MAX => decorator_score_concrete_max scores x data
  | FOREST_VOTING_AVERAGE => decorator_score_concrete_average scores x data
  | FOREST_VOTING_SOFTARGMAX => decorator_score_concrete_softargmax scores x data
  end.

Definition bool_to_R (b : bool) : Real := if b then 1 else 0.

Definition decorator_score_sound_max (scores : Hyperrectangle)
    (x : HyperrectangleDecorator) (T : DecisionTree) (data : analysis_data) :
    Hyperrectangle :=
  let n_labels := a_n_labels data in
  let L := reachable_leaves T (d_x x) in
  let n_leaves := length L in
  let local_scores := for_loop n_labels (fun i ls => <[i := 0%nat]> ls) (replicate n_labels 0%nat) in
  let local_scores :=
    for_loop n_leaves (fun j ls =>
      for_loop n_labels (fun i ls =>
        if (leaf_scores (L !!! j) !!! i =? leaf_max_score (L !!! j))%Z
        then <[i := S (ls !!! i)]> ls else ls) ls) local_scores in
  for_loop n_labels (fun i scores =>
    <[i := {| l := l (scores !!! i) + bool_to_R (local_scores !!! i =? n_leaves)%nat;
              u := u (scores !!! i) + bool_to_R (0 <? local_scores !!! i)%nat |}]> scores)
    scores.

(** Minimum and maximum of a per-leaf quantity over the reachable leaves,
    from the given initial values. *)
Definition min_max_over (L : list DecisionTreeNode) (p : DecisionTreeNode -> Real)
    (min0 max0 : Real) : Real * Real :=
  for_loop (length L) (fun j '(mn, mx) =>
    let pj := p (L !!! j) in
    (if Qltb pj mn then pj else mn, if Qgtb pj mx then pj else mx)) (min0, max0).

Definition decorator_score_sound_average (scores : Hyperrectangle)
    (x : HyperrectangleDecorator) (T : DecisionTree) (data : analysis_data) :
    Hyperrectangle :=
  let L := reachable_leaves T (d_x x) in
  for_loop (a_n_labels data) (fun i scores =>
    let '(mn, mx) :=
      min_max_over L (fun leaf => Z2R (leaf_scores leaf !!! i) / Z2R (leaf_n_samples leaf))
        1 0 in
    <[i := {| l := l (scores !!! i) + mn / Z2R (Z.of_nat (a_n_trees data));
              u := u (scores !!! i) + mx / Z2R (Z.of_nat (a_n_trees data)) |}]> scores)
    scores.

(** [DBL_MAX], the largest finite [double]. *)
Definition DBL_MAX : Real := inject_Z (2 ^ 1024 - 2 ^ 971).

Definition decorator_score_sound_softargmax (scores : Hyperrectangle)
    (x : HyperrectangleDecorator) (T : DecisionTree) (data : analysis_data) :
    Hyperrectangle :=
  let L := reachable_leaves T (d_x x) in
  for_loop (a_n_labels data) (fun i scores =>
    let '(mn, mx) :=
      min_max_over L (fun leaf => leaf_logarithmic_scores leaf !!! i) DBL_MAX (- DBL_MAX) in
    <[i := {| l := l (scores !!! i) + mn; u := u (scores !!! i) + mx |}]> scores)
    scores.

Section ForestAnalysis.

(** The libm exponential, and the clock: [time k] is the value returned by
    the [k]-th call of [time(NULL)]. *)
Variable exp : Q -> Q.
Variable time : nat -> Z.

Definition decorator_score_sound (scores : Hyperrectangle)
    (x : HyperrectangleDecorator) (data : analysis_data) : Hyperrectangle :=
  let depth := decorator_get_depth x in
  let n_trees := a_n_trees data in
  let overapproximate :=
    match forest_get_voting_scheme (a_F data) with
    | FOREST_VOTING_MAX => decorator_score_sound_max
    | FOREST_VOTING_AVERAGE => decorator_score_sound_average
    | FOREST_VOTING_SOFTARGMAX => decorator_score_sound_softargmax
    end in
  let scores :=
    for_from depth (n_trees - depth) (fun i scores =>
      overapproximate scores x (trees (a_F data) !!! i) data) scores in
  match forest_get_voting_scheme (a_F data) with
  | FOREST_VOTING_SOFTARGMAX =>
      let n_labels := forest_get_n_labels (a_F data) in
      let '(s_min, s_max) :=
        for_loop n_labels (fun i '(s_min, s_max) =>
          (s_min + exp (l (scores !!! i)), s_max + exp (u (scores !!! i)))) (0, 0) in
      for_loop n_labels (fun i scores =>
        <[i := {| l := exp (l (scores !!! i)) / s_max;
                  u := exp (u (scores !!! i)) / s_min |}]> scores) scores
  | _ => scores
  end.

Definition decorator_score_overapproximate (scores : Hyperrectangle)
    (x : HyperrectangleDecorator) (data : analysis_data) : Hyperrectangle :=
  decorator_score_sound (decorator_score_concrete scores x data) x data.

(** [hyperrectangle_create]: an array of [n] intervals (their initial
    contents are never read). *)
Definition hyperrectangle_create (n : nat) : Hyperrectangle := replicate n interval_zero.

Definition decorator_compute_labels (x : HyperrectangleDecorator)
    (data : analysis_data) : LabelSet :=
  let scores := hyperrectangle_create (a_n_labels data) in
  let scores := decorator_score_overapproximate scores x data in
  forest_scores_to_labels scores data.

Definition is_complete (x : HyperrectangleDecorator) (data : analysis_data) :
    bool * analysis_data :=
  match a_internal_status data with
  | DONT_KNOW =>
      let now := time (a_clock data) in
      let data := tick data in
      if (now - a_start_time data >? a_timeout data)%Z
      then (true, set_internal_status ABORTED data)
      else (false, data)
  | _ => (true, data)
  end.

Definition found_unstable (sample : list Real) (data : analysis_data) : analysis_data :=
  set_status (set_sample_b sample (a_status data)) (set_internal_status UNSTABLE data).

Definition replace_u (x : Hyperrectangle) (i : nat) (v : Real) : Hyperrectangle :=
  <[i := {| l := l (x !!! i); u := v |}]> x.

Definition replace_l (x : Hyperrectangle) (i : nat) (v : Real) : Hyperrectangle :=
  <[i := {| l := v; u := u (x !!! i) |}]> x.

Definition depth_to_R (depth : nat) : Real := Z2R (Z.of_nat depth).

(** The loop of [refine] over the two queues [Qx] and [Qt], which always
    receive the same priorities.  A division by a zero radius, which yields
    an infinity or a NaN in C, yields 0 here; the priorities only order the
    traversal of the tree. *)
Fixpoint refine_loop (fuel : nat) (Qx : PriorityQueue Hyperrectangle)
    (Qt : PriorityQueue DecisionTreeNode) (refined : list HyperrectangleDecorator)
    (x : HyperrectangleDecorator) (data : analysis_data) :
    option (list HyperrectangleDecorator * analysis_data) :=
  match fuel with
  | O => None
  | S fuel =>
      if priority_queue_is_empty Qx then Some (refined, data)
      else
        match priority_queue_pop Qx, priority_queue_pop Qt with
        | Some (x_prime, Qx), Some (N, Qt) =>
            let depth := binary_tree_node_get_depth N in
            match here N with
            | Split i k lc rc =>
                let left := {| here := lc; up := mk_frame LeftSide i k rc :: up N |} in
                let right := {| here := rc; up := mk_frame RightSide i k lc :: up N |} in
                if Qleb (l (x_prime !!! i)) k && Qgtb (u (x_prime !!! i)) k then
                  let x_right := x_prime in
                  let x_left := replace_u x_prime i (min (u (x_prime !!! i)) k) in
                  let x_left := adjust_tier x_left (a_tier data) i false in
                  let priority :=
                    depth_to_R depth
                    + (k - l (x_left !!! i)) / interval_radius (x_left !!! i) in
                  let Qx := priority_queue_push Qx x_left priority in
                  let Qt := priority_queue_push Qt left priority in
                  let x_right := replace_l x_right i (max (u (x_left !!! i)) (k + EPSILON)) in
                  let x_right := adjust_tier x_right (a_tier data) i true in
                  let priority :=
                    depth_to_R depth
                    + (u (x_left !!! i) - k) / interval_radius (x_left !!! i) in
                  let Qx := priority_queue_push Qx x_right priority in
                  let Qt := priority_queue_push Qt right priority in
                  refine_loop fuel Qx Qt refined x data
                else if Qleb (u (x_prime !!! i)) k then
                  let x_prime := adjust_tier x_prime (a_tier data) i false in
                  let priority :=
                    depth_to_R depth
                    + (k - l (x_prime !!! i)) / interval_radius (x_prime !!! i) in
                  let Qx := priority_queue_push Qx x_prime priority in
                  let Qt := priority_queue_push Qt left priority in
                  refine_loop fuel Qx Qt refined x data
                else if Qgtb (l (x_prime !!! i)) k then
                  let x_prime := adjust_tier x_prime (a_tier data) i true in
                  let priority :=
                    depth_to_R depth
                    + (u (x_prime !!! i) - k) / interval_radius (x_prime !!! i) in
                  let Qx := priority_queue_push Qx x_prime priority in
                  let Qt := priority_queue_push Qt right priority in
                  refine_loop fuel Qx Qt refined x data
                else refine_loop fuel Qx Qt refined x data
            | _ =>
                let h := mk_decorator x_prime (Some N) (Some x) [] in
                let h := mk_decorator x_prime (Some N) (Some x)
                           (decorator_compute_labels h data) in
                if set_is_disjoint (d_labels h) (labels_a (a_status data)) then
                  Some (refined, found_unstable (hyperrectangle_midpoint x_prime) data)
                else if set_is_equal (d_labels h) (labels_a (a_status data)) then
                  refine_loop fuel Qx Qt refined x data
                else refine_loop fuel Qx Qt (refined ++ [h]) x data
            end
        | _, _ => None
        end
  end.

Definition refine (fuel : nat) (x : HyperrectangleDecorator) (data : analysis_data) :
    option (list HyperrectangleDecorator * analysis_data) :=
  let depth := decorator_get_depth x in
  if (depth =? forest_get_n_trees (a_F data))%nat then
    if negb (set_is_equal (d_labels x) (labels_a (a_status data)))
    then Some ([], found_unstable (hyperrectangle_midpoint (d_x x)) data)
    else Some ([], data)
  else
    let Qx := priority_queue_push priority_queue_create (d_x x) 0 in
    let Qt := priority_queue_push priority_queue_create
                (decision_tree_get_root (trees (a_F data) !!! depth)) 0 in
    refine_loop fuel Qx Qt [] x data.

Definition compute_priority (h : HyperrectangleDecorator) (data : analysis_data) :
    Q * analysis_data :=
  let abstract_labels := a_local_labels data in
  let volume := hyperrectangle_volume (d_x h) in
  let n_labels_l := Z2R (Z.of_nat (set_get_cardinality abstract_labels)) in
  let depth := depth_to_R (decorator_get_depth h) in
  let abstract_labels := set_intersection abstract_labels (labels_a (a_status data)) in
  let intersection_size := Z2R (Z.of_nat (set_get_cardinality abstract_labels)) in
  (- (1000000 * volume) + 1 * depth
   + 1 * (n_labels_l - intersection_size) / Z2R (Z.of_nat (a_n_labels data)),
   set_local_labels abstract_labels data).

(** [fuel] bounds the number of iterations of the search loop and of each
    refinement loop. *)
Definition forest_hyperrectangle_is_stable (fuel : nat) (status : StabilityStatus)
    (F : Forest) (x : Hyperrectangle) (t : Tier) : option StabilityStatus :=
  let has_sample := has_sample status in
  let status :=
    if has_sample then status
    else
      let a := hyperrectangle_midpoint x in
      set_sample_a a (forest_classify F a) status in
  let start := mk_decorator x None None [] in
  let data :=
    {| a_status := status; a_F := F; a_start_time := time 0;
       a_timeout := timeout status; a_internal_status := DONT_KNOW;
       a_labels := forest_get_labels_as_array F;
       a_n_labels := forest_get_n_labels F; a_n_trees := forest_get_n_trees F;
       a_local_labels := []; a_tier := t; a_clock := 1 |} in
  match best_first_search is_complete (refine fuel) compute_priority fuel start data with
  | None => None
  | Some (_, data) =>
      let status := a_status data in
      let status :=
        match a_internal_status data with
        | DONT_KNOW => set_result STABILITY_TRUE status
        | UNSTABLE => set_result STABILITY_FALSE status
        | ABORTED => set_result STABILITY_DONT_KNOW status
        end in
      Some (if has_sample then status else stability_status_unset_sample status)
  end.

End ForestAnalysis.

(** ** binary_tree.c: depth-first visits *)

(** A pointer to a node of a generic binary tree: [BT_NULL] is the NULL
    pointer, a node carries its payload and the pointers to its two
    children, each of which may be NULL.  (The pointer to the parent is not
    read by the visits and is not represented.) *)
Inductive BinaryTree (A : Type) : Type :=
| BT_NULL
| BT_node (node_data : A) (left_child right_child : BinaryTree A).

Arguments BT_NULL {A}.
Arguments BT_node {A} node_data left_child right_child.

Section BinaryTreeVisits.

Context {A St : Type}.

(** The visitor [V(N, data)] updates the state reached through [data]. *)
Variable V : BinaryTree A -> St -> St.

(** [if (C != NULL) stack_push(S, C)]; the stack is a list, top first. *)
Definition stack_push_child (stack : list (BinaryTree A)) (C : BinaryTree A) :
    list (BinaryTree A) :=
  match C with
  | BT_NULL => stack
  | BT_node _ _ _ => C :: stack
  end.

Fixpoint binary_tree_depth_first_pre_visit_loop (fuel : nat)
    (stack : list (BinaryTree A)) (data : St) : option St :=
  match fuel with
  | O => None
  | Datatypes.S fuel =>
      match stack with
      | [] => Some data
      | N :: stack =>
          match N with
          | BT_NULL => None
          | BT_node _ l r =>
              let data := V N data in
              let stack := stack_push_child stack r in
              let stack := stack_push_child stack l in
              binary_tree_depth_first_pre_visit_loop fuel stack data
          end
      end
  end.

(** [binary_tree_depth_first_pre_visit]; [None] when the program aborts
    on a NULL tree or the fuel of the model runs out. *)
Definition binary_tree_depth_first_pre_visit (fuel : nat) (T : BinaryTree A)
    (data : St) : option St :=
  match T with
  | BT_NULL => None
  | BT_node _ _ _ => binary_tree_depth_first_pre_visit_loop fuel [T] data
  end.

Fixpoint binary_tree_depth_first_in_visit_loop (fuel : nat)
    (stack : list (BinaryTree A)) (current : BinaryTree A) (data : St) : option St :=
  match fuel with
  | O => None
  | Datatypes.S fuel =>
      match current with
      | BT_NULL =>
          match stack with
          | [] => Some data
          | N :: stack =>
              match N with
              | BT_NULL => None
              | BT_node _ _ r =>
                  binary_tree_depth_first_in_visit_loop fuel stack r (V N data)
              end
          end
      | BT_node _ l _ =>
          binary_tree_depth_first_in_visit_loop fuel (current :: stack) l data
      end
  end.

Definition binary_tree_depth_first_in_visit (fuel : nat) (T : BinaryTree A)
    (data : St) : option St :=
  match T with
  | BT_NULL => None
  | BT_node _ l _ => binary_tree_depth_first_in_visit_loop fuel [T] l data
  end.

(** The first loop of [binary_tree_depth_first_post_visit] moves the nodes
    from [stack] to [stack_prime]. *)
Fixpoint binary_tree_depth_first_post_visit_loop (fuel : nat)
    (stack stack_prime : list (BinaryTree A)) : option (list (BinaryTree A)) :=
  match fuel with
  | O => None
  | Datatypes.S fuel =>
      match stack with
      | [] => Some stack_prime
      | N :: stack =>
          match N with
          | BT_NULL => None
          | BT_node _ l r =>
              let stack_prime := N :: stack_prime in
              let stack := stack_push_child stack l in
              let stack := stack_push_child stack r in
              binary_tree_depth_first_post_visit_loop fuel stack stack_prime
          end
      end
  end.

(** The second loop pops [stack_prime] until it is empty and visits each node. *)
Definition binary_tree_depth_first_post_visit (fuel : nat) (T : BinaryTree A)
    (data : St) : option St :=
  match T with
  | BT_NULL => None
  | BT_node _ _ _ =>
      match binary_tree_depth_first_post_visit_loop fuel [T] [] with
      | Some stack_prime => Some (fold_left (fun data N => V N data) stack_prime data)
      | None => None
      end
  end.

End BinaryTreeVisits.

(** ** list.c *)

Definition LIST_SIZE : nat := 32.

(** [struct list]: the array [elements] of [capacity] cells, of which the
    cells [from .. to - 1] hold the elements of the list.  The fields are of
    type [unsigned int]. *)
Record List (A : Type) := mk_list {
  list_elements : list A;
  list_from : nat;
  list_to : nat;
  list_capacity : nat
}.
Arguments mk_list {A} _ _ _ _.
Arguments list_elements {A} _.
Arguments list_from {A} _.
Arguments list_to {A} _.
Arguments list_capacity {A} _.

(** Arithmetic of [unsigned int]. *)
Definition uint_of_Z (z : Z) : nat := Z.to_nat (z mod UINT_RANGE).
Definition uint_add (a b : nat) : nat := uint_of_Z (Z.of_nat a + Z.of_nat b).
Definition uint_sub (a b : nat) : nat := uint_of_Z (Z.of_nat a - Z.of_nat b).
Definition uint_mul (a b : nat) : nat := uint_of_Z (Z.of_nat a * Z.of_nat b).

Section ListOperations.

(** Cells that were allocated and never written hold [inhabitant]. *)
Context {A : Type} `{Inhabited A}.

(** [memmove(elements + dst, elements + src, n)] inside the array; [None]
    when a cell outside the array would be read or written. *)
Definition list_memmove (elements : list A) (dst src n : nat) : option (list A) :=
  if ((src + n <=? length elements) && (dst + n <=? length elements))%nat then
    Some (take dst elements ++ take n (drop src elements) ++ drop (dst + n) elements)
  else None.

Definition list_resize (L : List A) (size : nat) : option (List A) :=
  match
    (if negb (list_from L =? 0)%nat then
       match list_memmove (list_elements L) 0 (list_from L)
               (uint_sub (list_to L) (list_from L)) with
       | Some elements =>
           Some {| list_elements := elements;
                   list_from := 0;
                   list_to := uint_sub (list_to L) (list_from L);
                   list_capacity := list_capacity L |}
       | None => None
       end
     else Some L)
  with
  | Some L =>
      if negb (size =? list_capacity L)%nat then
        Some {| list_elements :=
                  take size (list_elements L)
                  ++ replicate (size - length (list_elements L)) inhabitant;
                list_from := list_from L;
                list_to := if (size <? list_to L)%nat then uint_add size 1 else list_to L;
                list_capacity := size |}
      else Some L
  | None => None
  end.

Definition list_create : List A :=
  {| list_elements := replicate LIST_SIZE inhabitant;
     list_from := 0; list_to := 0; list_capacity := LIST_SIZE |}.

Definition list_is_empty (L : List A) : bool := (list_to L =? list_from L)%nat.

Definition list_get_size (L : List A) : nat := uint_sub (list_to L) (list_from L).

(** [list_get_at]: [None] when the program aborts or reads outside the
    array. *)
Definition list_get_at (L : List A) (i : nat) : option A :=
  if (uint_sub (list_to L) (list_from L) <? i)%nat then None
  else list_elements L !! uint_add (list_from L) i.

Definition list_get_head (L : List A) : option A := list_get_at L 0.

Definition list_get_last (L : List A) : option A :=
  if (list_to L =? list_from L)%nat then None
  else list_elements L !! uint_sub (list_to L) 1.

(** [list_append]; [None] when the cell written is outside the array. *)
Definition list_append (L : List A) (x : A) : option (List A) :=
  match
    (if (uint_sub (list_to L) (list_from L) =? list_capacity L)%nat
     then list_resize L (uint_mul 2 (list_capacity L)) else Some L)
  with
  | Some L =>
      if (list_to L <? length (list_elements L))%nat then
        Some {| list_elements := <[list_to L := x]> (list_elements L);
                list_from := list_from L;
                list_to := uint_add (list_to L) 1;
                list_capacity := list_capacity L |}
      else None
  | None => None
  end.

Definition list_prepend (L : List A) (x : A) : option (List A) :=
  match
    (if (list_from L =? 0)%nat then
       match
         (if (list_to L =? list_capacity L)%nat
          then list_resize L (uint_mul 2 (list_capacity L)) else Some L)
       with
       | Some L =>
           match list_memmove (list_elements L) (list_from L + 1) (list_from L)
                   (uint_sub (list_to L) (list_from L)) with
           | Some elements =>
               Some {| list_elements := elements;
                       list_from := list_from L;
                       list_to := uint_add (list_to L) 1;
                       list_capacity := list_capacity L |}
           | None => None
           end
       | None => None
       end
     else
       Some {| list_elements := list_elements L;
               list_from := uint_sub (list_from L) 1;
               list_to := list_to L;
               list_capacity := list_capacity L |})
  with
  | Some L =>
      if (list_from L <? length (list_elements L))%nat then
        Some {| list_elements := <[list_from L := x]> (list_elements L);
                list_from := list_from L;
                list_to := list_to L;
                list_capacity := list_capacity L |}
      else None
  | None => None
  end.

Definition list_push (L : List A) (x : A) : option (List A) := list_append L x.

Definition list_unshift (L : List A) (x : A) : option (List A) := list_prepend L x.

Definition list_shift (L : List A) : option (A * List A) :=
  if (list_to L =? list_from L)%nat then None
  else
    let L := {| list_elements := list_elements L;
                list_from := uint_add (list_from L) 1;
                list_to := list_to L;
                list_capacity := list_capacity L |} in
    match list_elements L !! uint_sub (list_from L) 1 with
    | Some x => Some (x, L)
    | None => None
    end.

Definition list_pop (L : List A) : option (A * List A) :=
  if (list_to L =? list_from L)%nat then None
  else
    let L := {| list_elements := list_elements L;
                list_from := list_from L;
                list_to := uint_sub (list_to L) 1;
                list_capacity := list_capacity L |} in
    match list_elements L !! list_to L with
    | Some x => Some (x, L)
    | None => None
    end.

End ListOperations.

(** ** perturbation.h and adversarial_region.h *)

(** [struct perturbation]: the type tag with the member of the union that
    belongs to it. *)
Inductive Perturbation :=
| PERTURBATION_L_INF (magnitude : Real)
| PERTURBATION_L_INF_CLIP_ALL (magnitude clip_min clip_max : Real).

(** [struct adversarial_region] (the field [space_size] is named
    [region_space_size] here). *)
Record AdversarialRegion := mk_adversarial_region {
  sample : list Real;
  region_space_size : nat;
  perturbation : Perturbation
}.

(** ** classifier_hyperrectangle.c *)

Section AdversarialRegions.

(** The bounds of the hyperrectangle are doubles: the difference and the
    sum of a coordinate and the magnitude are rounded to a double, which
    [round] does. *)
Variable round : Q -> Q.

Definition region_to_hyperrectangle_l_inf (x : Hyperrectangle)
    (region : AdversarialRegion) (magnitude : Real) : Hyperrectangle :=
  for_loop (region_space_size region) (fun i x =>
    <[i := {| l := round (sample region !!! i - magnitude);
              u := round (sample region !!! i + magnitude) |}]> x) x.

Definition region_to_hyperrectangle_l_inf_clip_all (x : Hyperrectangle)
    (region : AdversarialRegion) (magnitude clip_min clip_max : Real) : Hyperrectangle :=
  for_loop (region_space_size region) (fun i x =>
    <[i := {| l := max (round (sample region !!! i - magnitude)) clip_min;
              u := min (round (sample region !!! i + magnitude)) clip_max |}]> x) x.

Definition adversarial_region_to_hyperrectangle (x : Hyperrectangle)
    (region : AdversarialRegion) : Hyperrectangle :=
  match perturbation region with
  | PERTURBATION_L_INF magnitude => region_to_hyperrectangle_l_inf x region magnitude
  | PERTURBATION_L_INF_CLIP_ALL magnitude clip_min clip_max =>
      region_to_hyperrectangle_l_inf_clip_all x region magnitude clip_min clip_max
  end.

End AdversarialRegions.

(* ================================================================== *)
(** * Part II: properties                                              *)
(* ================================================================== *)

(** ** Boolean comparisons *)

Lemma Qleb_le a b : Qleb a b = true <-> a <= b.
Proof. apply Qle_bool_iff. Qed.

Lemma Qleb_gt a b : Qleb a b = false <-> b < a.
Proof.
  unfold Qleb. rewrite <- not_true_iff_false, Qle_bool_iff. split.
  - apply Qnot_le_lt.
  - apply Qlt_not_le.
Qed.

Lemma Qltb_lt a b : Qltb a b = true <-> a < b.
Proof. unfold Qltb. rewrite negb_true_iff. apply Qleb_gt. Qed.

Lemma Qltb_ge a b : Qltb a b = false <-> b <= a.
Proof. unfold Qltb. rewrite negb_false_iff. apply Qleb_le. Qed.

Lemma Qgtb_gt a b : Qgtb a b = true <-> b < a.
Proof. apply Qltb_lt. Qed.

Lemma Qgtb_le a b : Qgtb a b = false <-> a <= b.
Proof. apply Qltb_ge. Qed.

Lemma Qgeb_ge a b : Qgeb a b = true <-> b <= a.
Proof. apply Qleb_le. Qed.

Lemma Qgeb_lt a b : Qgeb a b = false <-> a < b.
Proof. apply Qleb_gt. Qed.

Lemma Qeqb_eq a b : Qeqb a b = true <-> a == b.
Proof. apply Qeq_bool_iff. Qed.

Lemma Qeqb_neq a b : Qeqb a b = false <-> ~ a == b.
Proof. unfold Qeqb. rewrite <- not_true_iff_false, Qeq_bool_iff. tauto. Qed.

(** Case analysis on every boolean comparison in the goal. *)
Ltac qcases :=
  repeat match goal with
  | |- context [Qleb ?a ?b] =>
      let E := fresh "E" in
      destruct (Qleb a b) eqn:E; [apply Qleb_le in E | apply Qleb_gt in E]
  | |- context [Qltb ?a ?b] =>
      let E := fresh "E" in
      destruct (Qltb a b) eqn:E; [apply Qltb_lt in E | apply Qltb_ge in E]
  | |- context [Qgtb ?a ?b] =>
      let E := fresh "E" in
      destruct (Qgtb a b) eqn:E; [apply Qgtb_gt in E | apply Qgtb_le in E]
  | |- context [Qgeb ?a ?b] =>
      let E := fresh "E" in
      destruct (Qgeb a b) eqn:E; [apply Qgeb_ge in E | apply Qgeb_lt in E]
  | |- context [Qeqb ?a ?b] =>
      let E := fresh "E" in
      destruct (Qeqb a b) eqn:E; [apply Qeqb_eq in E | apply Qeqb_neq in E]
  end.

Lemma min_le_l a b : min a b <= a.
Proof. unfold min. qcases; lra. Qed.

Lemma min_le_r a b : min a b <= b.
Proof. unfold min. qcases; lra. Qed.

Lemma max_ge_l a b : a <= max a b.
Proof. unfold max. qcases; lra. Qed.

Lemma max_ge_r a b : b <= max a b.
Proof. unfold max. qcases; lra. Qed.

(** ** Loops *)

Lemma for_from_S {S} lo n (body : nat -> S -> S) s :
  for_from lo (Datatypes.S n) body s = body (lo + n)%nat (for_from lo n body s).
Proof.
  revert lo s. induction n as [|n IH]; intros lo s.
  - simpl. now rewrite Nat.add_0_r.
  - change (for_from lo (Datatypes.S (Datatypes.S n)) body s)
      with (for_from (Datatypes.S lo) (Datatypes.S n) body (body lo s)).
    rewrite IH. simpl. now rewrite Nat.add_succ_r.
Qed.

Lemma for_loop_S {S} n (body : nat -> S -> S) s :
  for_loop (Datatypes.S n) body s = body n (for_loop n body s).
Proof. unfold for_loop. now rewrite for_from_S. Qed.

(** ** Intervals: concretisation and soundness of the transfer functions *)

Definition in_interval (a : Q) (x : Interval) : Prop := l x <= a /\ a <= u x.

Section RoundingFacts.

Variables round_down round_up : Q -> Q.
Variable exp : Q -> Q.
Hypothesis round_down_le : forall q, round_down q <= q.
Hypothesis round_up_ge : forall q, q <= round_up q.
Hypothesis exp_monotone : forall a b, a <= b -> exp a <= exp b.

Lemma interval_add_sound x y a b :
  in_interval a x -> in_interval b y ->
  in_interval (a + b) (interval_add round_down round_up x y).
Proof.
  intros [Ha1 Ha2] [Hb1 Hb2]. split; simpl.
  - pose proof (round_down_le (l x + l y)). lra.
  - pose proof (round_up_ge (u x + u y)). lra.
Qed.

Lemma interval_mul_sound x y a b :
  in_interval a x -> in_interval b y ->
  in_interval (a * b) (interval_mul round_down round_up x y).
Proof.
  intros [Ha1 Ha2] [Hb1 Hb2]. unfold interval_mul, is_zero_interval.
  assert (RD := round_down_le). assert (RU := round_up_ge).
  destruct (Qeqb (l x) 0 && Qeqb (u x) 0) eqn:Zx.
  { apply andb_true_iff in Zx as [Z1 Z2].
    apply Qeqb_eq in Z1. apply Qeqb_eq in Z2. simpl.
    assert (a == 0) by lra. split; simpl; nra. }
  destruct (Qeqb (l y) 0 && Qeqb (u y) 0) eqn:Zy.
  { apply andb_true_iff in Zy as [Z1 Z2].
    apply Qeqb_eq in Z1. apply Qeqb_eq in Z2. simpl.
    assert (b == 0) by lra. split; simpl; nra. }
  simpl. clear Zx Zy.
  destruct (Qlt_le_dec a 0) as [Sa|Sa]; destruct (Qlt_le_dec b 0) as [Sb|Sb];
    qcases; split; simpl;
    try (eapply Qle_trans; [apply RD | nra]);
    try (eapply Qle_trans; [| apply RU]; nra);
    try (eapply Qle_trans; [apply min_le_l | eapply Qle_trans; [apply RD | nra]]);
    try (eapply Qle_trans; [apply min_le_r | eapply Qle_trans; [apply RD | nra]]);
    try (eapply Qle_trans; [| apply max_ge_l]; eapply Qle_trans; [| apply RU]; nra);
    try (eapply Qle_trans; [| apply max_ge_r]; eapply Qle_trans; [| apply RU]; nra).
Qed.

Lemma interval_exp_sound x a :
  in_interval a x -> in_interval (exp a) (interval_exp round_down round_up exp x).
Proof.
  intros [Ha1 Ha2]. split; simpl.
  - eapply Qle_trans; [apply round_down_le | now apply exp_monotone].
  - eapply Qle_trans; [| apply round_up_ge]. now apply exp_monotone.
Qed.

Lemma interval_scale_sound x s a :
  in_interval a x -> in_interval (s * a) (interval_scale round_down round_up x s).
Proof.
  intros [Ha1 Ha2]. unfold interval_scale. qcases; split; simpl;
    try (eapply Qle_trans; [apply round_down_le | nra]);
    try (eapply Qle_trans; [| apply round_up_ge]; nra).
Qed.

Lemma interval_fma_sound alpha x y a b :
  in_interval a x -> in_interval b y ->
  in_interval (alpha * a + b) (interval_fma round_down round_up alpha x y).
Proof.
  intros [Ha1 Ha2] [Hb1 Hb2]. unfold interval_fma. qcases; split; simpl.
  - eapply Qle_trans; [apply round_down_le |].
    pose proof (round_down_le (alpha * l x)). nra.
  - eapply Qle_trans; [| apply round_up_ge].
    pose proof (round_up_ge (alpha * u x)). nra.
  - eapply Qle_trans; [apply round_down_le |].
    pose proof (round_down_le (alpha * u x)). nra.
  - eapply Qle_trans; [| apply round_up_ge].
    pose proof (round_up_ge (alpha * l x)). nra.
Qed.

End RoundingFacts.

(** Exact arithmetic: no rounding at all. *)
Definition exact (q : Q) : Q := q.

(** C3 (interval-arithmetic soundness) fails for [interval_sub]: the
    subtraction computes [x.l - y.l] and [x.u - y.u], so with
    [x = y = [0, 1]], [a = 0] and [b = 1] the exact difference [a - b = -1]
    lies outside the computed interval [[0, 0]]. *)
Theorem interval_sub_unsound :
  let x := {| l := 0; u := 1 |} in
  let y := {| l := 0; u := 1 |} in
  interval_is_bottom x = false /\ interval_is_bottom y = false /\
  in_interval 0 x /\ in_interval 1 y /\
  interval_sub exact exact x y = {| l := 0 - 0; u := 1 - 1 |} /\
  ~ in_interval (0 - 1) (interval_sub exact exact x y).
Proof.
  cbv zeta. repeat split; try (unfold in_interval; simpl; lra).
  intros [H _]. simpl in H. unfold exact in H. lra.
Qed.

(** ** Hyperrectangles: component-wise operations *)

Lemma hyperrectangle_map2_spec f (r x y : Hyperrectangle) n :
  (n <= length r)%nat ->
  length (for_loop n (fun i r => <[i := f (x !!! i) (y !!! i)]> r) r) = length r /\
  forall i : nat,
    for_loop n (fun i r => <[i := f (x !!! i) (y !!! i)]> r) r !! i =
    if decide (i < n)%nat then Some (f (x !!! i) (y !!! i)) else r !! i.
Proof.
  induction n as [|n IH]; intros Hn.
  - split; [reflexivity|]. intros i. destruct (decide (i < 0)%nat); [lia | reflexivity].
  - destruct IH as [IHlen IHget]; [lia|].
    rewrite for_loop_S. cbv beta. split.
    + now rewrite length_insert.
    + intros i. destruct (decide (i = n)) as [->|Hne].
      * rewrite list_lookup_insert_eq by lia.
        destruct (decide (n < Datatypes.S n)%nat); [reflexivity | lia].
      * rewrite list_lookup_insert_ne by congruence. rewrite IHget.
        destruct (decide (i < n)%nat), (decide (i < Datatypes.S n)%nat);
          try reflexivity; lia.
Qed.

Lemma hyperrectangle_map2_lookup f (r x y : Hyperrectangle) (i : nat) :
  length r = length x -> (i < length x)%nat ->
  hyperrectangle_map2 f r x y !! i = Some (f (x !!! i) (y !!! i)).
Proof.
  intros Hr Hi. unfold hyperrectangle_map2.
  destruct (hyperrectangle_map2_spec f r x y (length x)) as [_ H]; [lia|].
  rewrite H. destruct (decide (i < length x)%nat); [reflexivity | lia].
Qed.

(** Does some component of the intersection come out empty? *)
Definition glb_has_bottom (x y : Hyperrectangle) (n : nat) : bool :=
  existsb (fun i => interval_is_bottom (interval_glb (x !!! i) (y !!! i))) (seq 0 n).

Lemma glb_has_bottom_S x y n :
  glb_has_bottom x y (Datatypes.S n) =
  glb_has_bottom x y n || interval_is_bottom (interval_glb (x !!! n) (y !!! n)).
Proof.
  unfold glb_has_bottom. rewrite seq_S, existsb_app. simpl.
  now rewrite orb_false_r.
Qed.

Definition glb_body (x y : Hyperrectangle) (i : nat) (r : Hyperrectangle) : Hyperrectangle :=
  let r := <[i := interval_glb (x !!! i) (y !!! i)]> r in
  if interval_is_bottom (r !!! i) then <[0%nat := bottom_interval]> r else r.

Lemma hyperrectangle_glb_spec (r x y : Hyperrectangle) n :
  (n <= length r)%nat ->
  length (for_loop n (glb_body x y) r) = length r /\
  (forall i : nat, (0 < i)%nat ->
    for_loop n (glb_body x y) r !! i =
    if decide (i < n)%nat then Some (interval_glb (x !!! i) (y !!! i)) else r !! i) /\
  ((0 < n)%nat ->
    for_loop n (glb_body x y) r !! 0%nat =
    Some (if glb_has_bottom x y n then bottom_interval
          else interval_glb (x !!! 0%nat) (y !!! 0%nat))).
Proof.
  induction n as [|n IH]; intros Hn.
  - split; [reflexivity|]. split; [|lia].
    intros i _. destruct (decide (i < 0)%nat); [lia | reflexivity].
  - destruct IH as (IHlen & IHpos & IHzero); [lia|].
    rewrite for_loop_S. set (r0 := for_loop n (glb_body x y) r) in *.
    unfold glb_body.
    assert (Hget : <[n := interval_glb (x !!! n) (y !!! n)]> r0 !!! n
                   = interval_glb (x !!! n) (y !!! n)).
    { apply list_lookup_total_correct. apply list_lookup_insert_eq. lia. }
    rewrite Hget. rewrite glb_has_bottom_S.
    assert (Hpos : forall i : nat, (0 < i)%nat ->
      <[n := interval_glb (x !!! n) (y !!! n)]> r0 !! i =
      if decide (i < Datatypes.S n)%nat
      then Some (interval_glb (x !!! i) (y !!! i)) else r !! i).
    { intros i Hi. destruct (decide (i = n)) as [->|Hne].
      - rewrite list_lookup_insert_eq by lia.
        destruct (decide (n < Datatypes.S n)%nat); [reflexivity | lia].
      - rewrite list_lookup_insert_ne by congruence. rewrite IHpos by exact Hi.
        destruct (decide (i < n)%nat), (decide (i < Datatypes.S n)%nat);
          try reflexivity; lia. }
    destruct (interval_is_bottom (interval_glb (x !!! n) (y !!! n))) eqn:Hb.
    + rewrite orb_true_r. repeat split.
      * now rewrite !length_insert.
      * intros i Hi. rewrite list_lookup_insert_ne by lia. now apply Hpos.
      * intros _. apply list_lookup_insert_eq. rewrite length_insert. lia.
    + rewrite orb_false_r. repeat split.
      * now rewrite length_insert.
      * exact Hpos.
      * intros _. destruct n as [|n].
        -- rewrite list_lookup_insert_eq by lia. reflexivity.
        -- rewrite list_lookup_insert_ne by lia. apply IHzero. lia.
Qed.

(** C8, as stated, fails for [hyperrectangle_glb]: when a later component
    of the intersection is empty, component 0 of the result is overwritten
    with [[1, -1]] and is no longer the interval glb of the components 0. *)
Lemma hyperrectangle_glb_not_componentwise :
  let x := [ {| l := 0; u := 1 |}; {| l := 0; u := 1 |} ] in
  let y := [ {| l := 0; u := 1 |}; {| l := 2; u := 3 |} ] in
  length x = length y /\
  hyperrectangle_glb x x y !! 0%nat = Some bottom_interval /\
  hyperrectangle_glb x x y !! 0%nat <> Some (interval_glb (x !!! 0%nat) (y !!! 0%nat)).
Proof.
  cbv zeta. split; [reflexivity|]. split; [reflexivity|].
  vm_compute. discriminate.
Qed.

(** C8 (amended): addition, subtraction, multiplication and lub are
    component-wise at every index; [hyperrectangle_glb] is component-wise at
    every index other than 0, and at index 0 when no component intersection
    is empty; when some component intersection is empty, component 0 of the
    result is the canonical bottom [[1, -1]]. *)
Theorem hyperrectangle_binary_componentwise
    (round_down round_up : Q -> Q) (r x y : Hyperrectangle) (i : nat) :
  length r = length x -> length y = length x -> (i < length x)%nat ->
  hyperrectangle_add round_down round_up r x y !! i
    = Some (interval_add round_down round_up (x !!! i) (y !!! i)) /\
  hyperrectangle_sub round_down round_up r x y !! i
    = Some (interval_sub round_down round_up (x !!! i) (y !!! i)) /\
  hyperrectangle_mul round_down round_up r x y !! i
    = Some (interval_mul round_down round_up (x !!! i) (y !!! i)) /\
  hyperrectangle_lub r x y !! i = Some (interval_lub (x !!! i) (y !!! i)) /\
  hyperrectangle_glb r x y !! i
    = Some (if (i =? 0)%nat && glb_has_bottom x y (length x)
            then bottom_interval
            else interval_glb (x !!! i) (y !!! i)).
Proof.
  intros Hr Hy Hi.
  repeat (split; [now apply hyperrectangle_map2_lookup|]).
  unfold hyperrectangle_glb.
  destruct (hyperrectangle_glb_spec r x y (length x)) as (_ & Hpos & Hzero); [lia|].
  fold (glb_body x y).
  destruct i as [|i]; simpl.
  - rewrite Hzero by lia. reflexivity.
  - rewrite Hpos by lia.
    destruct (decide (Datatypes.S i < length x)%nat); [reflexivity | lia].
Qed.

Lemma hyperrectangle_binary_componentwise_witness :
  let x := [ {| l := 0; u := 1 |}; {| l := 0; u := 1 |} ] in
  let y := [ {| l := 0; u := 1 |}; {| l := 2; u := 3 |} ] in
  length x = length x /\ length y = length x /\ (1 < length x)%nat /\
  hyperrectangle_glb x x y !! 1%nat
    = Some (if (1 =? 0)%nat && glb_has_bottom x y (length x)
            then bottom_interval
            else interval_glb (x !!! 1%nat) (y !!! 1%nat)).
Proof.
  cbv zeta. split; [reflexivity|]. split; [reflexivity|]. split; [simpl; lia|].
  apply (hyperrectangle_binary_componentwise exact exact
           [ {| l := 0; u := 1 |}; {| l := 0; u := 1 |} ]
           [ {| l := 0; u := 1 |}; {| l := 0; u := 1 |} ]
           [ {| l := 0; u := 1 |}; {| l := 2; u := 3 |} ] 1%nat);
    [reflexivity | reflexivity | simpl; lia].
Defined.

(** ** Binary heap *)

Lemma index_of_parent_lt i : (0 < i)%nat -> (index_of_parent i < i)%nat.
Proof. unfold index_of_parent. rewrite Nat.div2_div. intros. 
  assert ((i - 1) / 2 <= i - 1)%nat by (apply Nat.Div0.div_le_upper_bound; lia). lia. Qed.

Lemma index_of_parent_left j : index_of_parent (index_of_left_child j) = j.
Proof.
  unfold index_of_parent, index_of_left_child. rewrite Nat.div2_div.
  replace (2 * j + 1 - 1)%nat with (j * 2)%nat by lia. now apply Nat.div_mul.
Qed.

Lemma index_of_parent_right j : index_of_parent (index_of_right_child j) = j.
Proof.
  unfold index_of_parent, index_of_right_child. rewrite Nat.div2_div.
  replace (2 * j + 2 - 1)%nat with (1 + j * 2)%nat by lia.
  rewrite Nat.div_add by lia. reflexivity.
Qed.

Lemma index_of_parent_inv i :
  (0 < i)%nat ->
  i = index_of_left_child (index_of_parent i) \/
  i = index_of_right_child (index_of_parent i).
Proof.
  intros Hi. unfold index_of_parent, index_of_left_child, index_of_right_child.
  rewrite Nat.div2_div.
  pose proof (Nat.div_mod_eq (i - 1) 2) as E.
  pose proof (Nat.mod_upper_bound (i - 1) 2). lia.
Qed.

Section BinaryHeapFacts.

Context {A : Type}.
Implicit Types (ns : list (heap_node A)).

Lemma swap_nodes_length ns i j : length (swap_nodes ns i j) = length ns.
Proof.
  unfold swap_nodes. destruct (ns !! i), (ns !! j); try reflexivity.
  now rewrite !length_insert.
Qed.

Lemma swap_nodes_lookup ns i j (k : nat) :
  (i < length ns)%nat -> (j < length ns)%nat ->
  swap_nodes ns i j !! k =
  if decide (k = j) then ns !! i else if decide (k = i) then ns !! j else ns !! k.
Proof.
  intros Hi Hj. unfold swap_nodes.
  destruct (lookup_lt_is_Some_2 ns i Hi) as [a Ha].
  destruct (lookup_lt_is_Some_2 ns j Hj) as [b Hb].
  rewrite Ha, Hb.
  destruct (decide (k = j)) as [->|Hkj].
  - rewrite list_lookup_insert_eq by (rewrite length_insert; lia). reflexivity.
  - rewrite list_lookup_insert_ne by congruence.
    destruct (decide (k = i)) as [->|Hki].
    + rewrite list_lookup_insert_eq by lia. reflexivity.
    + rewrite list_lookup_insert_ne by congruence. reflexivity.
Qed.

Lemma key_at_swap ns i j (k : nat) :
  (i < length ns)%nat -> (j < length ns)%nat ->
  key_at (swap_nodes ns i j) k =
  if decide (k = j) then key_at ns i else if decide (k = i) then key_at ns j else key_at ns k.
Proof.
  intros Hi Hj. unfold key_at. rewrite swap_nodes_lookup by assumption.
  destruct (decide (k = j)); [reflexivity|]. destruct (decide (k = i)); reflexivity.
Qed.

Lemma insert_cons_perm (L : list (heap_node A)) (j : nat) a b :
  L !! j = Some b -> b :: <[j := a]> L ≡ₚ a :: L.
Proof.
  revert j. induction L as [|x L IH]; intros [|j] Hj; simpl in *; try discriminate.
  - injection Hj as ->. apply perm_swap.
  - rewrite (perm_swap x b). rewrite (IH j Hj). apply perm_swap.
Qed.

Lemma insert_swap_perm (L : list (heap_node A)) (i j : nat) a b :
  L !! i = Some a -> L !! j = Some b -> <[j := a]> (<[i := b]> L) ≡ₚ L.
Proof.
  revert i j. induction L as [|x L IH]; intros [|i] [|j] Hi Hj; simpl in *;
    try discriminate.
  - injection Hi as ->. injection Hj as ->. reflexivity.
  - injection Hi as ->. now apply insert_cons_perm.
  - injection Hj as ->. now apply insert_cons_perm.
  - f_equiv. now apply IH.
Qed.

Lemma swap_nodes_perm ns i j sz :
  (i < sz)%nat -> (j < sz)%nat -> (sz <= length ns)%nat ->
  take sz (swap_nodes ns i j) ≡ₚ take sz ns.
Proof.
  intros Hi Hj Hsz. unfold swap_nodes.
  destruct (ns !! i) as [a|] eqn:Ha; [|reflexivity].
  destruct (ns !! j) as [b|] eqn:Hb; [|reflexivity].
  rewrite !take_insert_lt by lia.
  apply insert_swap_perm; rewrite lookup_take_lt by lia; assumption.
Qed.

(** Max-heap order on the first [sz] cells. *)
Definition ordered_at ns (i : nat) : Prop :=
  key_at ns i <= key_at ns (index_of_parent i).

Definition heap_ordered ns (sz : nat) : Prop :=
  forall i : nat, (0 < i < sz)%nat -> ordered_at ns i.

(** Ordered everywhere except that the node at [j] may exceed its parent. *)
Definition weak_up ns (sz j : nat) : Prop :=
  forall i : nat, (0 < i < sz)%nat ->
    (i <> j -> ordered_at ns i) /\
    (index_of_parent i = j -> (0 < j)%nat ->
       key_at ns i <= key_at ns (index_of_parent j)).

(** Ordered everywhere except that the children of [j] may exceed it. *)
Definition weak_down ns (sz j : nat) : Prop :=
  forall i : nat, (0 < i < sz)%nat ->
    (index_of_parent i <> j -> ordered_at ns i) /\
    (index_of_parent i = j -> (0 < j)%nat ->
       key_at ns i <= key_at ns (index_of_parent j)).

Lemma heap_property_local_max ns (i : nat) :
  (0 < i)%nat ->
  heap_property_local HEAP_MAX ns i = true <-> ordered_at ns i.
Proof.
  intros Hi. unfold heap_property_local, ordered_at.
  destruct (Nat.eqb_spec i 0%nat); [lia|]. apply Qgeb_ge.
Qed.

Lemma heap_ordered_root_max ns sz (i : nat) :
  heap_ordered ns sz -> (i < sz)%nat -> key_at ns i <= key_at ns 0.
Proof.
  intros Hord. induction i as [i IH] using lt_wf_ind. intros Hi.
  destruct (Nat.eq_dec i 0%nat) as [->|Hne]; [apply Qle_refl|].
  assert (Hp : (index_of_parent i < i)%nat) by (apply index_of_parent_lt; lia).
  eapply Qle_trans; [apply Hord; lia|]. apply IH; lia.
Qed.

Lemma sift_up_loop_spec fuel ns (j sz : nat) :
  (j < fuel)%nat -> (j < sz)%nat -> (sz <= length ns)%nat ->
  weak_up ns sz j ->
  length (sift_up_loop fuel HEAP_MAX ns j) = length ns /\
  heap_ordered (sift_up_loop fuel HEAP_MAX ns j) sz /\
  take sz (sift_up_loop fuel HEAP_MAX ns j) ≡ₚ take sz ns.
Proof.
  revert ns j. induction fuel as [|fuel IH]; intros ns j Hf Hj Hsz Hw; [lia|].
  simpl. destruct (heap_property_local HEAP_MAX ns j) eqn:Hloc.
  - split; [reflexivity|]. split; [|reflexivity].
    intros i Hi. destruct (Nat.eq_dec i j) as [->|Hne].
    + apply heap_property_local_max; [lia | assumption].
    + now apply Hw.
  - assert (Hj0 : (0 < j)%nat).
    { destruct j; [discriminate Hloc | lia]. }
    assert (Hlt : key_at ns (index_of_parent j) < key_at ns j).
    { unfold heap_property_local in Hloc.
      destruct (Nat.eqb_spec j 0%nat); [lia|]. now apply Qgeb_lt in Hloc. }
    set (p := index_of_parent j) in *.
    assert (Hp : (p < j)%nat) by now apply index_of_parent_lt.
    assert (Hkey : forall k : nat, key_at (swap_nodes ns j p) k =
      if decide (k = p) then key_at ns j
      else if decide (k = j) then key_at ns p else key_at ns k).
    { intros k. apply key_at_swap; lia. }
    destruct (IH (swap_nodes ns j p) p) as (Hlen & Hord & Hperm);
      try lia; try (rewrite swap_nodes_length; lia).
    + intros i Hi. destruct (Hw i Hi) as [Hw1 Hw2].
      assert (Hpi : (index_of_parent i < i)%nat) by (apply index_of_parent_lt; lia).
      split.
      * intros Hip. unfold ordered_at. rewrite !Hkey.
        destruct (decide (i = p)); [congruence|].
        destruct (decide (i = j)) as [->|Hij].
        -- fold p. destruct (decide (p = p)); [|congruence]. lra.
        -- specialize (Hw1 Hij). unfold ordered_at in Hw1.
           destruct (decide (index_of_parent i = p)) as [Ep|Ep].
           ++ rewrite Ep in Hw1. lra.
           ++ destruct (decide (index_of_parent i = j)) as [Ej|Ej].
              ** now apply Hw2.
              ** exact Hw1.
      * intros Hip Hp0. rewrite !Hkey.
        assert (Hpp : (index_of_parent p < p)%nat) by now apply index_of_parent_lt.
        destruct (decide (index_of_parent p = p)); [lia|].
        destruct (decide (index_of_parent p = j)); [lia|].
        destruct (decide (i = p)); [lia|].
        assert (Hop : ordered_at ns p).
        { destruct (Hw p) as [H1 _]; [lia|]. apply H1. lia. }
        unfold ordered_at in Hop.
        destruct (decide (i = j)) as [->|Hij]; [exact Hop|].
        specialize (Hw1 Hij). unfold ordered_at in Hw1. rewrite Hip in Hw1. lra.
    + rewrite swap_nodes_length in Hlen. split; [exact Hlen|]. split; [exact Hord|].
      rewrite Hperm. apply swap_nodes_perm; lia.
Qed.

Lemma sift_down_loop_spec fuel ns (j sz : nat) :
  (sz < fuel + j)%nat -> (sz < length ns)%nat ->
  key_at ns sz <= key_at ns j ->
  weak_down ns sz j ->
  length (sift_down_loop fuel HEAP_MAX ns sz j) = length ns /\
  heap_ordered (sift_down_loop fuel HEAP_MAX ns sz j) sz /\
  take sz (sift_down_loop fuel HEAP_MAX ns sz j) ≡ₚ take sz ns.
Proof.
  revert ns j. induction fuel as [|fuel IH]; intros ns j Hf Hsz Hstale Hw.
  { split; [reflexivity|]. split; [|reflexivity].
    intros i Hi. apply Hw; [exact Hi|].
    pose proof (index_of_parent_lt i). lia. }
  cbn [sift_down_loop].
  set (lc := index_of_left_child j). set (rc := index_of_right_child j).
  assert (Hlc : index_of_parent lc = j) by apply index_of_parent_left.
  assert (Hrc : index_of_parent rc = j) by apply index_of_parent_right.
  assert (Hlr : rc = S lc) by (unfold lc, rc, index_of_left_child, index_of_right_child; lia).
  assert (Hjl : (j < lc)%nat) by (unfold lc, index_of_left_child; lia).
  assert (Hchild : forall i : nat, (0 < i)%nat -> index_of_parent i = j -> i = lc \/ i = rc).
  { intros i Hi Hp. destruct (index_of_parent_inv i Hi) as [E|E];
      rewrite Hp in E; [left | right]; exact E. }
  destruct ((if (lc <? sz)%nat then heap_property_local HEAP_MAX ns lc else true)
            && (if (rc <? sz)%nat then heap_property_local HEAP_MAX ns rc else true))
    eqn:Hres.
  - (* restored *)
    split; [reflexivity|]. split; [|reflexivity].
    apply andb_true_iff in Hres as [Hl Hr].
    intros i Hi. destruct (decide (index_of_parent i = j)) as [Hp|Hp].
    + destruct (Hchild i) as [->| ->]; [lia | exact Hp | |].
      * destruct (Nat.ltb_spec lc sz); [|lia].
        apply heap_property_local_max; [lia | assumption].
      * destruct (Nat.ltb_spec rc sz); [|lia].
        apply heap_property_local_max; [lia | assumption].
    + now apply Hw.
  - (* one swap, then continue from the chosen child *)
    set (c := chose_child HEAP_MAX ns lc rc).
    assert (Hc : (c < sz)%nat /\ (c = lc \/ c = rc) /\ key_at ns j < key_at ns c /\
                 forall i : nat, (0 < i < sz)%nat -> index_of_parent i = j ->
                   key_at ns i <= key_at ns c).
    { unfold c, chose_child.
      destruct (Nat.ltb_spec lc sz) as [Hl|Hl].
      - destruct (Nat.ltb_spec rc sz) as [Hr|Hr].
        + assert (Hviol : key_at ns j < key_at ns lc \/ key_at ns j < key_at ns rc).
          { apply andb_false_iff in Hres as [H|H];
              unfold heap_property_local in H.
            - destruct (Nat.eqb_spec lc 0%nat); [lia|]. rewrite Hlc in H.
              left. now apply Qgeb_lt in H.
            - destruct (Nat.eqb_spec rc 0%nat); [lia|]. rewrite Hrc in H.
              right. now apply Qgeb_lt in H. }
          destruct (Qgtb (key_at ns lc) (key_at ns rc)) eqn:Hcmp;
            [apply Qgtb_gt in Hcmp | apply Qgtb_le in Hcmp].
          * split; [exact Hl|]. split; [now left|]. split; [lra|].
            intros i Hi Hp. destruct (Hchild i) as [->| ->]; [lia | exact Hp | |]; lra.
          * split; [exact Hr|]. split; [now right|]. split; [lra|].
            intros i Hi Hp. destruct (Hchild i) as [->| ->]; [lia | exact Hp | |]; lra.
        + assert (Hrs : rc = sz) by lia.
          assert (Hviol : key_at ns j < key_at ns lc).
          { rewrite andb_true_r in Hres. unfold heap_property_local in Hres.
            destruct (Nat.eqb_spec lc 0%nat); [lia|]. rewrite Hlc in Hres.
            now apply Qgeb_lt in Hres. }
          rewrite Hrs.
          destruct (Qgtb (key_at ns lc) (key_at ns sz)) eqn:Hcmp;
            [apply Qgtb_gt in Hcmp | apply Qgtb_le in Hcmp; lra].
          split; [exact Hl|]. split; [now left|]. split; [exact Hviol|].
          intros i Hi Hp. destruct (Hchild i) as [->| ->]; [lia | exact Hp | lra | lia].
      - destruct (Nat.ltb_spec rc sz) as [Hr|Hr]; [lia|]. discriminate Hres. }
    destruct Hc as (Hcsz & Hcc & Hjc & Hmax).
    assert (Hpc : index_of_parent c = j) by (destruct Hcc as [->| ->]; assumption).
    assert (Hjc' : (j < c)%nat) by (destruct Hcc as [->| ->]; lia).
    assert (Hkey : forall k : nat, key_at (swap_nodes ns j c) k =
      if decide (k = c) then key_at ns j
      else if decide (k = j) then key_at ns c else key_at ns k).
    { intros k. apply key_at_swap; lia. }
    destruct (IH (swap_nodes ns j c) c) as (Hlen & Hord & Hperm);
      try lia; try (rewrite swap_nodes_length; lia).
    + rewrite !Hkey. destruct (decide (sz = c)); [lia|].
      destruct (decide (sz = j)); [lia|].
      destruct (decide (c = c)); [|congruence]. exact Hstale.
    + intros i Hi. destruct (Hw i Hi) as [Hw1 Hw2].
      assert (Hpi : (index_of_parent i < i)%nat) by (apply index_of_parent_lt; lia).
      split.
      * intros Hip. unfold ordered_at. rewrite !Hkey.
        destruct (decide (i = c)) as [->|Hic].
        -- rewrite Hpc. destruct (decide (j = c)); [lia|].
           destruct (decide (j = j)); [|congruence]. lra.
        -- destruct (decide (index_of_parent i = c)); [congruence|].
           destruct (decide (i = j)) as [->|Hij].
           ++ destruct (decide (index_of_parent j = j)); [lia|].
              destruct (Hw c) as [_ H2]; [lia|]. apply H2; [exact Hpc | lia].
           ++ destruct (decide (index_of_parent i = j)) as [Ej|Ej].
              ** apply Hmax; [lia | exact Ej].
              ** now apply Hw1.
      * intros Hip Hc0. rewrite !Hkey. rewrite Hpc.
        destruct (decide (j = c)); [lia|].
        destruct (decide (j = j)); [|congruence].
        destruct (decide (i = c)); [lia|].
        destruct (decide (i = j)); [lia|].
        destruct (Hw i Hi) as [H1 _]. rewrite <- Hip. apply H1. lia.
    + rewrite swap_nodes_length in Hlen. split; [exact Hlen|]. split; [exact Hord|].
      rewrite Hperm. apply swap_nodes_perm; lia.
Qed.

Definition heap_inv (H : BinaryHeap A) : Prop :=
  type H = HEAP_MAX /\ (size H <= length (nodes H))%nat /\
  heap_ordered (nodes H) (size H).

Lemma write_node_spec ns (sz : nat) v :
  (sz <= length ns)%nat ->
  (sz < length (write_node ns sz v))%nat /\
  write_node ns sz v !! sz = Some v /\
  (forall i : nat, (i < sz)%nat -> write_node ns sz v !! i = ns !! i) /\
  take (S sz) (write_node ns sz v) = take sz ns ++ [v].
Proof.
  intros Hsz. unfold write_node. destruct (Nat.ltb_spec sz (length ns)) as [Hlt|Hge].
  - rewrite length_insert. split; [exact Hlt|].
    split; [now apply list_lookup_insert_eq|].
    split; [intros i Hi; apply list_lookup_insert_ne; lia|].
    rewrite (take_S_r _ _ v) by now apply list_lookup_insert_eq.
    now rewrite take_insert_ge by lia.
  - assert (sz = length ns) as -> by lia.
    rewrite length_app. simpl. split; [lia|].
    split; [apply list_lookup_middle; reflexivity|].
    split; [intros i Hi; now apply lookup_app_l|].
    rewrite firstn_all.
    rewrite take_ge by (rewrite length_app; simpl; lia). reflexivity.
Qed.

Lemma key_at_ext ns ns' (i : nat) : ns !! i = ns' !! i -> key_at ns i = key_at ns' i.
Proof. unfold key_at. now intros ->. Qed.

Lemma binary_heap_push_spec (H : BinaryHeap A) x k :
  heap_inv H ->
  heap_inv (binary_heap_push H x k) /\
  stored (binary_heap_push H x k) ≡ₚ mk_heap_node x k :: stored H.
Proof.
  intros (Ht & Hsz & Hord). unfold binary_heap_push, stored, sift_up, heap_inv.
  cbn [nodes size type]. rewrite Ht.
  destruct (write_node_spec (nodes H) (size H) (mk_heap_node x k) Hsz)
    as (Hlen & Hnew & Hold & Htake).
  set (ns1 := write_node (nodes H) (size H) (mk_heap_node x k)) in *.
  destruct (sift_up_loop_spec (S (size H)) ns1 (size H) (S (size H)))
    as (Hlen' & Hord' & Hperm); try lia.
  - intros i Hi. split.
    + intros Hne. unfold ordered_at.
      assert (Hpi : (index_of_parent i < i)%nat) by (apply index_of_parent_lt; lia).
      rewrite (key_at_ext ns1 (nodes H) i) by (apply Hold; lia).
      rewrite (key_at_ext ns1 (nodes H) (index_of_parent i)) by (apply Hold; lia).
      apply Hord. lia.
    + intros Hp _. destruct (index_of_parent_inv i) as [E|E]; [lia| |];
        rewrite Hp in E; unfold index_of_left_child, index_of_right_child in E; lia.
  - split.
    + split; [reflexivity|]. split; [rewrite Hlen'; lia | exact Hord'].
    + rewrite Hperm, Htake. symmetry. apply Permutation_cons_append.
Qed.

Lemma binary_heap_pop_spec (H : BinaryHeap A) :
  heap_inv H -> (0 < size H)%nat ->
  exists first H',
    binary_heap_pop H = Some (data first, H') /\
    nodes H !! 0%nat = Some first /\
    (forall n, n ∈ stored H -> key n <= key first) /\
    heap_inv H' /\
    stored H ≡ₚ first :: stored H'.
Proof.
  intros (Ht & Hsz & Hord) Hpos. unfold binary_heap_pop.
  destruct (Nat.eqb_spec (size H) 0%nat); [lia|].
  destruct (lookup_lt_is_Some_2 (nodes H) 0%nat) as [first Hfirst]; [lia|].
  destruct (lookup_lt_is_Some_2 (nodes H) (size H - 1)) as [last Hlast]; [lia|].
  rewrite Hfirst, Hlast. eexists first, _. split; [reflexivity|].
  split; [reflexivity|]. split.
  { intros m Hm. unfold stored in Hm.
    apply list_elem_of_lookup in Hm as [i Hi].
    apply lookup_take_Some in Hi as [Hi Hlt].
    pose proof (heap_ordered_root_max _ _ i Hord Hlt) as Hmax.
    unfold key_at in Hmax. now rewrite Hi, Hfirst in Hmax. }
  unfold stored, sift_down, heap_inv. cbn [nodes size type]. rewrite Ht.
  set (sz := (size H - 1)%nat).
  set (ns1 := <[0%nat := last]> (nodes H)).
  assert (Hlen1 : length ns1 = length (nodes H)) by apply length_insert.
  assert (Hk0 : key_at ns1 0 = key last).
  { unfold key_at, ns1. now rewrite list_lookup_insert_eq by lia. }
  assert (Hother : forall i : nat, (0 < i)%nat -> ns1 !! i = nodes H !! i).
  { intros i Hi. apply list_lookup_insert_ne. lia. }
  destruct (sift_down_loop_spec (S sz) ns1 0%nat sz) as (Hlen & Hord' & Hperm);
    try lia.
  - rewrite Hk0. destruct (Nat.eq_dec sz 0%nat) as [E|E].
    + rewrite E, Hk0. apply Qle_refl.
    + unfold key_at. rewrite Hother by lia. fold sz in Hlast.
      rewrite Hlast. apply Qle_refl.
  - intros i Hi. split; [|lia]. intros Hp. unfold ordered_at.
    assert (Hpi : (index_of_parent i < i)%nat) by (apply index_of_parent_lt; lia).
    rewrite (key_at_ext ns1 (nodes H) i) by (apply Hother; lia).
    rewrite (key_at_ext ns1 (nodes H) (index_of_parent i)) by (apply Hother; lia).
    apply Hord. lia.
  - split.
    + split; [reflexivity|]. split; [rewrite Hlen; lia | exact Hord'].
    + rewrite Hperm.
      replace (size H) with (S sz) by lia.
      rewrite (take_S_r _ _ last) by exact Hlast.
      destruct (Nat.eq_dec sz 0%nat) as [E|E].
      * assert (Hz : (size H - 1)%nat = 0%nat) by exact E.
        rewrite Hz in Hlast. assert (first = last) as -> by congruence.
        rewrite E. reflexivity.
      * unfold ns1. destruct (nodes H) as [|n0 rest] eqn:En; [simpl in Hsz; lia|].
        simpl in Hfirst. injection Hfirst as ->.
        destruct sz as [|sz']; [lia|]. simpl.
        f_equiv. symmetry. apply Permutation_cons_append.
Qed.

End BinaryHeapFacts.

(** Priority queues obtained from the empty queue by pushes and pops. *)
Inductive pq_reachable {A : Type} : PriorityQueue A -> Prop :=
| pq_reachable_create : pq_reachable priority_queue_create
| pq_reachable_push P x priority :
    pq_reachable P -> pq_reachable (priority_queue_push P x priority)
| pq_reachable_pop P x P' :
    pq_reachable P -> priority_queue_pop P = Some (x, P') -> pq_reachable P'.

Lemma pq_reachable_heap_inv {A : Type} (P : PriorityQueue A) :
  pq_reachable P -> heap_inv (heap P).
Proof.
  induction 1 as [|P x k HP IH|P x P' HP IH Hpop].
  - split; [reflexivity|]. split; [simpl; lia|]. intros i Hi. simpl in Hi. lia.
  - apply binary_heap_push_spec, IH.
  - unfold priority_queue_pop in Hpop.
    destruct (binary_heap_pop (heap P)) as [[y H']|] eqn:E; [|discriminate].
    injection Hpop as _ <-. simpl.
    destruct (size (heap P)) as [|s] eqn:Es.
    + unfold binary_heap_pop in E. now rewrite Es in E.
    + destruct (binary_heap_pop_spec (heap P) IH) as (f & H'' & E' & _ & _ & Hinv & _);
        [lia|]. rewrite E in E'. now injection E' as _ ->.
Qed.

(** C9, as stated, fails in its FIFO part: three elements pushed with the
    same priority in the order a, b, c are popped in the order a, c, b. *)
Lemma priority_queue_not_fifo :
  let Q0 : PriorityQueue string := priority_queue_create in
  let Q3 := priority_queue_push
              (priority_queue_push (priority_queue_push Q0 "a"%string 1) "b"%string 1)
              "c"%string 1 in
  exists Q2 Q1,
    priority_queue_pop Q3 = Some ("a"%string, Q2) /\
    priority_queue_pop Q2 = Some ("c"%string, Q1) /\
    fst <$> priority_queue_pop Q1 = Some "b"%string.
Proof. cbv zeta. eexists _, _. vm_compute. repeat split. Qed.

(** C9 (amended): on every priority queue obtained from the empty queue by
    pushes and pops, with priorities that are numbers (the keys of the
    embedding; a NaN priority is left out), a push adds exactly the pushed
    element, and a pop of a non-empty queue returns an element whose
    priority is maximal among the elements currently stored and removes
    exactly that element.  Elements of equal priority are not popped in FIFO
    order. *)
Theorem priority_queue_pop_max {A : Type} (P : PriorityQueue A) :
  pq_reachable P ->
  (forall y q, stored (heap (priority_queue_push P y q))
               ≡ₚ mk_heap_node y q :: stored (heap P)) /\
  (priority_queue_is_empty P = false ->
   exists x P',
     priority_queue_pop P = Some (x, P') /\
     (forall n, n ∈ stored (heap P) -> key n <= priority_queue_get_max_priority P) /\
     stored (heap P)
       ≡ₚ mk_heap_node x (priority_queue_get_max_priority P) :: stored (heap P')).
Proof.
  intros HP. pose proof (pq_reachable_heap_inv P HP) as Hinv. split.
  - intros y q. now apply binary_heap_push_spec.
  - intros Hne. unfold priority_queue_is_empty, binary_heap_is_empty in Hne.
    apply Nat.eqb_neq in Hne.
    destruct (binary_heap_pop_spec (heap P) Hinv)
      as (first & H' & Hpop & Hfirst & Hmax & _ & Hperm); [lia|].
    exists (data first), {| heap := H' |}.
    unfold priority_queue_pop, priority_queue_get_max_priority,
      binary_heap_get_next_key, key_at.
    rewrite Hpop, Hfirst. split; [reflexivity|]. split; [exact Hmax|].
    simpl. now destruct first.
Qed.

Lemma priority_queue_pop_max_witness :
  let P : PriorityQueue string :=
    priority_queue_push
      (priority_queue_push priority_queue_create "a"%string 1) "b"%string 2 in
  pq_reachable P /\ priority_queue_is_empty P = false /\
  exists x P',
    priority_queue_pop P = Some (x, P') /\
    (forall n, n ∈ stored (heap P) -> key n <= priority_queue_get_max_priority P) /\
    stored (heap P)
      ≡ₚ mk_heap_node x (priority_queue_get_max_priority P) :: stored (heap P').
Proof.
  cbv zeta.
  assert (R : pq_reachable
    (priority_queue_push (priority_queue_push priority_queue_create "a"%string 1)
       "b"%string 2)).
  { apply pq_reachable_push, pq_reachable_push, pq_reachable_create. }
  split; [exact R|]. split; [reflexivity|].
  exact (proj2 (priority_queue_pop_max _ R) eq_refl).
Defined.

(** ** Tier adjustment *)

(** The features of group [g]. *)
Definition group_members (tier : Tier) (g : nat) : list nat :=
  filter (fun j => tiers tier !!! j = g) (seq 0 (tier_size tier)).

(** Sum of a bound over the features of a list. *)
Definition bound_sum (f : Interval -> Q) (x : Hyperrectangle) (js : list nat) : Q :=
  fold_right (fun j acc => f (x !!! j) + acc) 0 js.

(** The one-hot invariant of group [g]: the interval sum of its features is
    contained in [[0, 1]] and at most one feature has a positive lower
    bound. *)
Definition tier_ok (x : Hyperrectangle) (tier : Tier) (g : nat) : Prop :=
  0 <= bound_sum l x (group_members tier g) /\
  bound_sum u x (group_members tier g) <= 1 /\
  forall j1 j2 : nat, j1 ∈ group_members tier g -> j2 ∈ group_members tier g ->
    0 < l (x !!! j1) -> 0 < l (x !!! j2) -> j1 = j2.

Definition tier_preserved (x : Hyperrectangle) (tier : Tier) : Prop :=
  forall g : nat, g <> 0%nat -> tier_ok x tier g.

Definition within_unit (x : Interval) : Prop := 0 <= l x /\ u x <= 1.

Lemma elem_of_group_members tier g (j : nat) :
  j ∈ group_members tier g <-> (j < tier_size tier)%nat /\ tiers tier !!! j = g.
Proof.
  unfold group_members. rewrite list_elem_of_filter, elem_of_seq. intuition lia.
Qed.

Lemma bound_sum_ext f (x x' : Hyperrectangle) js :
  (forall j : nat, j ∈ js -> x' !!! j = x !!! j) -> bound_sum f x' js = bound_sum f x js.
Proof.
  induction js as [|j js IH]; intros H; [reflexivity|]. simpl.
  rewrite H by left. rewrite IH; [reflexivity|]. intros k Hk. apply H. now right.
Qed.

Lemma bound_sum_one_hot f (x : Hyperrectangle) js (i : nat) :
  NoDup js -> i ∈ js -> f (x !!! i) == 1 ->
  (forall j : nat, j ∈ js -> j <> i -> f (x !!! j) == 0) ->
  bound_sum f x js == 1.
Proof.
  induction js as [|j js IH]; intros Hnd Hi H1 H0.
  - now apply elem_of_nil in Hi.
  - apply NoDup_cons in Hnd as [Hj Hnd]. simpl.
    apply elem_of_cons in Hi as [->|Hi].
    + rewrite H1. 
      assert (bound_sum f x js == 0) as ->; [|lra].
      clear IH H1. induction js as [|k js IH]; [reflexivity|]. simpl.
      apply not_elem_of_cons in Hj as [Hjk Hj]. apply NoDup_cons in Hnd as [_ Hnd].
      rewrite H0; [| right; left | congruence].
      rewrite IH; [lra | assumption | assumption |].
      intros m Hm Hne. apply H0; [|exact Hne].
      apply elem_of_cons in Hm as [->|Hm]; [left | right; now right].
    + rewrite H0; [| left | intros ->; contradiction].
      rewrite IH; [lra | assumption | assumption | assumption |].
      intros k Hk. apply H0. now right.
Qed.

Lemma adjust_tier_untiered x tier i b :
  tiers tier !!! i = 0%nat -> adjust_tier x tier i b = x.
Proof. intros H. unfold adjust_tier. now rewrite H. Qed.

Definition activate_body (tier : Tier) (i group : nat) (j : nat)
    (x : Hyperrectangle) : Hyperrectangle :=
  if negb (j =? i)%nat && (tiers tier !!! j =? group)%nat
  then <[j := interval_zero]> x else x.

Lemma activate_loop_spec tier (i group : nat) (x : Hyperrectangle) (n : nat) :
  length (for_loop n (activate_body tier i group) x) = length x /\
  forall j : nat, (j < length x)%nat ->
    for_loop n (activate_body tier i group) x !!! j =
    if decide ((j < n)%nat /\ j <> i /\ tiers tier !!! j = group)
    then interval_zero else x !!! j.
Proof.
  induction n as [|n [IHlen IH]].
  - split; [reflexivity|]. intros j Hj.
    destruct (decide _) as [[? _]|]; [lia | reflexivity].
  - rewrite for_loop_S. unfold activate_body at 1 3.
    destruct (Nat.eqb_spec n i) as [Eni|Eni]; simpl.
    + split; [exact IHlen|]. intros j Hj. rewrite IH by exact Hj.
      repeat destruct (decide _); try reflexivity; exfalso; intuition lia.
    + destruct (Nat.eqb_spec (tiers tier !!! n) group) as [Eg|Eg].
      * split; [now rewrite length_insert|]. intros j Hj.
        destruct (decide (j = n)) as [->|Hjn].
        -- rewrite list_lookup_total_insert_eq by lia.
           destruct (decide _); [reflexivity | exfalso; intuition lia].
        -- rewrite list_lookup_total_insert_ne by congruence. rewrite IH by exact Hj.
           repeat destruct (decide _); try reflexivity; exfalso; intuition lia.
      * split; [exact IHlen|]. intros j Hj. rewrite IH by exact Hj.
        destruct (decide (j = n)) as [->|Hjn].
        -- repeat destruct (decide _); try reflexivity; exfalso; intuition lia.
        -- repeat destruct (decide _); try reflexivity; exfalso; intuition lia.
Qed.

Lemma adjust_tier_active_lookup x tier (i : nat) :
  (i < length x)%nat -> tiers tier !!! i <> 0%nat ->
  length (adjust_tier x tier i true) = length x /\
  forall j : nat, (j < length x)%nat ->
    adjust_tier x tier i true !!! j =
    if decide (j = i) then interval_one
    else if decide ((j < tier_size tier)%nat /\ tiers tier !!! j = tiers tier !!! i)
         then interval_zero else x !!! j.
Proof.
  intros Hi Hg. unfold adjust_tier.
  destruct (Nat.eqb_spec (tiers tier !!! i) 0%nat); [contradiction|].
  fold (activate_body tier i (tiers tier !!! i)).
  destruct (activate_loop_spec tier i (tiers tier !!! i)
              (<[i := interval_one]> x) (tier_size tier)) as [Hlen Hget].
  rewrite length_insert in Hlen, Hget. split; [exact Hlen|].
  intros j Hj. rewrite Hget by exact Hj.
  destruct (decide (j = i)) as [->|Hji].
  - destruct (decide _) as [(_ & ? & _)|]; [congruence|].
    now apply list_lookup_total_insert_eq.
  - rewrite list_lookup_total_insert_ne by congruence.
    repeat destruct (decide _); try reflexivity; exfalso; intuition lia.
Qed.

(** C6, as stated, fails: the adjustment only touches the group of the
    adjusted feature, so a group that violates the one-hot invariant before
    still violates it afterwards, although every component lies within
    [[0, 1]]. *)
Lemma adjust_tier_not_preserving :
  let x := [ {| l := 0; u := 1 |}; {| l := 1 # 2; u := 1 |}; {| l := 1 # 2; u := 1 |} ] in
  let tier := {| tiers := [1; 2; 2]%nat; tier_size := 3 |} in
  Forall within_unit x /\
  adjust_tier x tier 0 true
    = [ {| l := 1; u := 1 |}; {| l := 1 # 2; u := 1 |}; {| l := 1 # 2; u := 1 |} ] /\
  ~ tier_preserved (adjust_tier x tier 0 true) tier.
Proof.
  cbv zeta. split; [|split; [reflexivity|]].
  - repeat constructor; simpl; lra.
  - intros H. destruct (H 2%nat) as (_ & Hu & _); [lia|].
    vm_compute in Hu. now apply Hu.
Qed.

(** C6 (amended): a feature in no tier leaves the hyperrectangle unchanged;
    turning on a feature [i] of group [g] sets feature [i] to [[1, 1]] and
    every other feature of [g] to [[0, 0]], leaves the features of the other
    groups unchanged, establishes the one-hot invariant for [g] and
    preserves it for every other group that satisfied it. *)
Theorem adjust_tier_activate_one_hot (x : Hyperrectangle) (tier : Tier) (i : nat) :
  tier_size tier = length x -> (i < length x)%nat ->
  (tiers tier !!! i = 0%nat -> forall b, adjust_tier x tier i b = x) /\
  (tiers tier !!! i <> 0%nat ->
     length (adjust_tier x tier i true) = length x /\
     adjust_tier x tier i true !!! i = interval_one /\
     (forall j : nat, j ∈ group_members tier (tiers tier !!! i) -> j <> i ->
        adjust_tier x tier i true !!! j = interval_zero) /\
     (forall j : nat, (j < length x)%nat -> tiers tier !!! j <> tiers tier !!! i ->
        adjust_tier x tier i true !!! j = x !!! j) /\
     tier_ok (adjust_tier x tier i true) tier (tiers tier !!! i) /\
     (forall g : nat, g <> tiers tier !!! i -> tier_ok x tier g ->
        tier_ok (adjust_tier x tier i true) tier g)).
Proof.
  intros Hsize Hi. split; [intros H b; now apply adjust_tier_untiered|].
  intros Hg. destruct (adjust_tier_active_lookup x tier i Hi Hg) as [Hlen Hget].
  set (x' := adjust_tier x tier i true) in *.
  assert (Hon : x' !!! i = interval_one).
  { rewrite Hget by exact Hi. destruct (decide (i = i)); [reflexivity | congruence]. }
  assert (Hoff : forall j : nat, j ∈ group_members tier (tiers tier !!! i) -> j <> i ->
                   x' !!! j = interval_zero).
  { intros j Hj Hne. apply elem_of_group_members in Hj as [Hj Hjg].
    rewrite Hget by lia. destruct (decide (j = i)); [contradiction|].
    destruct (decide _) as [|Hn]; [reflexivity | exfalso; apply Hn; split; assumption]. }
  assert (Hsame : forall j : nat, (j < length x)%nat ->
                    tiers tier !!! j <> tiers tier !!! i -> x' !!! j = x !!! j).
  { intros j Hj Hne. rewrite Hget by exact Hj.
    destruct (decide (j = i)) as [->|]; [congruence|].
    destruct (decide _) as [[_ ?]|]; [contradiction | reflexivity]. }
  split; [exact Hlen|]. split; [exact Hon|]. split; [exact Hoff|].
  split; [exact Hsame|]. split.
  - assert (Hnd : NoDup (group_members tier (tiers tier !!! i))).
    { apply NoDup_filter, NoDup_seq. }
    assert (Him : i ∈ group_members tier (tiers tier !!! i)).
    { apply elem_of_group_members. split; [lia | reflexivity]. }
    assert (Sl : bound_sum l x' (group_members tier (tiers tier !!! i)) == 1).
    { apply (bound_sum_one_hot l x' _ i Hnd Him).
      - now rewrite Hon.
      - intros j Hj Hne. now rewrite Hoff. }
    assert (Su : bound_sum u x' (group_members tier (tiers tier !!! i)) == 1).
    { apply (bound_sum_one_hot u x' _ i Hnd Him).
      - now rewrite Hon.
      - intros j Hj Hne. now rewrite Hoff. }
    split; [lra|]. split; [lra|].
    intros j1 j2 Hj1 Hj2 H1 H2.
    destruct (decide (j1 = i)) as [->|N1]; destruct (decide (j2 = i)) as [->|N2];
      try reflexivity; exfalso.
    + rewrite (Hoff j2 Hj2 N2) in H2. simpl in H2. lra.
    + rewrite (Hoff j1 Hj1 N1) in H1. simpl in H1. lra.
    + rewrite (Hoff j1 Hj1 N1) in H1. simpl in H1. lra.
  - intros g Hne (Hl & Hu & Hone).
    assert (Hext : forall j : nat, j ∈ group_members tier g -> x' !!! j = x !!! j).
    { intros j Hj. apply elem_of_group_members in Hj as [Hj Hjg].
      apply Hsame; [lia | congruence]. }
    split; [|split].
    + now rewrite (bound_sum_ext l x x' _ Hext).
    + now rewrite (bound_sum_ext u x x' _ Hext).
    + intros j1 j2 Hj1 Hj2. rewrite (Hext j1 Hj1), (Hext j2 Hj2). now apply Hone.
Qed.

Lemma adjust_tier_activate_one_hot_witness :
  let x := [ {| l := 0; u := 1 |}; {| l := 0; u := 1 |}; {| l := 1 # 4; u := 1 # 2 |} ] in
  let tier := {| tiers := [1; 1; 0]%nat; tier_size := 3 |} in
  tier_size tier = length x /\ (0 < length x)%nat /\ tiers tier !!! 0%nat <> 0%nat /\
  tier_ok (adjust_tier x tier 0 true) tier (tiers tier !!! 0%nat).
Proof.
  cbv zeta. split; [reflexivity|]. split; [simpl; lia|]. split; [simpl; lia|].
  refine (proj1 (proj2 (proj2 (proj2 (proj2 (proj2
    (adjust_tier_activate_one_hot
       [ {| l := 0; u := 1 |}; {| l := 0; u := 1 |}; {| l := 1 # 4; u := 1 # 2 |} ]
       {| tiers := [1; 1; 0]%nat; tier_size := 3 |} 0%nat _ _) _)))))).
  - reflexivity.
  - simpl; lia.
  - simpl; lia.
Defined.

(** Turning a feature off does not follow the intended rule (the remaining
    feature is forced on before the scan of the group is complete): here
    feature 0 is forced to [[1, 1]] although feature 1 is still [[0, 1]]. *)
Example adjust_tier_off_premature :
  adjust_tier [ {| l := 0; u := 1 |}; {| l := 0; u := 1 |}; {| l := 0; u := 1 |} ]
    {| tiers := [1; 1; 1]%nat; tier_size := 3 |} 2 false
  = [ {| l := 1; u := 1 |}; {| l := 0; u := 1 |}; {| l := 0; u := 0 |} ].
Proof. reflexivity. Qed.

(** ** Decision trees: concrete walks and reachable leaves *)

(** A point of a hyperrectangle. *)
Definition in_hyperrectangle (x : list Real) (H : Hyperrectangle) : Prop :=
  length x = length H /\
  forall i : nat, (i < length H)%nat -> in_interval (x !!! i) (H !!! i).

(** Every split tests a feature of the feature space of size [n]. *)
Fixpoint node_wf (n : nat) (N : Node) : Prop :=
  match N with
  | Split i _ lc rc => (i < n)%nat /\ node_wf n lc /\ node_wf n rc
  | _ => True
  end.



(** The leaves enumerated below a node, as a structural recursion (the
    right child is popped first). *)
Fixpoint reach (N : Node) (ctx : list Frame) (H : Hyperrectangle) :
    list DecisionTreeNode :=
  match N with
  | Split i k lc rc =>
      (if Qgtb (u (H !!! i)) k then reach rc (mk_frame RightSide i k lc :: ctx) H else [])
      ++ (if Qleb (l (H !!! i)) k then reach lc (mk_frame LeftSide i k rc :: ctx) H else [])
  | _ => [ {| here := N; up := ctx |} ]
  end.

Definition stack_weight (stack : list DecisionTreeNode) : nat :=
  fold_right (fun n acc => (node_count (here n) + acc)%nat) 0%nat stack.

Lemma node_count_pos N : (0 < node_count N)%nat.
Proof. destruct N; simpl; lia. Qed.

Lemma reachable_leaves_loop_spec fuel stack L H :
  (stack_weight stack <= fuel)%nat ->
  reachable_leaves_loop fuel stack L H
  = L ++ flat_map (fun n => reach (here n) (up n) H) stack.
Proof.
  revert stack L. induction fuel as [|fuel IH]; intros stack L Hw.
  - destruct stack as [|n stack]; simpl; [now rewrite app_nil_r|].
    simpl in Hw. pose proof (node_count_pos (here n)). lia.
  - destruct stack as [|[N ctx] stack]; simpl; [now rewrite app_nil_r|].
    simpl in Hw. destruct N as [sc ms ns|sc w|i k lc rc]; simpl in *.
    + rewrite IH by lia. now rewrite <- app_assoc.
    + rewrite IH by lia. now rewrite <- app_assoc.
    + rewrite IH.
      * f_equal. destruct (Qgtb (u (H !!! i)) k), (Qleb (l (H !!! i)) k); simpl;
          rewrite ?app_nil_r, <- ?app_assoc; reflexivity.
      * destruct (Qgtb (u (H !!! i)) k), (Qleb (l (H !!! i)) k); simpl; lia.
Qed.

Lemma reachable_leaves_reach T H :
  reachable_leaves T H = reach (root T) [] H.
Proof.
  unfold reachable_leaves. rewrite reachable_leaves_loop_spec.
  - simpl. now rewrite app_nil_r.
  - simpl. lia.
Qed.

Lemma walk_in_reach (n : nat) N ctx (x : list Real) H :
  node_wf n N -> n = length H -> in_hyperrectangle x H ->
  decision_tree_walk N ctx x ∈ reach N ctx H.
Proof.
  intros Hwf -> [_ Hin]. revert ctx. induction N as [| |i k lc IHl rc IHr]; intros ctx;
    simpl; try (apply list_elem_of_singleton; reflexivity).
  destruct Hwf as (Hi & Hwl & Hwr). destruct (Hin i Hi) as [Hlo Hhi].
  apply elem_of_app.
  destruct (Qleb (x !!! i) k) eqn:E; [apply Qleb_le in E | apply Qleb_gt in E].
  - right. assert (Qleb (l (H !!! i)) k = true) as -> by (apply Qleb_le; lra).
    now apply IHl.
  - left. assert (Qgtb (u (H !!! i)) k = true) as -> by (apply Qgtb_gt; lra).
    now apply IHr.
Qed.

(** C5 (reachable-leaf completeness): the leaf reached by the concrete walk
    of a point of [H] is enumerated by [reachable_leaves T H]. *)
Theorem reachable_leaves_complete (T : DecisionTree) (H : Hyperrectangle)
    (x : list Real) (leaf : DecisionTreeNode) :
  node_wf (length H) (root T) ->
  in_hyperrectangle x H ->
  decision_tree_walk (root T) [] x = leaf ->
  leaf ∈ reachable_leaves T H.
Proof.
  intros Hwf Hin <-. rewrite reachable_leaves_reach.
  now apply (walk_in_reach (length H)).
Qed.

(** Small inputs used as running examples: the decision stump of the
    specification, with labels A and B, and the unit box. *)
Definition leaf_A : Node := decision_tree_leaf_create [10; 0]%Z.
Definition leaf_B : Node := decision_tree_leaf_create [0; 10]%Z.

Definition stump : DecisionTree :=
  {| root := Split 0 (1 # 2) leaf_A leaf_B;
     space_size := 1; labels := ["A"; "B"]%string; n_labels := 2 |}.

Definition unit_box : Hyperrectangle := [ {| l := 0; u := 1 |} ].

Lemma unit_box_point (a : Q) : 0 <= a <= 1 -> in_hyperrectangle [a] unit_box.
Proof.
  intros Ha. split; [reflexivity|]. intros i Hi. simpl in Hi.
  assert (i = 0%nat) as -> by lia. split; simpl; lra.
Qed.

Lemma reachable_leaves_complete_witness :
  node_wf (length unit_box) (root stump) /\ in_hyperrectangle [3 # 4] unit_box /\
  decision_tree_walk (root stump) [] [3 # 4] ∈ reachable_leaves stump unit_box.
Proof.
  assert (W : node_wf (length unit_box) (root stump)).
  { simpl. split; [lia | split; exact I]. }
  assert (P : in_hyperrectangle [3 # 4] unit_box) by (apply unit_box_point; lra).
  split; [exact W|]. split; [exact P|].
  exact (reachable_leaves_complete stump unit_box [3 # 4] _ W P eq_refl).
Defined.













(** ** The single-tree verifier *)

Lemma compute_reachable_paths_weight x n :
  (stack_weight (compute_reachable_paths x n) < node_count (here n))%nat.
Proof.
  unfold compute_reachable_paths. destruct (here n) as [| |i k lc rc]; simpl; try lia.
  destruct (Qleb (l (x !!! i)) k), (Qgtb (u (x !!! i)) k); simpl; lia.
Qed.

Lemma stack_weight_app s1 s2 :
  stack_weight (s1 ++ s2) = (stack_weight s1 + stack_weight s2)%nat.
Proof. induction s1 as [|n s1 IH]; simpl; [reflexivity | rewrite IH; lia]. Qed.

Lemma depth_first_search_total fuel is_goal x stack :
  (stack_weight stack < fuel)%nat ->
  exists goal, depth_first_search fuel is_goal (compute_reachable_paths x) stack = Some goal.
Proof.
  revert stack. induction fuel as [|fuel IH]; intros stack Hw; [lia|].
  destruct stack as [|n stack]; simpl; [now eexists|].
  destruct (is_goal n); [now eexists|].
  apply IH. rewrite stack_weight_app. simpl in Hw.
  pose proof (compute_reachable_paths_weight x n). lia.
Qed.

Definition set_timeout (t : Z) (st : StabilityStatus) : StabilityStatus :=
  {| result := result st; has_sample := has_sample st; sample_a := sample_a st;
     sample_b := sample_b st; labels_a := labels_a st; timeout := t |}.

(** C10: with fuel for one iteration per node of the tree (plus the final
    test of the empty stack) the single-tree verifier returns, its result is
    [STABILITY_TRUE] or [STABILITY_FALSE], never [STABILITY_DONT_KNOW], and
    the result does not depend on the timeout of the status. *)
Theorem decision_tree_hyperrectangle_is_stable_decides
    (fuel : nat) (status : StabilityStatus) (T : DecisionTree) (x : Hyperrectangle) :
  (node_count (root T) < fuel)%nat ->
  (exists status',
     decision_tree_hyperrectangle_is_stable fuel status T x = Some status' /\
     (result status' = STABILITY_TRUE \/ result status' = STABILITY_FALSE)) /\
  (forall t : Z,
     result <$> decision_tree_hyperrectangle_is_stable fuel (set_timeout t status) T x
     = result <$> decision_tree_hyperrectangle_is_stable fuel status T x).
Proof.
  intros Hfuel. split.
  - unfold decision_tree_hyperrectangle_is_stable, search_counterexample.
    match goal with
    | |- context [depth_first_search fuel ?g ?adj ?s] =>
        destruct (depth_first_search_total fuel g x s) as [goal Hgoal];
          [simpl; lia | rewrite Hgoal]
    end.
    destruct goal as [leaf|]; eexists; (split; [reflexivity|]);
      destruct (has_sample status); simpl; auto.
  - intros t. unfold decision_tree_hyperrectangle_is_stable, search_counterexample.
    destruct status as [r hs sa sb la tmo]. simpl.
    destruct hs; simpl;
      match goal with
      | |- context [depth_first_search ?f ?g ?adj ?s] =>
          destruct (depth_first_search f g adj s) as [[leaf|]|]
      end; simpl; reflexivity.
Qed.

Definition initial_status : StabilityStatus :=
  {| result := STABILITY_DONT_KNOW; has_sample := false; sample_a := [];
     sample_b := []; labels_a := []; timeout := 1 |}.

Lemma decision_tree_hyperrectangle_is_stable_decides_witness :
  (node_count (root stump) < 4)%nat /\
  exists status',
    decision_tree_hyperrectangle_is_stable 4 initial_status stump unit_box = Some status' /\
    (result status' = STABILITY_TRUE \/ result status' = STABILITY_FALSE).
Proof.
  assert (F : (node_count (root stump) < 4)%nat) by (simpl; lia).
  split; [exact F|].
  exact (proj1 (decision_tree_hyperrectangle_is_stable_decides 4 initial_status
                  stump unit_box F)).
Defined.

(** The tree of the failing input of C2: the leaf B is reached exactly by
    the points with [11/20 < x_0 <= 3/5]. *)
Definition nested_split : DecisionTree :=
  {| root := Split 0 (3 # 5) (Split 0 (11 # 20) leaf_A leaf_B) leaf_A;
     space_size := 1; labels := ["A"; "B"]%string; n_labels := 2 |}.

(** C2 fails on the single-tree verifier: on [nested_split] and the unit
    box the reference sample is the midpoint [1/2], labelled A; the verdict
    is UNSTABLE, but the witness is [4/5], the midpoint of the empty
    interval [[1, 3/5]] produced by [leaf_to_hyperrectangle], and [4/5] is
    labelled A as well. *)
Theorem decision_tree_witness_not_a_counterexample :
  exists status',
    decision_tree_hyperrectangle_is_stable 6 initial_status nested_split unit_box
      = Some status' /\
    result status' = STABILITY_FALSE /\
    labels_a status' = ["A"%string] /\
    Forall2 Qeq (sample_b status') [4 # 5] /\
    decision_tree_classify nested_split (sample_b status') = labels_a status'.
Proof.
  eexists. split; [vm_compute; reflexivity|]. simpl.
  split; [reflexivity|]. split; [reflexivity|]. split.
  - constructor; [reflexivity | constructor].
  - reflexivity.
Qed.

(** ** The priority of the outer search *)

(** The priority as the specification words it, from the label set of the
    decorator. *)
Definition priority_formula (h : HyperrectangleDecorator) (reference : LabelSet)
    (K : nat) : Q :=
  - (1000000 * hyperrectangle_volume (d_x h))
  + 1 * depth_to_R (decorator_get_depth h)
  + (Z2R (Z.of_nat (length (d_labels h)))
     - Z2R (Z.of_nat (length (set_intersection (d_labels h) reference))))
    / Z2R (Z.of_nat K).

(** What [compute_priority] returns while the scratch set [local_labels]
    is empty, which it is throughout an analysis. *)
Lemma compute_priority_empty_local h data :
  a_local_labels data = [] ->
  fst (compute_priority h data)
  == - (1000000 * hyperrectangle_volume (d_x h)) + depth_to_R (decorator_get_depth h) /\
  a_local_labels (snd (compute_priority h data)) = [].
Proof.
  intros E. unfold compute_priority. rewrite E. simpl. split; [|reflexivity].
  unfold Qdiv, Z2R. simpl. ring.
Qed.

(** A forest of two stumps on two different features, MAX voting. *)
Definition stump_on (i : nat) : DecisionTree :=
  {| root := Split i (1 # 2) leaf_A leaf_B;
     space_size := 2; labels := ["A"; "B"]%string; n_labels := 2 |}.

Definition two_features : Forest :=
  {| voting_scheme := FOREST_VOTING_MAX;
     trees := [ stump_on 0; stump_on 1 ]; n_trees := 2 |}.

Definition two_features_box : Hyperrectangle :=
  [ {| l := 0; u := 1 # 4 |}; {| l := 0; u := 1 |} ].

Definition untiered (n : nat) : Tier := {| tiers := replicate n 0%nat; tier_size := n |}.

Definition two_features_data : analysis_data :=
  {| a_status := set_sample_a [0; 0] ["A"%string] initial_status;
     a_F := two_features; a_start_time := 0; a_timeout := 1;
     a_internal_status := DONT_KNOW;
     a_labels := forest_get_labels_as_array two_features;
     a_n_labels := forest_get_n_labels two_features;
     a_n_trees := forest_get_n_trees two_features;
     a_local_labels := []; a_tier := untiered 2; a_clock := 1 |}.


(** C7 fails on the code: the decorator [h] below is produced by the
    refinement of the initial region of [two_features] and enqueued by the
    outer search; its label set is {A, B} and the reference label set is
    {A}, so the formula of the claim has the third term 1/2, but
    [compute_priority] reads the empty scratch set [local_labels] instead of
    the labels of the decorator and returns the priority without that
    term. *)
Theorem compute_priority_ignores_decorator_labels (exp : Q -> Q) :
  exists h data,
    refine exp 10 (mk_decorator two_features_box None None []) two_features_data
      = Some ([h], data) /\
    d_labels h = ["A"; "B"]%string /\
    labels_a (a_status data) = ["A"%string] /\
    a_n_labels data = 2%nat /\
    fst (compute_priority h data)
      == - (1000000 * hyperrectangle_volume (d_x h))
         + depth_to_R (decorator_get_depth h) /\
    priority_formula h (labels_a (a_status data)) (a_n_labels data)
      == fst (compute_priority h data) + (1 # 2).
Proof.
  eexists _, _. split; [vm_compute; reflexivity|].
  split; [reflexivity|]. split; [reflexivity|]. split; [reflexivity|].
  split; vm_compute; reflexivity.
Qed.

(** ** Soundness of the forest verifier *)

(** *** Loops that update an array index by index *)

(** [body j] rewrites cell [j] with [g j] of its old value and leaves the
    other cells alone. *)
Definition pointwise {A : Type} `{Inhabited A}
    (body : nat -> list A -> list A) (g : nat -> A -> A) : Prop :=
  forall (j : nat) (s : list A),
    length (body j s) = length s /\
    ((j < length s)%nat -> body j s !!! j = g j (s !!! j)) /\
    (forall i : nat, i <> j -> body j s !!! i = s !!! i).

Lemma for_loop_pointwise {A : Type} `{Inhabited A}
    (body : nat -> list A -> list A) (g : nat -> A -> A) (n : nat) (s : list A) :
  pointwise body g ->
  length (for_loop n body s) = length s /\
  forall i : nat, (i < length s)%nat ->
    for_loop n body s !!! i = if decide (i < n)%nat then g i (s !!! i) else s !!! i.
Proof.
  intros Hp. induction n as [|n [IHlen IH]].
  - split; [reflexivity|]. intros i Hi. destruct (decide (i < 0)%nat); [lia | reflexivity].
  - rewrite for_loop_S. destruct (Hp n (for_loop n body s)) as (Hlen & Hat & Hother).
    split; [congruence|]. intros i Hi.
    destruct (decide (i = n)) as [->|Hne].
    + rewrite Hat by (rewrite IHlen; exact Hi). rewrite IH by exact Hi.
      destruct (decide (n < n)%nat); [lia|].
      destruct (decide (n < S n)%nat); [reflexivity | lia].
    + rewrite Hother by exact Hne. rewrite IH by exact Hi.
      destruct (decide (i < n)%nat), (decide (i < S n)%nat); try reflexivity; lia.
Qed.

Lemma pointwise_insert {A : Type} `{Inhabited A} (g : nat -> A -> A) :
  pointwise (fun j s => <[j := g j (s !!! j)]> s) g.
Proof.
  intros j s. split; [apply length_insert|]. split.
  - intros Hj. now apply list_lookup_total_insert_eq.
  - intros i Hi. apply list_lookup_total_insert_ne. congruence.
Qed.

Lemma pointwise_insert_if {A : Type} `{Inhabited A} (c : nat -> bool) (g : nat -> A -> A) :
  pointwise (fun j s => if c j then <[j := g j (s !!! j)]> s else s)
            (fun j v => if c j then g j v else v).
Proof.
  intros j s. destruct (c j); [apply pointwise_insert|].
  split; [reflexivity|]. split; reflexivity.
Qed.

(** A loop over the indices of a list is a fold over the list. *)
Lemma for_loop_fold {A B : Type} `{Inhabited A} (f : A -> B -> B) (L : list A) (b : B) :
  for_loop (length L) (fun j acc => f (L !!! j) acc) b = fold_left (fun acc z => f z acc) L b.
Proof.
  revert b. induction L as [|z L IH] using rev_ind; intros b; [reflexivity|].
  rewrite length_app. simpl. rewrite Nat.add_1_r, for_loop_S.
  rewrite fold_left_app. simpl.
  rewrite list_lookup_total_middle by reflexivity. f_equal.
  rewrite <- IH. clear IH.
  assert (G : forall n : nat, (n <= length L)%nat ->
            for_loop n (fun j acc => f ((L ++ [z]) !!! j) acc) b
            = for_loop n (fun j acc => f (L !!! j) acc) b).
  { induction n as [|n IHn]; intros Hn; [reflexivity|].
    rewrite !for_loop_S, IHn by lia. f_equal.
    apply lookup_total_app_l. lia. }
  now apply G.
Qed.

(** *** Label sets *)

Lemma set_has_element_true S x : set_has_element S x = true <-> x ∈ S.
Proof.
  unfold set_has_element. rewrite existsb_exists. split.
  - intros (e & He & Heq). apply String.eqb_eq in Heq. subst e.
    now apply list_elem_of_In.
  - intros Hx. exists x. split; [now apply list_elem_of_In | apply String.eqb_refl].
Qed.

Lemma elem_of_set_add_element S x y :
  y ∈ set_add_element S x <-> y = x \/ y ∈ S.
Proof.
  unfold set_add_element. destruct (set_has_element S x) eqn:E.
  - apply set_has_element_true in E. split; [now right | intros [->|]; assumption].
  - rewrite elem_of_app, list_elem_of_singleton. tauto.
Qed.

Lemma set_is_subset_true A B : set_is_subset A B = true <-> forall x, x ∈ A -> x ∈ B.
Proof.
  unfold set_is_subset. rewrite forallb_forall. split.
  - intros H x Hx. apply set_has_element_true, H. now apply list_elem_of_In.
  - intros H x Hx. apply set_has_element_true, H. now apply list_elem_of_In.
Qed.

Lemma set_is_equal_true A B :
  set_is_equal A B = true -> forall x, x ∈ A <-> x ∈ B.
Proof.
  unfold set_is_equal. destruct (length A =? length B)%nat; [|discriminate].
  intros H. apply andb_true_iff in H as [H1 H2].
  rewrite set_is_subset_true in H1, H2. intros x. split; auto.
Qed.

(** *** Maximum and arg-max loops *)

Lemma max_from_loop_spec (scores : list Real) (lo n : nat) (m0 : Real) :
  let r := for_from lo n
             (fun i m => if Qgtb (scores !!! i) m then scores !!! i else m) m0 in
  m0 <= r /\
  (forall i : nat, (lo <= i < lo + n)%nat -> scores !!! i <= r) /\
  (r = m0 \/ exists i : nat, (lo <= i < lo + n)%nat /\ r = scores !!! i).
Proof.
  induction n as [|n IH]; cbv zeta.
  - simpl. split; [apply Qle_refl|]. split; [intros i Hi; lia | now left].
  - rewrite for_from_S. cbv zeta in IH. destruct IH as (H0 & Hle & Hat).
    set (r := for_from lo n _ m0) in *.
    destruct (Qgtb (scores !!! (lo + n)%nat) r) eqn:E;
      [apply Qgtb_gt in E | apply Qgtb_le in E].
    + split; [lra|]. split.
      * intros i Hi. destruct (decide (i = (lo + n)%nat)) as [->|Hne];
          [apply Qle_refl|]. specialize (Hle i). assert (scores !!! i <= r) by (apply Hle; lia). lra.
      * right. exists (lo + n)%nat. split; [lia | reflexivity].
    + split; [exact H0|]. split.
      * intros i Hi. destruct (decide (i = (lo + n)%nat)) as [->|Hne];
          [exact E|]. apply Hle. lia.
      * destruct Hat as [->|(i & Hi & ->)]; [now left|].
        right. exists i. split; [lia | reflexivity].
Qed.

Lemma max_from_1_spec (scores : list Real) (K : nat) :
  (0 < K)%nat ->
  (forall j : nat, (j < K)%nat -> scores !!! j <= max_from 1 K scores) /\
  exists i : nat, (i < K)%nat /\ max_from 1 K scores = scores !!! i.
Proof.
  intros HK. unfold max_from.
  destruct (max_from_loop_spec scores 1 (K - 1) (scores !!! 0%nat)) as (H0 & Hle & Hat).
  split.
  - intros j Hj. destruct j as [|j]; [exact H0|]. apply Hle. lia.
  - destruct Hat as [->|(i & Hi & ->)]; [exists 0%nat | exists i]; (split; [lia | reflexivity]).
Qed.

Lemma labels_at_max_elem (K : nat) (scores : list Real) (m : Real)
    (labels_array : list string) (lbl : string) :
  lbl ∈ labels_at_max K scores m labels_array [] ->
  exists i : nat, (i < K)%nat /\ scores !!! i == m /\ lbl = labels_array !!! i.
Proof.
  unfold labels_at_max. induction K as [|K IH].
  - intros H. now apply elem_of_nil in H.
  - rewrite for_loop_S.
    destruct (Qeqb (scores !!! K) m) eqn:E.
    + intros H. apply elem_of_set_add_element in H as [->|H].
      * exists K. split; [lia|]. split; [now apply Qeqb_eq | reflexivity].
      * destruct (IH H) as (i & Hi & Hs & Hl). exists i. split; [lia | now split].
    + intros H. destruct (IH H) as (i & Hi & Hs & Hl). exists i. split; [lia | now split].
Qed.

Lemma forest_classify_elem F (x : list Real) (lbl : string) :
  (0 < forest_get_n_labels F)%nat ->
  lbl ∈ forest_classify F x ->
  exists i : nat,
    (i < forest_get_n_labels F)%nat /\
    lbl = forest_get_labels_as_array F !!! i /\
    forall j : nat, (j < forest_get_n_labels F)%nat ->
      forest_compute_decision_function F x !!! j
      <= forest_compute_decision_function F x !!! i.
Proof.
  intros HK H. unfold forest_classify in H.
  apply labels_at_max_elem in H as (i & Hi & Hs & Hl).
  exists i. split; [exact Hi|]. split; [exact Hl|].
  intros j Hj.
  destruct (max_from_1_spec (forest_compute_decision_function F x) _ HK) as [Hle _].
  rewrite Hs. now apply Hle.
Qed.

Lemma forest_scores_to_labels_keeps (scores : Hyperrectangle) data (i : nat) :
  (i < a_n_labels data)%nat ->
  (forall j : nat, (j < a_n_labels data)%nat -> l (scores !!! j) <= u (scores !!! i)) ->
  a_labels data !!! i ∈ forest_scores_to_labels scores data.
Proof.
  intros Hi Hmax. unfold forest_scores_to_labels.
  set (body := fun (i : nat) (labels : LabelSet) => _).
  assert (Hmono : forall n x, x ∈ for_loop n body [] -> x ∈ for_loop (S n) body []).
  { intros n x Hx. rewrite for_loop_S. unfold body at 1.
    destruct (set_has_element _ _); [exact Hx|].
    destruct (forallb _ _); [|exact Hx].
    apply elem_of_set_add_element. now right. }
  assert (Hat : a_labels data !!! i ∈ for_loop (S i) body []).
  { rewrite for_loop_S. unfold body at 1.
    destruct (set_has_element _ _) eqn:E; [now apply set_has_element_true in E|].
    assert (forallb (fun j => (i =? j)%nat
                              || negb (interval_is_lt (scores !!! i) (scores !!! j)))
                    (seq 0 (a_n_labels data)) = true) as ->.
    { apply forallb_forall. intros j Hj. apply in_seq in Hj.
      apply orb_true_iff. right. apply negb_true_iff.
      unfold interval_is_lt. apply Qltb_ge. apply Hmax. lia. }
    apply elem_of_set_add_element. now left. }
  assert (G : forall n, (S i <= n)%nat -> a_labels data !!! i ∈ for_loop n body []).
  { induction n as [|n IH]; intros Hn; [lia|].
    destruct (decide (n = i)) as [->|Hne]; [exact Hat|].
    apply Hmono, IH. lia. }
  apply G. lia.
Qed.

(** *** Well-formed forests and the contribution of a leaf to a score *)

(** The leaves of a tree carry the payload that the voting scheme reads: a
    counting leaf with at least one sample whose cached maximum is the
    maximum of its first [K] scores (MAX, AVERAGE), or a logarithmic leaf
    (SOFTARGMAX). *)
Definition leaf_ok (scheme : ForestVotingScheme) (K : nat) (N : Node) : Prop :=
  match scheme, N with
  | FOREST_VOTING_SOFTARGMAX, LeafLog _ _ => True
  | FOREST_VOTING_SOFTARGMAX, Leaf _ _ _ => False
  | _, Leaf scores max_score n_samples =>
      (0 < n_samples)%Z /\
      (forall i : nat, (i < K)%nat -> (scores !!! i <= max_score)%Z) /\
      (exists i : nat, (i < K)%nat /\ scores !!! i = max_score)
  | _, LeafLog _ _ => False
  | _, Split _ _ _ _ => True
  end.

Fixpoint leaves_ok (scheme : ForestVotingScheme) (K : nat) (N : Node) : Prop :=
  match N with
  | Split _ _ lc rc => leaves_ok scheme K lc /\ leaves_ok scheme K rc
  | _ => leaf_ok scheme K N
  end.

(** A forest over a feature space of dimension [n]. *)
Definition forest_wf (n : nat) (F : Forest) : Prop :=
  n_trees F = length (trees F) /\ (0 < n_trees F)%nat /\
  (0 < forest_get_n_labels F)%nat /\
  forall T, T ∈ trees F ->
    n_labels T = forest_get_n_labels F /\
    node_wf n (root T) /\
    leaves_ok (voting_scheme F) (forest_get_n_labels F) (root T).

(** The leaf of tree [t] selected by a point. *)
Definition tree_leaf (F : Forest) (t : nat) (p : list Real) : DecisionTreeNode :=
  decision_tree_walk (root (trees F !!! t)) [] p.

(** What one tree adds to the score of label [j] when it ends in leaf [z]. *)
Definition contribution (F : Forest) (z : DecisionTreeNode) (j : nat) : Q :=
  match voting_scheme F with
  | FOREST_VOTING_MAX =>
      if (leaf_scores z !!! j =? leaf_max_score z)%Z then 1 else 0
  | FOREST_VOTING_AVERAGE =>
      Z2R (leaf_scores z !!! j) / Z2R (leaf_n_samples z) / Z2R (Z.of_nat (n_trees F))
  | FOREST_VOTING_SOFTARGMAX => leaf_logarithmic_scores z !!! j
  end.

Definition Qsum (n : nat) (f : nat -> Q) : Q := for_loop n (fun t acc => acc + f t) 0.

Lemma Qsum_S n f : Qsum (S n) f = Qsum n f + f n.
Proof. unfold Qsum. now rewrite for_loop_S. Qed.

(** The score of label [j] at a point, tree by tree. *)
Definition point_score (F : Forest) (p : list Real) (j : nat) : Q :=
  Qsum (n_trees F) (fun t => contribution F (tree_leaf F t p) j).

Lemma walk_leaf_ok scheme K N ctx (p : list Real) :
  leaves_ok scheme K N -> leaf_ok scheme K (here (decision_tree_walk N ctx p)).
Proof.
  revert ctx. induction N as [| |i k lc IHl rc IHr]; intros ctx Hok; simpl in *;
    try exact Hok.
  destruct Hok as [Hl Hr]. destruct (Qleb (p !!! i) k); [now apply IHl | now apply IHr].
Qed.

Lemma walk_is_leaf N ctx (p : list Real) :
  decision_tree_node_is_leaf (decision_tree_walk N ctx p) = true.
Proof.
  revert ctx. induction N as [| |i k lc IHl rc IHr]; intros ctx; simpl; try reflexivity.
  destruct (Qleb (p !!! i) k); [apply IHl | apply IHr].
Qed.

Lemma Z2R_le a b : (a <= b)%Z -> Z2R a <= Z2R b.
Proof. intros H. unfold Z2R. now rewrite <- Zle_Qle. Qed.

Lemma Z2R_pos a : (0 < a)%Z -> 0 < Z2R a.
Proof. intros H. unfold Z2R, inject_Z, Qlt. simpl. lia. Qed.

Lemma Qdiv_le_r a b c : 0 < c -> a <= b -> a / c <= b / c.
Proof.
  intros Hc Hab. apply Qle_shift_div_l; [exact Hc|].
  unfold Qdiv. rewrite <- Qmult_assoc, (Qmult_comm (/ c)), Qmult_inv_r by lra. lra.
Qed.

Lemma Qdiv_eq_r a b c : 0 < c -> a / c == b / c -> a == b.
Proof.
  intros Hc E. assert (a / c * c == b / c * c) by now rewrite E.
  unfold Qdiv in *. rewrite <- !Qmult_assoc, !(Qmult_comm (/ c)), !Qmult_inv_r in H by lra.
  lra.
Qed.

Lemma tree_scores_lookup T (p : list Real) (j : nat) :
  (j < n_labels T)%nat ->
  decision_tree_compute_decision_function T p !!! j
  = leaf_decision_score (here (decision_tree_walk (root T) [] p)) j.
Proof.
  intros Hj. unfold decision_tree_compute_decision_function.
  apply list_lookup_total_correct. rewrite list_lookup_fmap.
  rewrite lookup_seq_lt by exact Hj. reflexivity.
Qed.

(** *** The concrete decision function is the sum of the contributions *)

Lemma accumulate_spec (K T : nat)
    (mk_body : nat -> nat -> list Q -> list Q) (g : nat -> nat -> Q -> Q)
    (c : nat -> nat -> Q) :
  (forall t, pointwise (mk_body t) (g t)) ->
  (forall (t j : nat) v, (t < T)%nat -> (j < K)%nat -> g t j v == v + c t j) ->
  forall n : nat, (n <= T)%nat ->
    length (for_loop n (fun t s => for_loop K (mk_body t) s) (replicate K 0)) = K /\
    forall j : nat, (j < K)%nat ->
      for_loop n (fun t s => for_loop K (mk_body t) s) (replicate K 0) !!! j
      == Qsum n (fun t => c t j).
Proof.
  intros Hp Hg. induction n as [|n IH]; intros Hn.
  - split; [apply length_replicate|]. intros j Hj.
    unfold for_loop at 1. simpl. rewrite lookup_total_replicate_2 by exact Hj. reflexivity.
  - destruct IH as [IHlen IH]; [lia|]. rewrite for_loop_S.
    destruct (for_loop_pointwise (mk_body n) (g n) K
                (for_loop n (fun t s => for_loop K (mk_body t) s) (replicate K 0)) (Hp n))
      as [Hlen Hget].
    split; [congruence|]. intros j Hj.
    rewrite Hget by (rewrite IHlen; exact Hj).
    destruct (decide (j < K)%nat); [|lia].
    rewrite Hg by lia. rewrite IH by exact Hj. now rewrite Qsum_S.
Qed.

Lemma max_vote_test (K : nat) N (j : nat) :
  leaf_ok FOREST_VOTING_MAX K N -> (0 < K)%nat -> (j < K)%nat ->
  forall scores mx ns, N = Leaf scores mx ns ->
  Qeqb (leaf_decision_score N j)
       (max_from 1 K (map (leaf_decision_score N) (seq 0 K)))
  = (scores !!! j =? mx)%Z.
Proof.
  intros Hok HK Hj scores mx ns ->. simpl in Hok. destruct Hok as (Hns & Hle & (i1 & Hi1 & Hmx)).
  set (ts := map (leaf_decision_score (Leaf scores mx ns)) (seq 0 K)).
  assert (Hts : forall i : nat, (i < K)%nat -> ts !!! i = Z2R (scores !!! i) / Z2R ns).
  { intros i Hi. unfold ts. apply list_lookup_total_correct.
    rewrite list_lookup_fmap, lookup_seq_lt by exact Hi. reflexivity. }
  destruct (max_from_1_spec ts K HK) as [Hall (i0 & Hi0 & Hm)].
  assert (Hpos : 0 < Z2R ns) by now apply Z2R_pos.
  assert (Em : max_from 1 K ts == Z2R mx / Z2R ns).
  { apply Qle_antisym.
    - rewrite Hm, Hts by exact Hi0. apply Qdiv_le_r; [exact Hpos|]. apply Z2R_le. now apply Hle.
    - specialize (Hall i1 Hi1). rewrite Hts in Hall by exact Hi1. now rewrite Hmx in Hall. }
  simpl. destruct (Z.eqb_spec (scores !!! j) mx) as [E|E].
  - apply Qeqb_eq. rewrite Em, E. reflexivity.
  - apply Qeqb_neq. rewrite Em. intros Heq. apply E.
    apply Qdiv_eq_r in Heq; [|exact Hpos]. unfold Z2R in Heq.
    apply inject_Z_injective. exact Heq.
Qed.

Lemma forest_tree_wf (n : nat) F (t : nat) :
  forest_wf n F -> (t < n_trees F)%nat ->
  n_labels (trees F !!! t) = forest_get_n_labels F /\
  node_wf n (root (trees F !!! t)) /\
  leaves_ok (voting_scheme F) (forest_get_n_labels F) (root (trees F !!! t)).
Proof.
  intros (Hlen & _ & _ & Hall) Ht. apply Hall.
  apply list_elem_of_lookup_total_2. lia.
Qed.

Lemma tree_leaf_ok (n : nat) F (t : nat) (p : list Real) :
  forest_wf n F -> (t < n_trees F)%nat ->
  leaf_ok (voting_scheme F) (forest_get_n_labels F) (here (tree_leaf F t p)) /\
  decision_tree_node_is_leaf (tree_leaf F t p) = true.
Proof.
  intros Hwf Ht. destruct (forest_tree_wf n F t Hwf Ht) as (_ & _ & Hok).
  split; [now apply walk_leaf_ok | apply walk_is_leaf].
Qed.

Lemma forest_decision_function_spec (n : nat) F (p : list Real) (j : nat) :
  forest_wf n F -> (j < forest_get_n_labels F)%nat ->
  forest_compute_decision_function F p !!! j == point_score F p j.
Proof.
  intros Hwf Hj. pose proof Hwf as (Hlen & HT & HK & _).
  unfold forest_compute_decision_function, point_score.
  destruct (voting_scheme F) eqn:Es.
  - (* MAX *)
    unfold decision_function_max.
    set (K := forest_get_n_labels F) in *.
    refine (proj2 (accumulate_spec K (n_trees F)
      (fun t j s =>
         if Qeqb (decision_tree_compute_decision_function (trees F !!! t) p !!! j)
                 (max_from 1 K (decision_tree_compute_decision_function (trees F !!! t) p))
         then <[j := s !!! j + 1]> s else s)
      (fun t j v =>
         if Qeqb (decision_tree_compute_decision_function (trees F !!! t) p !!! j)
                 (max_from 1 K (decision_tree_compute_decision_function (trees F !!! t) p))
         then v + 1 else v)
      (fun t j => contribution F (tree_leaf F t p) j) _ _ (n_trees F) (le_n _)) j Hj).
    + intros t. apply (pointwise_insert_if
        (fun j => Qeqb (decision_tree_compute_decision_function (trees F !!! t) p !!! j)
                       (max_from 1 K (decision_tree_compute_decision_function (trees F !!! t) p)))
        (fun _ v => v + 1)).
    + intros t i v Ht Hi.
      destruct (forest_tree_wf n F t Hwf Ht) as (HKt & _ & _).
      destruct (tree_leaf_ok n F t p Hwf Ht) as [Hok Hleaf].
      rewrite tree_scores_lookup by (rewrite HKt; exact Hi).
      unfold decision_tree_compute_decision_function. rewrite HKt. fold K.
      unfold contribution, leaf_scores, leaf_max_score. rewrite Es in *.
      fold (tree_leaf F t p).
      unfold decision_tree_node_is_leaf in Hleaf.
      destruct (here (tree_leaf F t p)) as [sc mx ns|sc w|] eqn:Eh;
        [|contradiction|discriminate].
      rewrite (max_vote_test K (Leaf sc mx ns) i Hok HK Hi sc mx ns eq_refl).
      destruct (sc !!! i =? mx)%Z; lra.
  - (* AVERAGE *)
    unfold decision_function_average.
    set (K := forest_get_n_labels F) in *.
    refine (proj2 (accumulate_spec K (n_trees F)
      (fun t j s =>
         <[j := s !!! j + decision_tree_compute_decision_function (trees F !!! t) p !!! j
                          / Z2R (Z.of_nat (n_trees F))]> s)
      (fun t j v =>
         v + decision_tree_compute_decision_function (trees F !!! t) p !!! j
             / Z2R (Z.of_nat (n_trees F)))
      (fun t j => contribution F (tree_leaf F t p) j) _ _ (n_trees F) (le_n _)) j Hj).
    + intros t. apply (pointwise_insert
        (fun j v => v + decision_tree_compute_decision_function (trees F !!! t) p !!! j
                        / Z2R (Z.of_nat (n_trees F)))).
    + intros t i v Ht Hi.
      destruct (forest_tree_wf n F t Hwf Ht) as (HKt & _ & _).
      destruct (tree_leaf_ok n F t p Hwf Ht) as [Hok Hleaf].
      rewrite tree_scores_lookup by (rewrite HKt; exact Hi).
      unfold contribution, leaf_scores, leaf_n_samples. rewrite Es in *.
      fold (tree_leaf F t p).
      unfold decision_tree_node_is_leaf in Hleaf.
      destruct (here (tree_leaf F t p)) as [sc mx ns|sc w|] eqn:Eh;
        [|contradiction|discriminate].
      simpl. reflexivity.
  - (* SOFTARGMAX *)
    unfold decision_function_softargmax.
    set (K := forest_get_n_labels F) in *.
    refine (proj2 (accumulate_spec K (n_trees F)
      (fun t j s =>
         <[j := s !!! j + decision_tree_compute_decision_function (trees F !!! t) p !!! j]> s)
      (fun t j v =>
         v + decision_tree_compute_decision_function (trees F !!! t) p !!! j)
      (fun t j => contribution F (tree_leaf F t p) j) _ _ (n_trees F) (le_n _)) j Hj).
    + intros t. apply (pointwise_insert
        (fun j v => v + decision_tree_compute_decision_function (trees F !!! t) p !!! j)).
    + intros t i v Ht Hi.
      destruct (forest_tree_wf n F t Hwf Ht) as (HKt & _ & _).
      destruct (tree_leaf_ok n F t p Hwf Ht) as [Hok Hleaf].
      rewrite tree_scores_lookup by (rewrite HKt; exact Hi).
      unfold contribution, leaf_logarithmic_scores. rewrite Es in *.
      fold (tree_leaf F t p).
      unfold decision_tree_node_is_leaf in Hleaf.
      destruct (here (tree_leaf F t p)) as [sc mx ns|sc w|] eqn:Eh;
        [contradiction| |discriminate].
      simpl. reflexivity.
Qed.

(** *** Decorators that cover a point *)

(** [dec_chain F p h d]: [h] has depth [d] and its fixed leaves are the
    leaves that [p] selects in the first [d] trees. *)
Inductive dec_chain (F : Forest) (p : list Real) : HyperrectangleDecorator -> nat -> Prop :=
| dec_chain_root x lbls : dec_chain F p (mk_decorator x None None lbls) 0
| dec_chain_step x par lbls d :
    dec_chain F p par d ->
    dec_chain F p (mk_decorator x (Some (tree_leaf F d p)) (Some par) lbls) (S d).

Definition covers (F : Forest) (p : list Real) (h : HyperrectangleDecorator) : Prop :=
  in_hyperrectangle p (d_x h) /\ dec_chain F p h (decorator_get_depth h).

Lemma dec_chain_depth F p h d : dec_chain F p h d -> decorator_get_depth h = d.
Proof. induction 1 as [|x par lbls d Hc IH]; simpl; congruence. Qed.

(** The parts of the analysis data that never change. *)
Definition data_for (F : Forest) (reference : LabelSet) (t : Tier)
    (data : analysis_data) : Prop :=
  a_F data = F /\ a_n_labels data = forest_get_n_labels F /\
  a_n_trees data = n_trees F /\ a_labels data = forest_get_labels_as_array F /\
  labels_a (a_status data) = reference /\ a_tier data = t.

Lemma in_interval_eq v v' I : v == v' -> in_interval v I -> in_interval v' I.
Proof. intros E [H1 H2]. split; lra. Qed.

(** *** Concrete part of the scores *)

Lemma init_scores_spec (K : nat) (s : Hyperrectangle) :
  length (init_scores K s) = length s /\
  forall j : nat, (j < K)%nat -> (j < length s)%nat -> init_scores K s !!! j = interval_zero.
Proof.
  unfold init_scores.
  destruct (for_loop_pointwise (fun i scores => <[i := interval_zero]> scores)
              (fun _ _ => interval_zero) K s) as [Hlen Hget].
  { apply (pointwise_insert (fun _ _ => interval_zero)). }
  split; [exact Hlen|]. intros j Hj Hjs. rewrite Hget by exact Hjs.
  destruct (decide (j < K)%nat); [reflexivity | lia].
Qed.

(** A loop body that adds the contribution of a leaf to every score. *)
Definition adds_contribution (F : Forest) (K : nat)
    (body : DecisionTreeNode -> Hyperrectangle -> Hyperrectangle)
    (z : DecisionTreeNode) : Prop :=
  forall s : Hyperrectangle,
    length (body z s) = length s /\
    forall (j : nat) v, (j < K)%nat -> (j < length s)%nat ->
      in_interval v (s !!! j) ->
      in_interval (v + contribution F z j) (body z s !!! j).

Lemma for_each_fixed_leaf_encloses F (p : list Real) (K T : nat) body h d :
  (forall t : nat, (t < T)%nat -> adds_contribution F K body (tree_leaf F t p)) ->
  dec_chain F p h d -> (d <= T)%nat ->
  forall (s : Hyperrectangle) (v : nat -> Q),
    length s = K ->
    (forall j : nat, (j < K)%nat -> in_interval (v j) (s !!! j)) ->
    length (for_each_fixed_leaf body h s) = K /\
    forall j : nat, (j < K)%nat ->
      in_interval (v j + Qsum d (fun t => contribution F (tree_leaf F t p) j))
                  (for_each_fixed_leaf body h s !!! j).
Proof.
  intros Hbody Hc. induction Hc as [x lbls|x par lbls d Hc IH]; intros Hd s v Hlen Hv.
  - simpl. split; [exact Hlen|]. intros j Hj.
    apply (in_interval_eq (v j)); [unfold Qsum, for_loop; simpl; lra | now apply Hv].
  - assert (Hstep : for_each_fixed_leaf body
              (mk_decorator x (Some (tree_leaf F d p)) (Some par) lbls) s
            = for_each_fixed_leaf body par (body (tree_leaf F d p) s)).
    { reflexivity. }
    rewrite Hstep.
    destruct (IH ltac:(lia) (body (tree_leaf F d p) s)
                (fun j => v j + contribution F (tree_leaf F d p) j)) as [IHl IHv].
    + rewrite (proj1 (Hbody d ltac:(lia) s)). exact Hlen.
    + intros j Hj. apply (proj2 (Hbody d ltac:(lia) s)); [exact Hj | lia | now apply Hv].
    + split; [exact IHl|]. intros j Hj. specialize (IHv j Hj).
      eapply in_interval_eq; [|exact IHv]. rewrite Qsum_S. ring.
Qed.

Lemma add_point_encloses v c c' I :
  c' == c -> in_interval v I -> in_interval (v + c') (add_point c I).
Proof. intros E [H1 H2]. split; simpl; lra. Qed.

Lemma concrete_body_adds (K : nat) (c : nat -> Q) (test : nat -> bool)
    (s : Hyperrectangle) :
  length (for_loop K (fun i scores =>
            if test i then <[i := add_point (c i) (scores !!! i)]> scores else scores) s)
  = length s /\
  forall (j : nat) v, (j < K)%nat -> (j < length s)%nat ->
    in_interval v (s !!! j) ->
    in_interval (v + (if test j then c j else 0))
      (for_loop K (fun i scores =>
         if test i then <[i := add_point (c i) (scores !!! i)]> scores else scores) s !!! j).
Proof.
  destruct (for_loop_pointwise
              (fun i scores => if test i then <[i := add_point (c i) (scores !!! i)]> scores
                               else scores)
              (fun i I => if test i then add_point (c i) I else I) K s) as [Hlen Hget].
  { apply (pointwise_insert_if test (fun i I => add_point (c i) I)). }
  split; [exact Hlen|]. intros j v Hj Hjs Hv. rewrite Hget by exact Hjs.
  destruct (decide (j < K)%nat); [|lia].
  destruct (test j).
  - now apply add_point_encloses.
  - apply (in_interval_eq v); [lra | exact Hv].
Qed.

Lemma decorator_score_concrete_encloses F reference tier data (p : list Real) h (d : nat)
    (s0 : Hyperrectangle) :
  data_for F reference tier data ->
  dec_chain F p h d -> (d <= n_trees F)%nat ->
  length s0 = forest_get_n_labels F ->
  length (decorator_score_concrete s0 h data) = forest_get_n_labels F /\
  forall j : nat, (j < forest_get_n_labels F)%nat ->
    in_interval (Qsum d (fun t => contribution F (tree_leaf F t p) j))
                (decorator_score_concrete s0 h data !!! j).
Proof.
  intros (HF & HK & HT & _) Hc Hd Hlen.
  set (K := forest_get_n_labels F) in *.
  destruct (init_scores_spec K s0) as [Hil Hiz].
  assert (Hzero : forall j : nat, (j < K)%nat -> in_interval 0 (init_scores K s0 !!! j)).
  { intros j Hj. rewrite Hiz by lia. split; simpl; lra. }
  assert (Hfin : forall body,
    (forall t : nat, (t < n_trees F)%nat -> adds_contribution F K body (tree_leaf F t p)) ->
    length (for_each_fixed_leaf body h (init_scores K s0)) = K /\
    forall j : nat, (j < K)%nat ->
      in_interval (Qsum d (fun t => contribution F (tree_leaf F t p) j))
                  (for_each_fixed_leaf body h (init_scores K s0) !!! j)).
  { intros body Hbody.
    destruct (for_each_fixed_leaf_encloses F p K (n_trees F) body h d Hbody Hc Hd
                (init_scores K s0) (fun _ => 0)) as [Hl Hv]; [lia | exact Hzero |].
    split; [exact Hl|]. intros j Hj. eapply in_interval_eq; [|apply (Hv j Hj)]. ring. }
  unfold decorator_score_concrete, forest_get_voting_scheme,
    decorator_score_concrete_max, decorator_score_concrete_average,
    decorator_score_concrete_softargmax.
  rewrite HF, HK, HT. fold K.
  destruct (voting_scheme F) eqn:Es; apply Hfin; intros t Ht s.
  - destruct (concrete_body_adds K (fun _ => 1)
                (fun i => (leaf_scores (tree_leaf F t p) !!! i
                           =? leaf_max_score (tree_leaf F t p))%Z) s) as [Hl Hv].
    split; [exact Hl|]. intros j v Hj Hjs Hin.
    unfold contribution. rewrite Es. now apply Hv.
  - destruct (concrete_body_adds K
                (fun i => Z2R (leaf_scores (tree_leaf F t p) !!! i)
                          / Z2R (leaf_n_samples (tree_leaf F t p))
                          / Z2R (Z.of_nat (n_trees F)))
                (fun _ => true) s) as [Hl Hv].
    split; [exact Hl|]. intros j v Hj Hjs Hin.
    unfold contribution. rewrite Es. now apply Hv.
  - destruct (concrete_body_adds K
                (fun i => leaf_logarithmic_scores (tree_leaf F t p) !!! i)
                (fun _ => true) s) as [Hl Hv].
    split; [exact Hl|]. intros j v Hj Hjs Hin.
    unfold contribution. rewrite Es. now apply Hv.
Qed.

(** *** Abstract part of the scores *)

Fixpoint count_pass {A : Type} (test : A -> bool) (L : list A) : nat :=
  match L with
  | [] => 0
  | z :: L => ((if test z then 1 else 0) + count_pass test L)%nat
  end.

Lemma count_pass_le {A : Type} (test : A -> bool) L : (count_pass test L <= length L)%nat.
Proof. induction L as [|z L IH]; simpl; [lia|]. destruct (test z); lia. Qed.

Lemma count_pass_pos {A : Type} (test : A -> bool) L z :
  z ∈ L -> test z = true -> (0 < count_pass test L)%nat.
Proof.
  induction L as [|y L IH]; intros Hz Ht; [now apply elem_of_nil in Hz|].
  simpl. apply elem_of_cons in Hz as [->|Hz]; [rewrite Ht; lia|].
  specialize (IH Hz Ht). lia.
Qed.

Lemma count_pass_lt {A : Type} (test : A -> bool) L z :
  z ∈ L -> test z = false -> (count_pass test L < length L)%nat.
Proof.
  induction L as [|y L IH]; intros Hz Ht; [now apply elem_of_nil in Hz|].
  simpl. apply elem_of_cons in Hz as [->|Hz].
  - rewrite Ht. pose proof (count_pass_le test L). lia.
  - specialize (IH Hz Ht). destruct (test y); lia.
Qed.

(** The votes counted by [decorator_score_sound_max] for every label. *)
Lemma local_scores_spec (K : nat) (test : DecisionTreeNode -> nat -> bool)
    (L : list DecisionTreeNode) (ls0 : list nat) :
  let ls := for_loop (length L) (fun j ls =>
              for_loop K (fun i ls =>
                if test (L !!! j) i then <[i := S (ls !!! i)]> ls else ls) ls) ls0 in
  length ls = length ls0 /\
  forall i : nat, (i < K)%nat -> (i < length ls0)%nat ->
    ls !!! i = (ls0 !!! i + count_pass (fun z => test z i) L)%nat.
Proof.
  cbv zeta.
  rewrite (for_loop_fold (fun z ls =>
             for_loop K (fun i ls => if test z i then <[i := S (ls !!! i)]> ls else ls) ls)
             L ls0).
  revert ls0. induction L as [|z L IH]; intros ls0; simpl.
  - split; [reflexivity|]. intros i _ _. lia.
  - destruct (for_loop_pointwise
                (fun i ls => if test z i then <[i := S (ls !!! i)]> ls else ls)
                (fun i v => if test z i then S v else v) K ls0) as [Hlen Hget].
    { apply (pointwise_insert_if (test z) (fun _ v => S v)). }
    destruct (IH (for_loop K (fun i ls =>
                if test z i then <[i := S (ls !!! i)]> ls else ls) ls0)) as [IHl IHv].
    split; [congruence|]. intros i Hi Hil.
    rewrite IHv by (try rewrite Hlen; assumption).
    rewrite Hget by exact Hil. destruct (decide (i < K)%nat); [|lia].
    destruct (test z i); lia.
Qed.

Lemma min_max_over_spec (L : list DecisionTreeNode) (q : DecisionTreeNode -> Real)
    (min0 max0 : Real) (z : DecisionTreeNode) :
  z ∈ L ->
  fst (min_max_over L q min0 max0) <= q z /\ q z <= snd (min_max_over L q min0 max0).
Proof.
  unfold min_max_over.
  change (for_loop (length L) _ (min0, max0))
    with (for_loop (length L)
            (fun j acc => (fun leaf '(mn, mx) =>
               (if Qltb (q leaf) mn then q leaf else mn,
                if Qgtb (q leaf) mx then q leaf else mx)) (L !!! j) acc) (min0, max0)).
  rewrite for_loop_fold.
  assert (G : forall L' (mn mx : Real),
    let r := fold_left (fun acc leaf =>
               (fun leaf '(mn, mx) =>
                  (if Qltb (q leaf) mn then q leaf else mn,
                   if Qgtb (q leaf) mx then q leaf else mx)) leaf acc) L' (mn, mx) in
    fst r <= mn /\ mx <= snd r /\
    forall y, y ∈ L' -> fst r <= q y /\ q y <= snd r).
  { induction L' as [|y L' IH]; intros mn mx; cbv zeta; simpl.
    - split; [lra|]. split; [lra|]. intros y Hy. now apply elem_of_nil in Hy.
    - specialize (IH (if Qltb (q y) mn then q y else mn)
                     (if Qgtb (q y) mx then q y else mx)).
      cbv zeta in IH. destruct IH as (H1 & H2 & H3).
      set (r := fold_left _ L' _) in *.
      assert (Hmn : (if Qltb (q y) mn then q y else mn) <= mn
                    /\ (if Qltb (q y) mn then q y else mn) <= q y).
      { destruct (Qltb (q y) mn) eqn:E; [apply Qltb_lt in E | apply Qltb_ge in E];
          split; lra. }
      assert (Hmx : mx <= (if Qgtb (q y) mx then q y else mx)
                    /\ q y <= (if Qgtb (q y) mx then q y else mx)).
      { destruct (Qgtb (q y) mx) eqn:E; [apply Qgtb_gt in E | apply Qgtb_le in E];
          split; lra. }
      split; [lra|]. split; [lra|].
      intros y' Hy'. apply elem_of_cons in Hy' as [->|Hy']; [split; lra | now apply H3]. }
  intros Hz. now apply (G L min0 max0).
Qed.

Lemma bool_to_R_cases b : bool_to_R b = 0 \/ bool_to_R b = 1.
Proof. destruct b; [now right | now left]. Qed.

Lemma decorator_score_sound_max_adds F reference tier data h T z
    (s : Hyperrectangle) :
  data_for F reference tier data -> voting_scheme F = FOREST_VOTING_MAX ->
  z ∈ reachable_leaves T (d_x h) ->
  length (decorator_score_sound_max s h T data) = length s /\
  forall (j : nat) v, (j < forest_get_n_labels F)%nat -> (j < length s)%nat ->
    in_interval v (s !!! j) ->
    in_interval (v + contribution F z j) (decorator_score_sound_max s h T data !!! j).
Proof.
  intros (HF & HK & _) Es Hz. unfold decorator_score_sound_max. rewrite HK.
  set (K := forest_get_n_labels F). set (L := reachable_leaves T (d_x h)) in *.
  set (test := fun (z : DecisionTreeNode) (i : nat) =>
                 (leaf_scores z !!! i =? leaf_max_score z)%Z).
  set (ls0 := for_loop K (fun i ls => <[i := 0%nat]> ls) (replicate K 0%nat)).
  assert (Hls0 : length ls0 = K /\ forall i : nat, (i < K)%nat -> ls0 !!! i = 0%nat).
  { destruct (for_loop_pointwise (fun i (ls : list nat) => <[i := 0%nat]> ls)
                (fun _ _ => 0%nat) K (replicate K 0%nat)) as [Hl Hg].
    { apply (pointwise_insert (fun _ _ => 0%nat)). }
    rewrite length_replicate in Hl, Hg. split; [exact Hl|].
    intros i Hi. unfold ls0. rewrite Hg by exact Hi.
    destruct (decide (i < K)%nat); [reflexivity | lia]. }
  destruct Hls0 as [Hls0l Hls0z].
  destruct (local_scores_spec K test L ls0) as [Hlsl Hlsv]. cbv zeta in Hlsl, Hlsv.
  set (ls := for_loop (length L) _ ls0) in *.
  destruct (for_loop_pointwise
    (fun i (scores : Hyperrectangle) =>
       <[i := {| l := l (scores !!! i) + bool_to_R (ls !!! i =? length L)%nat;
                 u := u (scores !!! i) + bool_to_R (0 <? ls !!! i)%nat |}]> scores)
    (fun i I => {| l := l I + bool_to_R (ls !!! i =? length L)%nat;
                   u := u I + bool_to_R (0 <? ls !!! i)%nat |}) K s) as [Hlen Hget].
  { apply (pointwise_insert
      (fun i I => {| l := l I + bool_to_R (ls !!! i =? length L)%nat;
                     u := u I + bool_to_R (0 <? ls !!! i)%nat |})). }
  split; [exact Hlen|]. intros j v Hj Hjs [Hv1 Hv2]. rewrite Hget by exact Hjs.
  destruct (decide (j < K)%nat); [|lia].
  rewrite Hlsv by lia. rewrite Hls0z by exact Hj. simpl (0 + _)%nat.
  unfold contribution. rewrite Es. fold (test z j).
  pose proof (count_pass_le (fun z => test z j) L) as Hle.
  destruct (test z j) eqn:Et.
  - pose proof (count_pass_pos (fun z => test z j) L z Hz Et) as Hpos.
    destruct (Nat.ltb_spec 0 (count_pass (fun z => test z j) L)); [|lia].
    destruct (bool_to_R_cases (count_pass (fun z0 => test z0 j) L =? length L)%nat) as [->| ->];
      split; simpl; lra.
  - pose proof (count_pass_lt (fun z => test z j) L z Hz Et) as Hlt.
    destruct (Nat.eqb_spec (count_pass (fun z => test z j) L) (length L)); [lia|].
    destruct (bool_to_R_cases (0 <? count_pass (fun z0 => test z0 j) L)%nat) as [->| ->];
      split; simpl; lra.
Qed.

Lemma pointwise_min_max (mm : nat -> Real * Real)
    (G : Real -> Real -> Interval -> Interval) :
  pointwise (fun i (scores : Hyperrectangle) =>
               let '(mn, mx) := mm i in <[i := G mn mx (scores !!! i)]> scores)
            (fun i I => G (fst (mm i)) (snd (mm i)) I).
Proof.
  intros j s. destruct (mm j) as [mn mx]. simpl.
  apply (pointwise_insert (fun _ I => G mn mx I)).
Qed.

Lemma decorator_score_sound_average_adds F reference tier data h T z
    (s : Hyperrectangle) :
  data_for F reference tier data -> voting_scheme F = FOREST_VOTING_AVERAGE ->
  (0 < n_trees F)%nat ->
  z ∈ reachable_leaves T (d_x h) ->
  length (decorator_score_sound_average s h T data) = length s /\
  forall (j : nat) v, (j < forest_get_n_labels F)%nat -> (j < length s)%nat ->
    in_interval v (s !!! j) ->
    in_interval (v + contribution F z j) (decorator_score_sound_average s h T data !!! j).
Proof.
  intros (HF & HK & HT & _) Es HTpos Hz. unfold decorator_score_sound_average.
  rewrite HK, HT.
  set (K := forest_get_n_labels F). set (L := reachable_leaves T (d_x h)) in *.
  set (Tn := Z2R (Z.of_nat (n_trees F))).
  assert (HTn : 0 < Tn) by (apply Z2R_pos; lia).
  set (mm := fun i : nat =>
    min_max_over L (fun leaf => Z2R (leaf_scores leaf !!! i) / Z2R (leaf_n_samples leaf)) 1 0).
  destruct (for_loop_pointwise
    (fun i (scores : Hyperrectangle) =>
       let '(mn, mx) := mm i in
       <[i := {| l := l (scores !!! i) + mn / Tn; u := u (scores !!! i) + mx / Tn |}]> scores)
    (fun i I => {| l := l I + fst (mm i) / Tn; u := u I + snd (mm i) / Tn |}) K s)
    as [Hlen Hget].
  { apply (pointwise_min_max mm
             (fun mn mx I => {| l := l I + mn / Tn; u := u I + mx / Tn |})). }
  split; [exact Hlen|]. intros j v Hj Hjs [Hv1 Hv2]. rewrite Hget by exact Hjs.
  destruct (decide (j < K)%nat); [|lia].
  destruct (min_max_over_spec L
    (fun leaf => Z2R (leaf_scores leaf !!! j) / Z2R (leaf_n_samples leaf)) 1 0 z Hz)
    as [Hmn Hmx].
  fold (mm j) in Hmn, Hmx. unfold contribution. rewrite Es. fold Tn.
  pose proof (Qdiv_le_r _ _ Tn HTn Hmn). pose proof (Qdiv_le_r _ _ Tn HTn Hmx).
  split; simpl; lra.
Qed.

Lemma decorator_score_sound_softargmax_adds F reference tier data h T z
    (s : Hyperrectangle) :
  data_for F reference tier data -> voting_scheme F = FOREST_VOTING_SOFTARGMAX ->
  z ∈ reachable_leaves T (d_x h) ->
  length (decorator_score_sound_softargmax s h T data) = length s /\
  forall (j : nat) v, (j < forest_get_n_labels F)%nat -> (j < length s)%nat ->
    in_interval v (s !!! j) ->
    in_interval (v + contribution F z j)
                (decorator_score_sound_softargmax s h T data !!! j).
Proof.
  intros (HF & HK & HT & _) Es Hz. unfold decorator_score_sound_softargmax.
  rewrite HK.
  set (K := forest_get_n_labels F). set (L := reachable_leaves T (d_x h)) in *.
  set (mm := fun i : nat =>
    min_max_over L (fun leaf => leaf_logarithmic_scores leaf !!! i) DBL_MAX (- DBL_MAX)).
  destruct (for_loop_pointwise
    (fun i (scores : Hyperrectangle) =>
       let '(mn, mx) := mm i in
       <[i := {| l := l (scores !!! i) + mn; u := u (scores !!! i) + mx |}]> scores)
    (fun i I => {| l := l I + fst (mm i); u := u I + snd (mm i) |}) K s)
    as [Hlen Hget].
  { apply (pointwise_min_max mm (fun mn mx I => {| l := l I + mn; u := u I + mx |})). }
  split; [exact Hlen|]. intros j v Hj Hjs [Hv1 Hv2]. rewrite Hget by exact Hjs.
  destruct (decide (j < K)%nat); [|lia].
  destruct (min_max_over_spec L (fun leaf => leaf_logarithmic_scores leaf !!! j)
              DBL_MAX (- DBL_MAX) z Hz) as [Hmn Hmx].
  fold (mm j) in Hmn, Hmx. unfold contribution. rewrite Es.
  split; simpl; lra.
Qed.

Lemma sound_steps_enclose (K T d : nat) (c : nat -> nat -> Q)
    (step : nat -> Hyperrectangle -> Hyperrectangle) :
  (forall (t : nat) (s : Hyperrectangle), (d <= t < T)%nat ->
     length (step t s) = length s /\
     forall (j : nat) v, (j < K)%nat -> (j < length s)%nat ->
       in_interval v (s !!! j) -> in_interval (v + c t j) (step t s !!! j)) ->
  forall (n : nat) (s : Hyperrectangle), (d + n <= T)%nat ->
    length s = K ->
    (forall j : nat, (j < K)%nat -> in_interval (Qsum d (fun t => c t j)) (s !!! j)) ->
    length (for_from d n step s) = K /\
    forall j : nat, (j < K)%nat ->
      in_interval (Qsum (d + n) (fun t => c t j)) (for_from d n step s !!! j).
Proof.
  intros Hstep. induction n as [|n IH]; intros s Hn Hlen Hs.
  - simpl. rewrite Nat.add_0_r. now split.
  - rewrite for_from_S. destruct (IH s ltac:(lia) Hlen Hs) as [IHl IHv].
    destruct (Hstep (d + n)%nat (for_from d n step s) ltac:(lia)) as [Hl Hv].
    split; [congruence|]. intros j Hj.
    replace (d + S n)%nat with (S (d + n)) by lia. rewrite Qsum_S.
    apply Hv; [exact Hj | lia | now apply IHv].
Qed.

Lemma Qdiv_le_l a c d : 0 <= a -> 0 < c -> c <= d -> a / d <= a / c.
Proof.
  intros Ha Hc Hcd. apply Qle_shift_div_r; [lra|].
  assert (Hx : 0 <= a / c) by (apply Qle_shift_div_l; lra).
  assert (Ex : a / c * c == a) by (field; lra).
  set (x := a / c) in *. nra.
Qed.

Section LabelsSound.

Variable exp : Q -> Q.
Hypothesis exp_pos : forall q, 0 < exp q.
Hypothesis exp_monotone : forall a b, a <= b -> exp a <= exp b.

Lemma exp_sums_spec (K : nat) (scores : Hyperrectangle) :
  (forall i : nat, (i < K)%nat -> l (scores !!! i) <= u (scores !!! i)) ->
  let r := for_loop K (fun i '(s_min, s_max) =>
             (s_min + exp (l (scores !!! i)), s_max + exp (u (scores !!! i)))) (0, 0) in
  0 <= fst r /\ fst r <= snd r /\ ((0 < K)%nat -> 0 < fst r).
Proof.
  intros Hlu. induction K as [|K IH]; cbv zeta.
  - simpl. split; [lra|]. split; [lra | lia].
  - rewrite for_loop_S. destruct IH as (H0 & H1 & _); [intros i Hi; apply Hlu; lia|].
    destruct (for_loop K _ (0, 0)) as [a b]. simpl in *.
    pose proof (exp_pos (l (scores !!! K))).
    pose proof (exp_monotone _ _ (Hlu K ltac:(lia))).
    split; [lra|]. split; [lra|]. intros _. lra.
Qed.

End LabelsSound.

(** What the soundness of the labels asks of [exp]: to be positive and
    monotone when the forest votes by SOFTARGMAX, the only scheme that
    calls it, and nothing otherwise. *)
Definition exp_adequate (F : Forest) (exp : Q -> Q) : Prop :=
  voting_scheme F = FOREST_VOTING_SOFTARGMAX ->
  (forall q, 0 < exp q) /\ (forall a b, a <= b -> exp a <= exp b).

(** The labels computed for a decorator contain the labels of every point
    that the decorator covers. *)
Lemma decorator_compute_labels_sound (exp : Q -> Q) (n : nat) F reference tier data
    (p : list Real) h (lbl : string) :
  exp_adequate F exp ->
  forest_wf n F -> data_for F reference tier data ->
  length p = n -> covers F p h -> (decorator_get_depth h <= n_trees F)%nat ->
  lbl ∈ forest_classify F p ->
  lbl ∈ decorator_compute_labels exp h data.
Proof.
  intros Hexp_ok Hwf Hdata Hpn [Hin Hchain] Hdepth Hlbl.
  pose proof Hwf as (HTlen & HTpos & HKpos & _).
  pose proof Hdata as (HF & HK & HT & HL & _).
  set (K := forest_get_n_labels F) in *. set (d := decorator_get_depth h) in *.
  destruct (forest_classify_elem F p lbl HKpos Hlbl) as (i & Hi & -> & Hmax).
  fold K in Hi, Hmax.
  assert (Hscore : forall j : nat, (j < K)%nat -> point_score F p j <= point_score F p i).
  { intros j Hj. rewrite <- !(forest_decision_function_spec n) by assumption.
    now apply Hmax. }
  (* the scores before the final normalisation *)
  set (s1 := decorator_score_concrete (hyperrectangle_create (a_n_labels data)) h data).
  destruct (decorator_score_concrete_encloses F reference tier data p h d
              (hyperrectangle_create (a_n_labels data)) Hdata Hchain Hdepth)
    as [Hs1l Hs1v].
  { unfold hyperrectangle_create. rewrite length_replicate. exact HK. }
  fold s1 in Hs1l, Hs1v. fold K in Hs1l, Hs1v.
  set (step := fun (t : nat) (s : Hyperrectangle) =>
    match forest_get_voting_scheme (a_F data) with
    | FOREST_VOTING_MAX => decorator_score_sound_max
    | FOREST_VOTING_AVERAGE => decorator_score_sound_average
    | FOREST_VOTING_SOFTARGMAX => decorator_score_sound_softargmax
    end s h (trees (a_F data) !!! t) data).
  assert (Hstep : forall (t : nat) (s : Hyperrectangle), (d <= t < n_trees F)%nat ->
     length (step t s) = length s /\
     forall (j : nat) v, (j < K)%nat -> (j < length s)%nat ->
       in_interval v (s !!! j) ->
       in_interval (v + contribution F (tree_leaf F t p) j) (step t s !!! j)).
  { intros t s Ht. unfold step, forest_get_voting_scheme. rewrite HF.
    destruct (forest_tree_wf n F t Hwf ltac:(lia)) as (_ & Hnwf & _).
    assert (Hz : tree_leaf F t p ∈ reachable_leaves (trees F !!! t) (d_x h)).
    { rewrite reachable_leaves_reach.
      apply (walk_in_reach (length (d_x h))); [|reflexivity|exact Hin].
      destruct Hin as [Hlen _]. rewrite <- Hlen, Hpn. exact Hnwf. }
    destruct (voting_scheme F) eqn:Es.
    - now apply (decorator_score_sound_max_adds F reference tier).
    - now apply (decorator_score_sound_average_adds F reference tier).
    - now apply (decorator_score_sound_softargmax_adds F reference tier). }
  destruct (sound_steps_enclose K (n_trees F) d
              (fun t j => contribution F (tree_leaf F t p) j) step Hstep
              (n_trees F - d) s1 ltac:(lia) Hs1l Hs1v) as [Hs2l Hs2v].
  replace (d + (n_trees F - d))%nat with (n_trees F) in Hs2v by lia.
  set (s2 := for_from d (n_trees F - d) step s1) in *.
  fold (point_score F p) in Hs2v.
  (* the final label set *)
  unfold decorator_compute_labels. rewrite <- HL.
  apply forest_scores_to_labels_keeps; [rewrite HK; exact Hi|].
  intros j Hj. rewrite HK in Hj. fold K in Hj.
  unfold decorator_score_overapproximate, decorator_score_sound.
  fold s1. rewrite HT. fold d. fold step. fold s2.
  unfold forest_get_voting_scheme. rewrite HF. fold K.
  destruct (Hs2v i Hi) as [Hli Hui]. destruct (Hs2v j Hj) as [Hlj Huj].
  specialize (Hscore j Hj). unfold point_score in Hscore.
  destruct (voting_scheme F) eqn:Es; [lra | lra |].
  (* SOFTARGMAX: normalisation *)
  destruct (Hexp_ok Es) as [exp_pos exp_monotone].
  destruct (exp_sums_spec exp exp_pos exp_monotone K s2) as (Hmin0 & Hminmax & Hminpos).
  { intros i' Hi'. destruct (Hs2v i' Hi') as [? ?]. lra. }
  cbv zeta in Hmin0, Hminmax, Hminpos. specialize (Hminpos HKpos).
  destruct (for_loop K _ (0, 0)) as [s_min s_max]. simpl in Hmin0, Hminmax, Hminpos.
  destruct (for_loop_pointwise
    (fun i0 (scores : Hyperrectangle) =>
       <[i0 := {| l := exp (l (scores !!! i0)) / s_max;
                  u := exp (u (scores !!! i0)) / s_min |}]> scores)
    (fun _ I => {| l := exp (l I) / s_max; u := exp (u I) / s_min |}) K s2) as [_ Hget].
  { apply (pointwise_insert
             (fun _ I => {| l := exp (l I) / s_max; u := exp (u I) / s_min |})). }
  rewrite !Hget by lia.
  destruct (decide (j < K)%nat) as [Hd1|]; [|lia].
  destruct (decide (i < K)%nat) as [Hd2|]; [|lia]. simpl.
  assert (Hexp : exp (l (s2 !!! j)) <= exp (u (s2 !!! i))) by (apply exp_monotone; lra).
  pose proof (exp_pos (l (s2 !!! j))) as Hpos.
  apply Qle_trans with (exp (l (s2 !!! j)) / s_min).
  - apply Qdiv_le_l; lra.
  - apply Qdiv_le_r; [lra | exact Hexp].
Qed.

(** *** Two queues that receive the same priorities *)

Section HeapMap.

Context {A B : Type} (f : A -> B).

Definition node_map (n : heap_node A) : heap_node B :=
  mk_heap_node (f (data n)) (key n).

Definition heap_map (H : BinaryHeap A) : BinaryHeap B :=
  {| nodes := map node_map (nodes H); size := size H; type := type H |}.

Definition pq_map (P : PriorityQueue A) : PriorityQueue B :=
  {| heap := heap_map (heap P) |}.

Lemma key_at_map ns (i : nat) : key_at (map node_map ns) i = key_at ns i.
Proof.
  unfold key_at. rewrite list_lookup_fmap. destruct (ns !! i); reflexivity.
Qed.

Lemma swap_nodes_map ns (i j : nat) :
  swap_nodes (map node_map ns) i j = map node_map (swap_nodes ns i j).
Proof.
  unfold swap_nodes. rewrite !list_lookup_fmap.
  destruct (ns !! i) as [a|], (ns !! j) as [b|]; simpl; try reflexivity.
  now rewrite !list_fmap_insert.
Qed.

Lemma heap_property_local_map t ns (i : nat) :
  heap_property_local t (map node_map ns) i = heap_property_local t ns i.
Proof. unfold heap_property_local. now rewrite !key_at_map. Qed.

Lemma chose_child_map t ns (i j : nat) :
  chose_child t (map node_map ns) i j = chose_child t ns i j.
Proof. unfold chose_child. now rewrite !key_at_map. Qed.

Lemma sift_up_loop_map fuel t ns (i : nat) :
  sift_up_loop fuel t (map node_map ns) i = map node_map (sift_up_loop fuel t ns i).
Proof.
  revert ns i. induction fuel as [|fuel IH]; intros ns i; cbn [sift_up_loop]; [reflexivity|].
  rewrite heap_property_local_map. destruct (heap_property_local t ns i); [reflexivity|].
  now rewrite swap_nodes_map, IH.
Qed.

Lemma sift_down_loop_map fuel t ns (sz i : nat) :
  sift_down_loop fuel t (map node_map ns) sz i
  = map node_map (sift_down_loop fuel t ns sz i).
Proof.
  revert ns i. induction fuel as [|fuel IH]; intros ns i; cbn [sift_down_loop]; [reflexivity|].
  cbv zeta. rewrite !heap_property_local_map, chose_child_map.
  destruct (_ && _); [reflexivity|]. now rewrite swap_nodes_map, IH.
Qed.

Lemma binary_heap_push_map (H : BinaryHeap A) x k :
  binary_heap_push (heap_map H) (f x) k = heap_map (binary_heap_push H x k).
Proof.
  unfold binary_heap_push, heap_map, sift_up. cbn [nodes size type]. f_equal.
  rewrite <- sift_up_loop_map. f_equal.
  unfold write_node. rewrite length_map.
  destruct (size H <? length (nodes H))%nat.
  - symmetry. apply (list_fmap_insert node_map).
  - symmetry. apply map_app.
Qed.

Lemma binary_heap_pop_map (H : BinaryHeap A) :
  binary_heap_pop (heap_map H)
  = match binary_heap_pop H with
    | Some (x, H') => Some (f x, heap_map H')
    | None => None
    end.
Proof.
  unfold binary_heap_pop, heap_map, sift_down. cbn [nodes size type].
  destruct (size H =? 0)%nat; [reflexivity|].
  change (map node_map (nodes H)) with (node_map <$> nodes H).
  rewrite !list_lookup_fmap.
  destruct (nodes H !! 0%nat) as [first|]; cbn [fmap option_fmap option_map]; [|reflexivity].
  destruct (nodes H !! (size H - 1)%nat) as [last|]; cbn [fmap option_fmap option_map];
    [|reflexivity].
  cbn [nodes size type data node_map]. f_equal. f_equal. f_equal.
  rewrite <- sift_down_loop_map. f_equal.
  symmetry. apply (list_fmap_insert node_map).
Qed.

Lemma priority_queue_push_map (P : PriorityQueue A) x k :
  priority_queue_push (pq_map P) (f x) k = pq_map (priority_queue_push P x k).
Proof. unfold priority_queue_push, pq_map. simpl. now rewrite binary_heap_push_map. Qed.

Lemma priority_queue_pop_map (P : PriorityQueue A) :
  priority_queue_pop (pq_map P)
  = match priority_queue_pop P with
    | Some (x, P') => Some (f x, pq_map P')
    | None => None
    end.
Proof.
  unfold priority_queue_pop, pq_map. simpl. rewrite binary_heap_pop_map.
  destruct (binary_heap_pop (heap P)) as [[x H']|]; reflexivity.
Qed.

Lemma priority_queue_is_empty_map (P : PriorityQueue A) :
  priority_queue_is_empty (pq_map P) = priority_queue_is_empty P.
Proof. reflexivity. Qed.

End HeapMap.

(** The elements of a queue. *)
Definition pq_elements {A : Type} (P : PriorityQueue A) : list A :=
  map data (stored (heap P)).

Lemma pq_elements_push {A : Type} (P : PriorityQueue A) x k :
  heap_inv (heap P) ->
  heap_inv (heap (priority_queue_push P x k)) /\
  forall y, y ∈ pq_elements (priority_queue_push P x k) <-> y = x \/ y ∈ pq_elements P.
Proof.
  intros Hinv. destruct (binary_heap_push_spec (heap P) x k Hinv) as [Hinv' Hperm].
  split; [exact Hinv'|]. intros y. unfold pq_elements. simpl. rewrite Hperm. simpl.
  rewrite elem_of_cons. reflexivity.
Qed.

Lemma pq_elements_pop {A : Type} (P : PriorityQueue A) :
  heap_inv (heap P) -> priority_queue_is_empty P = false ->
  exists x P',
    priority_queue_pop P = Some (x, P') /\ heap_inv (heap P') /\
    forall y, y ∈ pq_elements P <-> y = x \/ y ∈ pq_elements P'.
Proof.
  intros Hinv Hne. unfold priority_queue_is_empty, binary_heap_is_empty in Hne.
  apply Nat.eqb_neq in Hne.
  destruct (binary_heap_pop_spec (heap P) Hinv)
    as (first & H' & Hpop & _ & _ & Hinv' & Hperm); [lia|].
  exists (data first), {| heap := H' |}. unfold priority_queue_pop. rewrite Hpop.
  split; [reflexivity|]. split; [exact Hinv'|].
  intros y. unfold pq_elements. rewrite Hperm. simpl. rewrite elem_of_cons. reflexivity.
Qed.

Lemma pq_elements_empty {A : Type} (P : PriorityQueue A) :
  priority_queue_is_empty P = true -> pq_elements P = [].
Proof.
  unfold priority_queue_is_empty, binary_heap_is_empty, pq_elements, stored.
  intros H. apply Nat.eqb_eq in H. now rewrite H.
Qed.

Lemma heap_inv_create {A : Type} : heap_inv (heap (@priority_queue_create A)).
Proof. apply pq_reachable_heap_inv. constructor. Qed.

(** *** Refinement of a region through one tree *)

(** The point lies in none of the gaps [(k, k + EPSILON)] that the
    refinement leaves to the right of the thresholds of a tree. *)
Fixpoint avoids_gaps (p : list Real) (N : Node) : Prop :=
  match N with
  | Split i k lc rc =>
      ~ (k < p !!! i /\ p !!! i < k + EPSILON) /\ avoids_gaps p lc /\ avoids_gaps p rc
  | _ => True
  end.

Definition settled (F : Forest) (reference : LabelSet) (p : list Real) : Prop :=
  forall lbl, lbl ∈ forest_classify F p -> lbl ∈ reference.

(** The labels stored in a decorator over-approximate the labels of the
    points it covers. *)
Definition labels_ok (n : nat) (F : Forest) (h : HyperrectangleDecorator) : Prop :=
  forall p lbl, length p = n -> covers F p h -> lbl ∈ forest_classify F p -> lbl ∈ d_labels h.

(** A pending pair of the refinement of tree [d] that lies on the way of
    the point [p]. *)
Definition entry_ok (n : nat) (F : Forest) (d : nat) (p : list Real)
    (e : Hyperrectangle * DecisionTreeNode) : Prop :=
  in_hyperrectangle p (fst e) /\ node_wf n (here (snd e)) /\
  avoids_gaps p (here (snd e)) /\
  decision_tree_walk (here (snd e)) (up (snd e)) p = tree_leaf F d p.

Lemma min_glb a b c : c <= a -> c <= b -> c <= min a b.
Proof. intros. unfold min. qcases; lra. Qed.

Lemma max_lub a b c : a <= c -> b <= c -> max a b <= c.
Proof. intros. unfold max. qcases; lra. Qed.

Lemma in_hyperrectangle_replace_u p x (i : nat) v :
  in_hyperrectangle p x -> p !!! i <= v -> in_hyperrectangle p (replace_u x i v).
Proof.
  intros [Hlen H] Hv. unfold replace_u. split; [now rewrite length_insert|].
  intros j Hj. rewrite length_insert in Hj. destruct (decide (j = i)) as [->|Hne].
  - rewrite list_lookup_total_insert_eq by lia. split; cbn [l u]; [apply H; lia | exact Hv].
  - rewrite list_lookup_total_insert_ne by congruence. now apply H.
Qed.

Lemma in_hyperrectangle_replace_l p x (i : nat) v :
  in_hyperrectangle p x -> v <= p !!! i -> in_hyperrectangle p (replace_l x i v).
Proof.
  intros [Hlen H] Hv. unfold replace_l. split; [now rewrite length_insert|].
  intros j Hj. rewrite length_insert in Hj. destruct (decide (j = i)) as [->|Hne].
  - rewrite list_lookup_total_insert_eq by lia. split; cbn [l u]; [exact Hv | apply H; lia].
  - rewrite list_lookup_total_insert_ne by congruence. now apply H.
Qed.

Lemma replace_u_upper x (i : nat) v :
  (i < length x)%nat -> u (replace_u x i v !!! i) = v.
Proof. intros Hi. unfold replace_u. now rewrite list_lookup_total_insert_eq by lia. Qed.

Lemma covers_labels_irrelevant F p x z par l1 l2 :
  covers F p (mk_decorator x z par l1) -> covers F p (mk_decorator x z par l2).
Proof.
  intros [Hin Hc]. split; [exact Hin|]. cbn [decorator_get_depth] in *.
  destruct par as [par|]; inversion Hc; subst; constructor; assumption.
Qed.

Lemma priority_queue_push_fst {A B : Type} (P : PriorityQueue (A * B)) a b k :
  priority_queue_push (pq_map fst P) a k = pq_map fst (priority_queue_push P (a, b) k).
Proof. now rewrite <- priority_queue_push_map. Qed.

Lemma priority_queue_push_snd {A B : Type} (P : PriorityQueue (A * B)) a b k :
  priority_queue_push (pq_map snd P) b k = pq_map snd (priority_queue_push P (a, b) k).
Proof. now rewrite <- priority_queue_push_map. Qed.

Lemma EPSILON_pos : 0 < EPSILON.
Proof. reflexivity. Qed.

Section RefineSound.

Variable exp : Q -> Q.
Variable n : nat.
Variable F : Forest.
Variable reference : LabelSet.
Variable tier : Tier.
Hypothesis exp_ok : exp_adequate F exp.
Hypothesis F_wf : forest_wf n F.
Hypothesis tier_untiered : forall i : nat, tiers tier !!! i = 0%nat.

(** A decorator over a leaf of the tree under refinement: its labels are
    sound and it covers the points on whose way the leaf lies. *)
Lemma leaf_decorator_sound data D x' N :
  data_for F reference tier data ->
  (S (decorator_get_depth D) <= n_trees F)%nat ->
  let h0 := mk_decorator x' (Some N) (Some D) [] in
  let h := mk_decorator x' (Some N) (Some D) (decorator_compute_labels exp h0 data) in
  labels_ok n F h /\
  forall p, covers F p D -> decision_tree_node_is_leaf N = true ->
    entry_ok n F (decorator_get_depth D) p (x', N) -> covers F p h.
Proof.
  intros Hdata Hdepth h0 h. split.
  - intros p lbl Hp Hc Hl. cbn [d_labels h].
    apply (decorator_compute_labels_sound exp n F reference tier data
             p h0 lbl exp_ok F_wf Hdata Hp); [|exact Hdepth|exact Hl].
    revert Hc. apply covers_labels_irrelevant.
  - intros p [_ HcD] Hleaf (Hin & _ & _ & Hwalk). cbn [fst snd] in *.
    split; [exact Hin|]. cbn [decorator_get_depth h].
    assert (HN : N = tree_leaf F (decorator_get_depth D) p).
    { rewrite <- Hwalk. destruct N as [hr upN]. cbn [here up].
      unfold decision_tree_node_is_leaf, decision_tree_node_get_type in Hleaf.
      cbn [here] in Hleaf. destruct hr; try discriminate; reflexivity. }
    unfold h. rewrite HN. constructor. exact HcD.
Qed.

Definition refine_post (D : HyperrectangleDecorator)
    (pending : list (Hyperrectangle * DecisionTreeNode))
    (refined refined' : list HyperrectangleDecorator) : Prop :=
  (forall h, h ∈ refined' ->
     h ∈ refined \/
     (labels_ok n F h /\ decorator_get_depth h = S (decorator_get_depth D))) /\
  forall p, length p = n -> covers F p D ->
    (exists e, e ∈ pending /\ entry_ok n F (decorator_get_depth D) p e) \/
    (exists h, h ∈ refined /\ covers F p h) ->
    settled F reference p \/ exists h, h ∈ refined' /\ covers F p h.

Lemma refine_post_step D E1 r1 E2 r2 r' :
  refine_post D E2 r2 r' ->
  (forall h, h ∈ r2 ->
     h ∈ r1 \/ (labels_ok n F h /\ decorator_get_depth h = S (decorator_get_depth D))) ->
  (forall p, length p = n -> covers F p D ->
     (exists e, e ∈ E1 /\ entry_ok n F (decorator_get_depth D) p e) \/
     (exists h, h ∈ r1 /\ covers F p h) ->
     settled F reference p \/
     (exists e, e ∈ E2 /\ entry_ok n F (decorator_get_depth D) p e) \/
     (exists h, h ∈ r2 /\ covers F p h)) ->
  refine_post D E1 r1 r'.
Proof.
  intros [Hpost1 Hpost2] Hr Hp. split.
  - intros h Hh. destruct (Hpost1 h Hh) as [H2|Hnew]; [now apply Hr | now right].
  - intros p Hlen Hc Hpre. destruct (Hp p Hlen Hc Hpre) as [Hs|Hpre2]; [now left|].
    now apply Hpost2.
Qed.

Definition refine_loop_sound_at (fuel : nat) : Prop :=
  forall (Qxt : PriorityQueue (Hyperrectangle * DecisionTreeNode)) refined D data
         refined' data',
  data_for F reference tier data ->
  (S (decorator_get_depth D) <= n_trees F)%nat ->
  heap_inv (heap Qxt) ->
  refine_loop exp fuel (pq_map fst Qxt) (pq_map snd Qxt) refined D data
  = Some (refined', data') ->
  a_internal_status data' = DONT_KNOW ->
  data' = data /\ refine_post D (pq_elements Qxt) refined refined'.

(** One iteration on a leaf. *)
Lemma refine_loop_leaf fuel (Qxt Q1 : PriorityQueue (Hyperrectangle * DecisionTreeNode))
    x' N refined D data refined' data' :
  refine_loop_sound_at fuel ->
  data_for F reference tier data ->
  (S (decorator_get_depth D) <= n_trees F)%nat ->
  heap_inv (heap Q1) ->
  (forall y, y ∈ pq_elements Qxt <-> y = (x', N) \/ y ∈ pq_elements Q1) ->
  decision_tree_node_is_leaf N = true ->
  let h0 := mk_decorator x' (Some N) (Some D) [] in
  let h := mk_decorator x' (Some N) (Some D) (decorator_compute_labels exp h0 data) in
  (if set_is_disjoint (d_labels h) (labels_a (a_status data)) then
     Some (refined, found_unstable (hyperrectangle_midpoint x') data)
   else if set_is_equal (d_labels h) (labels_a (a_status data)) then
     refine_loop exp fuel (pq_map fst Q1) (pq_map snd Q1) refined D data
   else refine_loop exp fuel (pq_map fst Q1) (pq_map snd Q1) (refined ++ [h]) D data)
  = Some (refined', data') ->
  a_internal_status data' = DONT_KNOW ->
  data' = data /\ refine_post D (pq_elements Qxt) refined refined'.
Proof.
  intros IH Hdata Hdepth Hinv1 Hel Hleaf h0 h Hrun Hdk.
  destruct (leaf_decorator_sound data D x' N Hdata Hdepth) as [Hlab Hcov].
  fold h0 in Hlab, Hcov. fold h in Hlab, Hcov.
  assert (Href : labels_a (a_status data) = reference)
    by (now destruct Hdata as (_ & _ & _ & _ & -> & _)).
  destruct (set_is_disjoint (d_labels h) (labels_a (a_status data))) eqn:Hdis.
  { inversion Hrun; subst data'; discriminate Hdk. }
  destruct (set_is_equal (d_labels h) (labels_a (a_status data))) eqn:Heq.
  - destruct (IH _ _ _ _ _ _ Hdata Hdepth Hinv1 Hrun Hdk) as [-> Hpost].
    split; [reflexivity|]. eapply refine_post_step; [exact Hpost|now left|].
    intros p Hlen Hc [(e & He & Hok)|Hr]; [|now right; right].
    apply Hel in He as [->|He1]; [|right; left; exists e; now split].
    left. intros lbl Hlbl. rewrite <- Href.
    apply (set_is_equal_true _ _ Heq). apply (Hlab p lbl Hlen); [|exact Hlbl].
    now apply Hcov.
  - destruct (IH _ _ _ _ _ _ Hdata Hdepth Hinv1 Hrun Hdk) as [-> Hpost].
    split; [reflexivity|]. eapply refine_post_step; [exact Hpost| |].
    + intros h' Hh'. apply elem_of_app in Hh' as [Hh'|Hh']; [now left|].
      apply list_elem_of_singleton in Hh'. subst h'. right. split; [exact Hlab|reflexivity].
    + intros p Hlen Hc [(e & He & Hok)|Hr].
      * apply Hel in He as [->|He1]; [|right; left; exists e; now split].
        right; right. exists h. split; [|now apply Hcov].
        apply elem_of_app; right. now apply list_elem_of_singleton.
      * destruct Hr as (h' & Hh' & Hc'). right; right. exists h'. split; [|exact Hc'].
        apply elem_of_app; now left.
Qed.

Lemma refine_loop_sound fuel : refine_loop_sound_at fuel.
Proof.
  unfold refine_loop_sound_at.
  induction fuel as [|fuel IH]; intros Qxt refined D data refined' data'
    Hdata Hdepth Hinv Hrun Hdk; [discriminate|].
  cbn [refine_loop] in Hrun. rewrite priority_queue_is_empty_map in Hrun.
  destruct (priority_queue_is_empty Qxt) eqn:Hemp.
  { inversion Hrun; subst. split; [reflexivity|]. split; [now left|].
    intros p _ _ [(e & He & _)|Hr]; [|now right].
    rewrite pq_elements_empty in He by exact Hemp. now apply elem_of_nil in He. }
  destruct (pq_elements_pop Qxt Hinv Hemp) as ([x' N] & Q1 & Hpop & Hinv1 & Hel).
  rewrite !priority_queue_pop_map, Hpop in Hrun. cbn [fst snd] in Hrun.
  revert Hrun. destruct (here N) as [sc ms ns|sc w|i k lc rc] eqn:HN; intros Hrun.
  3: { assert (Htier : forall x b, adjust_tier x (a_tier data) i b = x).
       { intros x b. apply adjust_tier_untiered.
         destruct Hdata as (_ & _ & _ & _ & _ & ->). apply tier_untiered. }
       rewrite !Htier in Hrun. clear Htier.
       set (left := {| here := lc; up := mk_frame LeftSide i k rc :: up N |}) in Hrun.
       set (right := {| here := rc; up := mk_frame RightSide i k lc :: up N |}) in Hrun.
       assert (Hsplit : forall p, length p = n ->
                 entry_ok n F (decorator_get_depth D) p (x', N) ->
                 (i < length x')%nat /\ in_interval (p !!! i) (x' !!! i) /\
                 ~ (k < p !!! i /\ p !!! i < k + EPSILON) /\
                 (p !!! i <= k ->
                  forall xl, in_hyperrectangle p xl ->
                    entry_ok n F (decorator_get_depth D) p (xl, left)) /\
                 (k < p !!! i ->
                  forall xr, in_hyperrectangle p xr ->
                    entry_ok n F (decorator_get_depth D) p (xr, right))).
       { intros p Hlen (Hin & Hnwf & Hgap & Hwalk). cbn [fst snd] in *.
         rewrite HN in Hnwf, Hgap, Hwalk. cbn [node_wf avoids_gaps decision_tree_walk] in *.
         destruct Hnwf as (Hi & Hwl & Hwr). destruct Hgap as (Hg & Hgl & Hgr).
         destruct Hin as [Hlenx Hin].
         split; [lia|]. split; [apply Hin; lia|]. split; [exact Hg|]. split.
         - intros Hpk xl Hxl. apply Qleb_le in Hpk. rewrite Hpk in Hwalk.
           split; [exact Hxl|]. split; [exact Hwl|]. split; [exact Hgl|]. exact Hwalk.
         - intros Hpk xr Hxr. apply Qleb_gt in Hpk. rewrite Hpk in Hwalk.
           split; [exact Hxr|]. split; [exact Hwr|]. split; [exact Hgr|]. exact Hwalk. }
       destruct (Qleb (l (x' !!! i)) k && Qgtb (u (x' !!! i)) k) eqn:Hc1;
         [|destruct (Qleb (u (x' !!! i)) k) eqn:Hc2;
           [|destruct (Qgtb (l (x' !!! i)) k) eqn:Hc3]].
       - set (xl := replace_u x' i (min (u (x' !!! i)) k)) in Hrun.
         set (xr := replace_l x' i _) in Hrun.
         rewrite (priority_queue_push_fst Q1 _ left) in Hrun.
         rewrite (priority_queue_push_fst _ _ right) in Hrun.
         rewrite (priority_queue_push_snd Q1 xl) in Hrun.
         rewrite (priority_queue_push_snd _ xr) in Hrun.
         match type of Hrun with
         | refine_loop _ _ (pq_map fst (priority_queue_push (priority_queue_push _ _ ?pl) _ ?pr))
             _ _ _ _ = _ =>
             destruct (pq_elements_push Q1 (xl, left) pl Hinv1) as [Hinv1' Hel1];
             destruct (pq_elements_push _ (xr, right) pr Hinv1') as [Hinv2 Hel2]
         end.
         destruct (IH _ _ _ _ _ _ Hdata Hdepth Hinv2 Hrun Hdk) as [-> Hpost].
         split; [reflexivity|]. eapply refine_post_step; [exact Hpost|now left|].
         intros p Hlen Hc [(e & He & Hok)|Hr]; [|now right; right].
         right; left. apply Hel in He as [->|He1].
         + destruct (Hsplit p Hlen Hok) as (Hi & [Hlo Hhi] & Hg & Hleft & Hright).
           destruct Hok as (Hin & _). cbn [fst] in Hin.
           destruct (Qlt_le_dec k (p !!! i)) as [Hgt|Hle].
           * exists (xr, right). split; [apply Hel2; now left|]. apply Hright; [exact Hgt|].
             apply in_hyperrectangle_replace_l; [exact Hin|].
             unfold xl. rewrite replace_u_upper by exact Hi.
             apply max_lub.
             -- pose proof (min_le_r (u (x' !!! i)) k). lra.
             -- destruct (Qlt_le_dec (p !!! i) (k + EPSILON)) as [Hlt|Hge]; [|exact Hge].
                exfalso. apply Hg. now split.
           * exists (xl, left). split; [apply Hel2; right; apply Hel1; now left|].
             apply Hleft; [exact Hle|].
             apply in_hyperrectangle_replace_u; [exact Hin|]. now apply min_glb.
         + exists e. split; [apply Hel2; right; apply Hel1; now right|exact Hok].
       - rewrite (priority_queue_push_fst Q1 _ left) in Hrun.
         rewrite (priority_queue_push_snd Q1 x') in Hrun.
         match type of Hrun with
         | refine_loop _ _ (pq_map fst (priority_queue_push _ _ ?pl)) _ _ _ _ = _ =>
             destruct (pq_elements_push Q1 (x', left) pl Hinv1) as [Hinv2 Hel2]
         end.
         destruct (IH _ _ _ _ _ _ Hdata Hdepth Hinv2 Hrun Hdk) as [-> Hpost].
         split; [reflexivity|]. eapply refine_post_step; [exact Hpost|now left|].
         intros p Hlen Hc [(e & He & Hok)|Hr]; [|now right; right].
         right; left. apply Hel in He as [->|He1].
         + destruct (Hsplit p Hlen Hok) as (Hi & [Hlo Hhi] & Hg & Hleft & Hright).
           destruct Hok as (Hin & _). cbn [fst] in Hin.
           apply Qleb_le in Hc2.
           exists (x', left). split; [apply Hel2; now left|].
           apply Hleft; [lra|exact Hin].
         + exists e. split; [apply Hel2; now right|exact Hok].
       - rewrite (priority_queue_push_fst Q1 _ right) in Hrun.
         rewrite (priority_queue_push_snd Q1 x') in Hrun.
         match type of Hrun with
         | refine_loop _ _ (pq_map fst (priority_queue_push _ _ ?pl)) _ _ _ _ = _ =>
             destruct (pq_elements_push Q1 (x', right) pl Hinv1) as [Hinv2 Hel2]
         end.
         destruct (IH _ _ _ _ _ _ Hdata Hdepth Hinv2 Hrun Hdk) as [-> Hpost].
         split; [reflexivity|]. eapply refine_post_step; [exact Hpost|now left|].
         intros p Hlen Hc [(e & He & Hok)|Hr]; [|now right; right].
         right; left. apply Hel in He as [->|He1].
         + destruct (Hsplit p Hlen Hok) as (Hi & [Hlo Hhi] & Hg & Hleft & Hright).
           destruct Hok as (Hin & _). cbn [fst] in Hin.
           apply Qgtb_gt in Hc3.
           exists (x', right). split; [apply Hel2; now left|].
           apply Hright; [lra|exact Hin].
         + exists e. split; [apply Hel2; now right|exact Hok].
       - exfalso. apply Qgtb_le in Hc3. apply Qleb_gt in Hc2.
         apply andb_false_iff in Hc1 as [Hc1|Hc1].
         + apply Qleb_gt in Hc1. lra.
         + apply Qgtb_le in Hc1. lra. }
  all: eapply (refine_loop_leaf fuel Qxt Q1 x' N); eauto.
  all: unfold decision_tree_node_is_leaf; now rewrite HN.
Qed.

End RefineSound.

(** *** The best-first search over decorators *)

Lemma data_for_tick F reference t data :
  data_for F reference t data -> data_for F reference t (tick data).
Proof. intros H. exact H. Qed.

Lemma data_for_set_local_labels F reference t ls data :
  data_for F reference t data -> data_for F reference t (set_local_labels ls data).
Proof. intros H. exact H. Qed.

Lemma is_complete_spec time x data stop data1 :
  is_complete time x data = (stop, data1) ->
  if stop then a_internal_status data1 <> DONT_KNOW
  else a_internal_status data = DONT_KNOW /\ data1 = tick data.
Proof.
  unfold is_complete. destruct (a_internal_status data) eqn:Hst.
  - destruct (_ >? _)%Z; intros [= <- <-]; [discriminate|]. now split.
  - intros [= <- <-]. congruence.
  - intros [= <- <-]. congruence.
Qed.

Lemma enqueue_adjacent_spec (adj : list HyperrectangleDecorator) :
  forall Qu data Qu' data',
  enqueue_adjacent compute_priority adj (Qu, data) = (Qu', data') ->
  heap_inv (heap Qu) ->
  heap_inv (heap Qu') /\
  (forall y, y ∈ pq_elements Qu' <-> y ∈ adj \/ y ∈ pq_elements Qu) /\
  a_internal_status data' = a_internal_status data /\
  forall F reference t, data_for F reference t data -> data_for F reference t data'.
Proof.
  unfold enqueue_adjacent.
  assert (Hgen : forall (L : list HyperrectangleDecorator) Qu data Qu' data',
    fold_left (fun '(Qu, ctx) y =>
                 let '(p, ctx) := compute_priority y ctx in
                 (priority_queue_push Qu y p, ctx)) L (Qu, data) = (Qu', data') ->
    heap_inv (heap Qu) ->
    heap_inv (heap Qu') /\
    (forall y, y ∈ pq_elements Qu' <-> y ∈ L \/ y ∈ pq_elements Qu) /\
    a_internal_status data' = a_internal_status data /\
    forall F reference t, data_for F reference t data -> data_for F reference t data').
  { induction L as [|h L IH]; intros Qu data Qu' data' Hrun Hinv.
    - injection Hrun as <- <-. split; [exact Hinv|]. split; [|now split].
      intros y. rewrite elem_of_nil. tauto.
    - cbn [fold_left] in Hrun.
      destruct (compute_priority h data) as [pr data1] eqn:Hpr.
      unfold compute_priority in Hpr. injection Hpr as <- <-.
      destruct (pq_elements_push Qu h
                  (- (1000000 * hyperrectangle_volume (d_x h))
                   + 1 * depth_to_R (decorator_get_depth h)
                   + 1 * (Z2R (Z.of_nat (set_get_cardinality (a_local_labels data)))
                          - Z2R (Z.of_nat (set_get_cardinality
                                (set_intersection (a_local_labels data)
                                   (labels_a (a_status data))))))
                     / Z2R (Z.of_nat (a_n_labels data))) Hinv) as [Hinv1 Hel1].
      destruct (IH _ _ _ _ Hrun Hinv1) as (Hinv' & Hel' & Hst & Hdf).
      split; [exact Hinv'|]. split; [|split].
      + intros y. rewrite Hel', Hel1, elem_of_cons. tauto.
      + exact Hst.
      + intros F reference t Hd. apply Hdf. exact Hd. }
  intros Qu data Qu' data' Hrun Hinv.
  destruct (Hgen _ _ _ _ _ Hrun Hinv) as (Hinv' & Hel' & Hst & Hdf).
  split; [exact Hinv'|]. split; [|now split].
  intros y. rewrite Hel'. rewrite (list_elem_of_In (rev adj) y), <- in_rev, <- list_elem_of_In.
  tauto.
Qed.

Section SearchSound.

Variable exp : Q -> Q.
Variable time : nat -> Z.
Variable n : nat.
Variable F : Forest.
Variable reference : LabelSet.
Variable tier : Tier.
Hypothesis exp_ok : exp_adequate F exp.
Hypothesis F_wf : forest_wf n F.
Hypothesis tier_untiered : forall i : nat, tiers tier !!! i = 0%nat.

(** What the search keeps true of every decorator in its queue. *)
Definition queue_ok (D : HyperrectangleDecorator) : Prop :=
  (decorator_get_depth D <= n_trees F)%nat /\
  (decorator_get_depth D = n_trees F -> labels_ok n F D).

Definition avoids_all_gaps (p : list Real) : Prop :=
  forall T, T ∈ trees F -> avoids_gaps p (root T).

Lemma refine_sound fuel D data adj data1 :
  data_for F reference tier data -> queue_ok D ->
  refine exp fuel D data = Some (adj, data1) ->
  a_internal_status data1 = DONT_KNOW ->
  data1 = data /\
  (forall h, h ∈ adj -> queue_ok h) /\
  forall p, length p = n -> avoids_all_gaps p -> covers F p D ->
    settled F reference p \/ exists h, h ∈ adj /\ covers F p h.
Proof.
  intros Hdata [Hle Hlab] Hrun Hdk. unfold refine in Hrun.
  pose proof Hdata as (HF & _ & _ & _ & Href & _).
  rewrite HF in Hrun. unfold forest_get_n_trees in Hrun.
  destruct (decorator_get_depth D =? n_trees F)%nat eqn:Hd.
  - apply Nat.eqb_eq in Hd.
    destruct (set_is_equal (d_labels D) (labels_a (a_status data))) eqn:Heq;
      cbn [negb] in Hrun; injection Hrun as <- <-; [|discriminate Hdk].
    split; [reflexivity|]. split; [intros h Hh; now apply elem_of_nil in Hh|].
    intros p Hlen _ Hc. left. intros lbl Hlbl. rewrite <- Href.
    apply (set_is_equal_true _ _ Heq). now apply (Hlab Hd p lbl Hlen).
  - apply Nat.eqb_neq in Hd.
    assert (Hdepth : (S (decorator_get_depth D) <= n_trees F)%nat) by lia.
    set (N0 := decision_tree_get_root (trees F !!! decorator_get_depth D)) in Hrun.
    change (@priority_queue_create Hyperrectangle)
      with (pq_map (@fst Hyperrectangle DecisionTreeNode) priority_queue_create) in Hrun.
    change (@priority_queue_create DecisionTreeNode)
      with (pq_map (@snd Hyperrectangle DecisionTreeNode) priority_queue_create) in Hrun.
    rewrite (priority_queue_push_fst _ _ N0) in Hrun.
    rewrite (priority_queue_push_snd _ (d_x D)) in Hrun.
    destruct (pq_elements_push priority_queue_create (d_x D, N0) 0 heap_inv_create)
      as [Hinv Hel].
    destruct (refine_loop_sound exp n F reference tier exp_ok F_wf
                tier_untiered fuel _ _ _ _ _ _ Hdata Hdepth Hinv Hrun Hdk)
      as [-> [Hpost1 Hpost2]].
    split; [reflexivity|]. split.
    + intros h Hh. destruct (Hpost1 h Hh) as [Hnil|[Hl Hdh]];
        [now apply elem_of_nil in Hnil|].
      split; [lia|]. intros _. exact Hl.
    + intros p Hlen Hgaps Hc. apply (Hpost2 p Hlen Hc). left.
      exists (d_x D, N0). split; [apply Hel; now left|].
      destruct (forest_tree_wf n F (decorator_get_depth D) F_wf) as (_ & Hnwf & _); [lia|].
      split; [exact (proj1 Hc)|]. split; [exact Hnwf|]. split; [|reflexivity].
      apply Hgaps. apply list_elem_of_lookup_total_2.
      destruct F_wf as (Hlen' & _). lia.
Qed.

Lemma best_first_search_loop_sound fuel0 fuel :
  forall Qu data goal data',
  data_for F reference tier data -> heap_inv (heap Qu) ->
  (forall D, D ∈ pq_elements Qu -> queue_ok D) ->
  best_first_search_loop (is_complete time) (refine exp fuel0) compute_priority
    fuel Qu data = Some (goal, data') ->
  a_internal_status data' = DONT_KNOW ->
  data_for F reference tier data' /\
  forall p, length p = n -> avoids_all_gaps p ->
    (exists D, D ∈ pq_elements Qu /\ covers F p D) -> settled F reference p.
Proof.
  induction fuel as [|fuel IH]; intros Qu data goal data' Hdata Hinv Hok Hrun Hdk;
    [discriminate|].
  cbn [best_first_search_loop] in Hrun.
  destruct (priority_queue_is_empty Qu) eqn:Hemp.
  { injection Hrun as <- <-. split; [exact Hdata|].
    intros p _ _ (D & HD & _). rewrite pq_elements_empty in HD by exact Hemp.
    now apply elem_of_nil in HD. }
  destruct (pq_elements_pop Qu Hinv Hemp) as (D0 & Q1 & Hpop & Hinv1 & Hel).
  rewrite Hpop in Hrun.
  destruct (is_complete time D0 data) as [stop data1] eqn:Hcomp.
  apply is_complete_spec in Hcomp. destruct stop.
  { injection Hrun as <- <-. contradiction. }
  destruct Hcomp as [Hst ->].
  destruct (refine exp fuel0 D0 (tick data)) as [[adj data1]|] eqn:Href; [|discriminate].
  destruct (enqueue_adjacent compute_priority adj (Q1, data1)) as [Q2 data2] eqn:Henq.
  destruct (enqueue_adjacent_spec adj Q1 data1 Q2 data2 Henq Hinv1)
    as (Hinv2 & Hel2 & Hst2 & Hdf2).
  assert (Hdk1 : a_internal_status data1 = DONT_KNOW).
  { rewrite <- Hst2. destruct fuel as [|fuel']; [discriminate|].
    cbn [best_first_search_loop] in Hrun.
    destruct (priority_queue_is_empty Q2).
    - injection Hrun as <- <-. exact Hdk.
    - destruct (priority_queue_pop Q2) as [[y Q3]|]; [|discriminate].
      destruct (is_complete time y data2) as [stop data3] eqn:Hcomp.
      apply is_complete_spec in Hcomp. destruct stop.
      + injection Hrun as <- <-. contradiction.
      + exact (proj1 Hcomp). }
  assert (HD0 : queue_ok D0) by (apply Hok, Hel; now left).
  destruct (refine_sound fuel0 D0 (tick data) adj data1 (data_for_tick _ _ _ _ Hdata)
              HD0 Href Hdk1) as (-> & Hadj & Hcov).
  assert (Hdata2 : data_for F reference tier data2)
    by (apply Hdf2, data_for_tick, Hdata).
  assert (Hok2 : forall D, D ∈ pq_elements Q2 -> queue_ok D).
  { intros D HD. apply Hel2 in HD as [HD|HD]; [now apply Hadj|].
    apply Hok, Hel. now right. }
  destruct (IH Q2 data2 goal data' Hdata2 Hinv2 Hok2 Hrun Hdk) as [Hdata' Hrest].
  split; [exact Hdata'|].
  intros p Hlen Hgaps (D & HD & Hc). apply Hel in HD as [->|HD].
  - destruct (Hcov p Hlen Hgaps Hc) as [Hs|(h & Hh & Hch)]; [exact Hs|].
    apply (Hrest p Hlen Hgaps). exists h. split; [apply Hel2; now left|exact Hch].
  - apply (Hrest p Hlen Hgaps). exists D. split; [apply Hel2; now right|exact Hc].
Qed.

End SearchSound.

Lemma labels_at_max_intro (K : nat) (scores : list Real) (m : Real)
    (labels_array : list string) (i : nat) :
  (i < K)%nat -> scores !!! i == m ->
  labels_array !!! i ∈ labels_at_max K scores m labels_array [].
Proof.
  unfold labels_at_max. intros Hi Hs. induction K as [|K IH]; [lia|].
  rewrite for_loop_S. destruct (decide (i = K)) as [->|Hne].
  - apply Qeqb_eq in Hs. rewrite Hs. apply elem_of_set_add_element. now left.
  - destruct (Qeqb (scores !!! K) m); [|apply IH; lia].
    apply elem_of_set_add_element. right. apply IH. lia.
Qed.

Lemma forest_classify_nonempty F (x : list Real) :
  (0 < forest_get_n_labels F)%nat -> exists lbl, lbl ∈ forest_classify F x.
Proof.
  intros HK. unfold forest_classify.
  destruct (max_from_1_spec (forest_compute_decision_function F x) _ HK)
    as [_ (i & Hi & Hm)].
  exists (forest_get_labels_as_array F !!! i).
  apply labels_at_max_intro; [exact Hi|]. rewrite Hm. reflexivity.
Qed.

Lemma untiered_lookup (n i : nat) : tiers (untiered n) !!! i = 0%nat.
Proof.
  unfold untiered. cbn [tiers]. destruct (decide (i < n)%nat) as [Hi|Hi].
  - now apply lookup_total_replicate_2.
  - assert (E : replicate n 0%nat !! i = None) by (apply lookup_replicate_None; lia).
    now rewrite list_lookup_total_alt, E.
Qed.

(** C1 (as amended).  For a forest that votes by MAX, and when no feature
    is tiered, a verdict STABLE of the forest verifier is sound for every
    point of the region that lies in none of the gaps [(k, k + EPSILON)] to
    the right of a threshold of the forest: every label of such a point is a
    reference label, and the two label sets coincide when the reference set
    is a single label.  (Under MAX every score, concrete or abstract, is a
    count of votes, which the doubles of the program hold exactly; the
    scores of AVERAGE and SOFTARGMAX are sums of rounded doubles, added by
    the verifier and by the classifier in different orders, and are left
    out.) *)
Theorem forest_hyperrectangle_is_stable_sound_outside_gaps
    (exp : Q -> Q) (time : nat -> Z) (fuel n : nat) (status : StabilityStatus)
    (F : Forest) (H : Hyperrectangle) (tier : Tier) (status' : StabilityStatus) :
  voting_scheme F = FOREST_VOTING_MAX ->
  forest_wf n F ->
  (forall i : nat, tiers tier !!! i = 0%nat) ->
  forest_hyperrectangle_is_stable exp time fuel status F H tier = Some status' ->
  result status' = STABILITY_TRUE ->
  forall p : list Real,
    length p = n -> in_hyperrectangle p H ->
    (forall T, T ∈ trees F -> avoids_gaps p (root T)) ->
    (forall lbl, lbl ∈ forest_classify F p -> lbl ∈ labels_a status') /\
    (forall a, labels_a status' = [a] ->
       forall lbl, lbl ∈ forest_classify F p <-> lbl = a).
Proof.
  intros Hscheme Hwf Htier Hrun Hres p Hlen Hin Hgaps.
  assert (Hexp : exp_adequate F exp)
    by (intros Es; rewrite Hscheme in Es; discriminate Es).
  assert (Hsub : forall lbl, lbl ∈ forest_classify F p -> lbl ∈ labels_a status').
  { unfold forest_hyperrectangle_is_stable in Hrun.
    set (status0 := if has_sample status then status else _) in Hrun.
    set (data0 := mk_analysis_data _ _ _ _ _ _ _ _ _ _ _) in Hrun.
    destruct (best_first_search _ _ _ _ _ _) as [[g data']|] eqn:Hbfs; [|discriminate].
    injection Hrun as <-.
    assert (Hdk : a_internal_status data' = DONT_KNOW).
    { destruct (a_internal_status data'); [reflexivity| |];
        destruct (has_sample status); discriminate Hres. }
    unfold best_first_search in Hbfs.
    set (start := mk_decorator H None None []) in Hbfs.
    destruct (pq_elements_push priority_queue_create start 0 heap_inv_create)
      as [Hinv Hel].
    assert (Hdata : data_for F (labels_a status0) tier data0) by (repeat split).
    assert (Hok : forall D, D ∈ pq_elements (priority_queue_push priority_queue_create start 0)
                    -> queue_ok n F D).
    { intros D HD. apply Hel in HD as [->|HD]; [|now apply elem_of_nil in HD].
      destruct Hwf as (_ & HT & _). split; cbn [decorator_get_depth start]; lia. }
    destruct (best_first_search_loop_sound exp time n F (labels_a status0) tier
                Hexp Hwf Htier fuel fuel _ _ _ _ Hdata Hinv Hok Hbfs Hdk) as [Hdata' Hall].
    assert (Hset : settled F (labels_a status0) p).
    { apply Hall; [exact Hlen|exact Hgaps|]. exists start. split; [apply Hel; now left|].
      split; [exact Hin|]. constructor. }
    intros lbl Hlbl. specialize (Hset lbl Hlbl).
    destruct Hdata' as (_ & _ & _ & _ & Href & _).
    rewrite Hdk. destruct (has_sample status); cbn; rewrite Href; exact Hset. }
  split; [exact Hsub|].
  intros a Ha lbl. split.
  - intros Hl. apply Hsub in Hl. rewrite Ha in Hl. now apply list_elem_of_singleton in Hl.
  - intros ->. destruct Hwf as (_ & _ & HK & _).
    destruct (forest_classify_nonempty F p HK) as (lbl0 & Hl0).
    pose proof (Hsub lbl0 Hl0) as Hl1. rewrite Ha in Hl1.
    apply list_elem_of_singleton in Hl1. now subst lbl0.
Qed.

(** Three forests over one feature and the labels A, B. *)
Definition one_feature_tree (r : Node) : DecisionTree :=
  {| root := r; space_size := 1; labels := ["A"; "B"]%string; n_labels := 2 |}.

Definition leaf_tie : Node := decision_tree_leaf_create [5; 5]%Z.

Definition forest_gap : Forest :=
  {| voting_scheme := FOREST_VOTING_MAX;
     trees := [one_feature_tree (Split 0 0 leaf_A leaf_B);
               one_feature_tree (Split 0 (1 # 2000000000000) leaf_B leaf_A);
               one_feature_tree leaf_A];
     n_trees := 3 |}.

Definition forest_tie : Forest :=
  {| voting_scheme := FOREST_VOTING_MAX;
     trees := [one_feature_tree leaf_tie;
               one_feature_tree (Split 0 (1 # 4) leaf_A (Split 0 (3 # 4) leaf_tie leaf_B))];
     n_trees := 2 |}.

Definition symmetric_box : Hyperrectangle := [ {| l := -1; u := 1 |} ].

Definition constant_exp : Q -> Q := fun _ => 1.
Definition still_clock : nat -> Z := fun _ => 0%Z.

(** C1 (counterexample).  On [forest_gap] and the region [-1, 1] the
    verifier answers STABLE with reference label A, although the point
    1/2000000000000 of the region, which lies in the gap to the right of
    the threshold 0, has label B.  On [forest_tie] and the region [0, 1] it
    answers STABLE with reference labels A and B, although the point 0 has
    the label A only. *)
Lemma forest_hyperrectangle_is_stable_not_sound :
  (exists status',
     forest_hyperrectangle_is_stable constant_exp still_clock 20 initial_status
       forest_gap symmetric_box (untiered 1) = Some status' /\
     result status' = STABILITY_TRUE /\ labels_a status' = ["A"%string] /\
     in_hyperrectangle [1 # 2000000000000] symmetric_box /\
     forest_classify forest_gap [1 # 2000000000000] = ["B"%string]) /\
  (exists status',
     forest_hyperrectangle_is_stable constant_exp still_clock 20 initial_status
       forest_tie unit_box (untiered 1) = Some status' /\
     result status' = STABILITY_TRUE /\ labels_a status' = ["A"; "B"]%string /\
     in_hyperrectangle [0] unit_box /\
     forest_classify forest_tie [0] = ["A"%string]).
Proof.
  split.
  - eexists. split; [vm_compute; reflexivity|]. split; [reflexivity|].
    split; [reflexivity|]. split; [|vm_compute; reflexivity].
    split; [reflexivity|]. intros i Hi. simpl in Hi.
    assert (i = 0%nat) as -> by lia. split; vm_compute; discriminate.
  - eexists. split; [vm_compute; reflexivity|]. split; [reflexivity|].
    split; [reflexivity|]. split; [|vm_compute; reflexivity].
    apply unit_box_point. split; lra.
Qed.

Lemma forest_gap_wf : forest_wf 1 forest_gap.
Proof.
  split; [reflexivity|]. split; [vm_compute; lia|]. split; [vm_compute; lia|].
  assert (HA : leaf_ok FOREST_VOTING_MAX 2 leaf_A).
  { split; [reflexivity|]. split.
    - intros [|[|i]] Hi; [vm_compute; discriminate..|lia].
    - exists 0%nat. split; [lia|reflexivity]. }
  assert (HB : leaf_ok FOREST_VOTING_MAX 2 leaf_B).
  { split; [reflexivity|]. split.
    - intros [|[|i]] Hi; [vm_compute; discriminate..|lia].
    - exists 1%nat. split; [lia|reflexivity]. }
  intros T HT. cbn [trees forest_gap] in HT.
  repeat (apply elem_of_cons in HT as [->|HT]);
    [| |now (split; [reflexivity|]; split; [exact I|exact HA])
     |now apply elem_of_nil in HT].
  - split; [reflexivity|]. split; [simpl; lia|]. split; [exact HA|exact HB].
  - split; [reflexivity|]. split; [simpl; lia|]. split; [exact HB|exact HA].
Qed.

Lemma forest_hyperrectangle_is_stable_sound_outside_gaps_witness :
  let status' :=
    {| result := STABILITY_TRUE; has_sample := false; sample_a := [0 # 2];
       sample_b := []; labels_a := ["A"%string]; timeout := 1 |} in
  forest_hyperrectangle_is_stable constant_exp still_clock 20 initial_status
    forest_gap symmetric_box (untiered 1) = Some status' /\
  in_hyperrectangle [1] symmetric_box /\
  (forall T, T ∈ trees forest_gap -> avoids_gaps [1] (root T)) /\
  (forall lbl, lbl ∈ forest_classify forest_gap [1] -> lbl ∈ labels_a status') /\
  (forall a, labels_a status' = [a] ->
     forall lbl, lbl ∈ forest_classify forest_gap [1] <-> lbl = a).
Proof.
  intros status'.
  assert (Hrun : forest_hyperrectangle_is_stable constant_exp still_clock 20 initial_status
                   forest_gap symmetric_box (untiered 1) = Some status')
    by (vm_compute; reflexivity).
  assert (Hin : in_hyperrectangle [1] symmetric_box).
  { split; [reflexivity|]. intros i Hi. simpl in Hi.
    assert (i = 0%nat) as -> by lia. split; vm_compute; discriminate. }
  assert (Hgaps : forall T, T ∈ trees forest_gap -> avoids_gaps [1] (root T)).
  { intros T HT. cbn [trees forest_gap] in HT.
    repeat (apply elem_of_cons in HT as [->|HT]);
      [| |exact I|now apply elem_of_nil in HT].
    - split; [|split; exact I]. intros [_ Hlt]. vm_compute in Hlt. discriminate.
    - split; [|split; exact I]. intros [_ Hlt]. vm_compute in Hlt. discriminate. }
  split; [exact Hrun|]. split; [exact Hin|]. split; [exact Hgaps|].
  apply (forest_hyperrectangle_is_stable_sound_outside_gaps constant_exp still_clock 20 1
           initial_status forest_gap symmetric_box (untiered 1) status').
  - reflexivity.
  - exact forest_gap_wf.
  - exact (untiered_lookup 1).
  - exact Hrun.
  - reflexivity.
  - reflexivity.
  - exact Hin.
  - exact Hgaps.
Defined.

(* ================================================================== *)
(** * Part III: further properties                                     *)
(* ================================================================== *)

(** ** Intervals as a lattice *)

(** [x] lies within [z], bound by bound. *)
Definition interval_included (x z : Interval) : Prop := l z <= l x /\ u x <= u z.

(** X1.  [interval_glb] is the exact intersection: a number lies in the
    result exactly when it lies in both arguments. *)
Theorem interval_glb_meet (a : Q) (x y : Interval) :
  in_interval a (interval_glb x y) <-> in_interval a x /\ in_interval a y.
Proof.
  unfold in_interval, interval_glb. cbn [l u].
  destruct (Qgtb (l x) (l y)) eqn:E1; [apply Qgtb_gt in E1 | apply Qgtb_le in E1];
    (destruct (Qltb (u x) (u y)) eqn:E2; [apply Qltb_lt in E2 | apply Qltb_ge in E2]);
    split; intros H; repeat split; try lra.
Qed.

(** X2.  [interval_lub] is the least upper bound for the inclusion of
    bounds, and it contains every number of either argument. *)
Theorem interval_lub_join (x y : Interval) :
  interval_included x (interval_lub x y) /\
  interval_included y (interval_lub x y) /\
  (forall z, interval_included x z -> interval_included y z ->
     interval_included (interval_lub x y) z) /\
  (forall a, in_interval a x \/ in_interval a y -> in_interval a (interval_lub x y)).
Proof.
  unfold interval_included, in_interval, interval_lub. cbn [l u].
  destruct (Qltb (l x) (l y)) eqn:E1; [apply Qltb_lt in E1 | apply Qltb_ge in E1];
    (destruct (Qgtb (u x) (u y)) eqn:E2; [apply Qgtb_gt in E2 | apply Qgtb_le in E2]);
    repeat split; try lra; try (intros; lra).
  all: intros z [? ?] [? ?]; try lra; try (split; lra).
Qed.

(** X3.  On non-empty intervals the two comparisons decide the order of
    the concretisations: [interval_is_lt x y] holds exactly when every number
    of [x] is below every number of [y], and [interval_is_leq] likewise for
    the weak order. *)
Theorem interval_order_decides (x y : Interval) :
  interval_is_bottom x = false -> interval_is_bottom y = false ->
  (interval_is_lt x y = true <->
     forall a b, in_interval a x -> in_interval b y -> a < b) /\
  (interval_is_leq x y = true <->
     forall a b, in_interval a x -> in_interval b y -> a <= b).
Proof.
  unfold interval_is_bottom, interval_is_lt, interval_is_leq, in_interval.
  intros Hx Hy. apply Qgtb_le in Hx. apply Qgtb_le in Hy.
  rewrite Qltb_lt, Qleb_le. split; split.
  - intros H a b [_ Ha] [Hb _]. lra.
  - intros H. apply (H (u x) (l y)); split; lra.
  - intros H a b [_ Ha] [Hb _]. lra.
  - intros H. apply (H (u x) (l y)); split; lra.
Qed.

Lemma interval_order_decides_witness :
  interval_is_bottom {| l := 0; u := 1 |} = false /\
  interval_is_bottom {| l := 2; u := 3 |} = false /\
  (interval_is_lt {| l := 0; u := 1 |} {| l := 2; u := 3 |} = true <->
     forall a b, in_interval a {| l := 0; u := 1 |} ->
                 in_interval b {| l := 2; u := 3 |} -> a < b).
Proof.
  split; [reflexivity|]. split; [reflexivity|].
  exact (proj1 (interval_order_decides {| l := 0; u := 1 |} {| l := 2; u := 3 |}
                  eq_refl eq_refl)).
Defined.

(** Exact power of a number. *)
Fixpoint real_power (a : Q) (n : nat) : Q :=
  match n with
  | O => 1
  | S n => real_power a n * a
  end.

(** X4.  With outward rounding, [interval_pow x degree] contains the
    [degree]-th power of every number of [x] for every degree of at least 1;
    for the degree 0 it returns [x] itself, not the interval of 1. *)
Theorem interval_pow_sound (round_down round_up : Q -> Q) (x : Interval) (a : Q)
    (degree : nat) :
  (forall q, round_down q <= q) -> (forall q, q <= round_up q) ->
  in_interval a x ->
  ((1 <= degree)%nat ->
     in_interval (real_power a degree) (interval_pow round_down round_up x degree)) /\
  interval_pow round_down round_up x 0 = x.
Proof.
  intros Hd Hu Ha. split; [|reflexivity].
  intros Hdeg. destruct degree as [|n]; [lia|]. clear Hdeg.
  unfold interval_pow. replace (S n - 1)%nat with n by lia.
  induction n as [|n IH].
  - simpl. apply (in_interval_eq a); [lra | exact Ha].
  - rewrite for_from_S. cbn [real_power] in *.
    now apply interval_mul_sound.
Qed.

Lemma interval_pow_sound_witness :
  in_interval 2 {| l := 1; u := 3 |} /\
  in_interval (real_power 2 3) (interval_pow exact exact {| l := 1; u := 3 |} 3).
Proof.
  assert (H : in_interval 2 {| l := 1; u := 3 |}) by (split; vm_compute; discriminate).
  split; [exact H|].
  apply (interval_pow_sound exact exact {| l := 1; u := 3 |} 2 3); [| |exact H|lia].
  - intros q. apply Qle_refl.
  - intros q. apply Qle_refl.
Defined.

(** ** Hyperrectangles as sets of points *)

Lemma not_in_bottom_interval a x : interval_is_bottom x = true -> ~ in_interval a x.
Proof.
  unfold interval_is_bottom, in_interval. rewrite Qgtb_gt. intros H [H1 H2]. lra.
Qed.

(** X5.  Although [hyperrectangle_glb] is not a component-wise operation,
    it is the exact intersection of the two regions: a point lies in the
    result exactly when it lies in both arguments. *)
Theorem hyperrectangle_glb_exact (r x y : Hyperrectangle) (p : list Real) :
  length r = length x -> length y = length x ->
  in_hyperrectangle p (hyperrectangle_glb r x y) <->
  in_hyperrectangle p x /\ in_hyperrectangle p y.
Proof.
  intros Hr Hy. unfold hyperrectangle_glb.
  change (for_loop (length x) _ r) with (for_loop (length x) (glb_body x y) r).
  assert (Hmeet : forall a I J,
            in_interval a (interval_glb I J) <-> in_interval a I /\ in_interval a J).
  { intros a I J. unfold in_interval, interval_glb. cbn [l u].
    destruct (Qgtb (l I) (l J)) eqn:E1; [apply Qgtb_gt in E1 | apply Qgtb_le in E1];
      (destruct (Qltb (u I) (u J)) eqn:E2; [apply Qltb_lt in E2 | apply Qltb_ge in E2]);
      split; intros H; repeat split; try lra. }
  destruct (hyperrectangle_glb_spec r x y (length x)) as (Hlen & Hpos & Hzero); [lia|].
  set (g := for_loop (length x) (glb_body x y) r) in *.
  assert (Hget : forall i : nat, (i < length x)%nat ->
            g !!! i = if (i =? 0)%nat && glb_has_bottom x y (length x)
                      then bottom_interval else interval_glb (x !!! i) (y !!! i)).
  { intros i Hi. apply list_lookup_total_correct. destruct i as [|i].
    - rewrite Hzero by lia. simpl. reflexivity.
    - rewrite Hpos by lia. destruct (decide (S i < length x)%nat); [reflexivity|lia]. }
  unfold in_hyperrectangle. rewrite Hlen, Hr, Hy.
  destruct (glb_has_bottom x y (length x)) eqn:Hb.
  - (* some component of the intersection is empty *)
    unfold glb_has_bottom in Hb. apply existsb_exists in Hb as (i & Hi & Hbi).
    apply in_seq in Hi. split.
    + intros [Hlp Hall]. exfalso.
      specialize (Hall 0%nat ltac:(lia)). rewrite Hget in Hall by lia. simpl in Hall.
      revert Hall. now apply not_in_bottom_interval.
    + intros [[Hlp Hx] [_ Hyy]]. exfalso.
      apply (not_in_bottom_interval (p !!! i) _ Hbi).
      apply Hmeet. split; [apply Hx | apply Hyy]; lia.
  - split.
    + intros [Hlp Hall]. split; (split; [exact Hlp|]); intros i Hi;
        specialize (Hall i Hi); rewrite Hget, andb_false_r in Hall by exact Hi;
        now apply Hmeet in Hall.
    + intros [[Hlp Hx] [_ Hyy]]. split; [exact Hlp|]. intros i Hi.
      rewrite Hget, andb_false_r by exact Hi.
      apply Hmeet. split; [apply Hx | apply Hyy]; exact Hi.
Qed.

Lemma hyperrectangle_glb_exact_witness :
  let x := [ {| l := 0; u := 2 |}; {| l := 0; u := 1 |} ] in
  let y := [ {| l := 1; u := 3 |}; {| l := 0; u := 1 |} ] in
  length x = length x /\ length y = length x /\
  (in_hyperrectangle [1; 0] (hyperrectangle_glb x x y) <->
   in_hyperrectangle [1; 0] x /\ in_hyperrectangle [1; 0] y).
Proof.
  intros x y. split; [reflexivity|]. split; [reflexivity|].
  exact (hyperrectangle_glb_exact x x y [1; 0] eq_refl eq_refl).
Defined.

(** X6.  [hyperrectangle_is_bottom] answers no exactly when the
    hyperrectangle contains a point, and the corner of its lower bounds is
    then one of its points. *)
Theorem hyperrectangle_is_bottom_spec (x : Hyperrectangle) :
  (hyperrectangle_is_bottom x = false <-> exists p, in_hyperrectangle p x) /\
  (hyperrectangle_is_bottom x = false -> in_hyperrectangle (map l x) x).
Proof.
  assert (Hcorner : hyperrectangle_is_bottom x = false ->
            in_hyperrectangle (map l x) x).
  { intros Hb. split; [apply length_map|].
    intros i Hi. destruct (lookup_lt_is_Some_2 x i Hi) as [xi Hxi].
    rewrite (list_lookup_total_correct _ _ _ Hxi).
    assert (Hm : map l x !! i = Some (l xi)).
    { change (map l x) with (l <$> x). now rewrite list_lookup_fmap, Hxi. }
    rewrite (list_lookup_total_correct _ _ _ Hm).
    assert (Hnb : interval_is_bottom xi = false -> in_interval (l xi) xi).
    { unfold interval_is_bottom, in_interval. rewrite Qgtb_le.
      intros H. split; lra. }
    apply Hnb. unfold hyperrectangle_is_bottom in Hb.
    destruct (interval_is_bottom xi) eqn:E; [|reflexivity].
    assert (existsb interval_is_bottom x = true) as Hex; [|congruence].
    apply existsb_exists. exists xi. split; [|exact E].
    apply (proj1 (list_elem_of_In x xi)). exact (list_elem_of_lookup_2 x i xi Hxi). }
  assert (Hex : (exists p, in_hyperrectangle p x) -> hyperrectangle_is_bottom x = false).
  { intros [p [Hlen Hp]]. unfold hyperrectangle_is_bottom.
    destruct (existsb interval_is_bottom x) eqn:E; [|reflexivity]. exfalso.
    apply existsb_exists in E as (xi & Hin & Hb).
    apply list_elem_of_In, list_elem_of_lookup in Hin as [i Hi].
    apply (not_in_bottom_interval (p !!! i) xi Hb).
    rewrite <- (list_lookup_total_correct _ _ _ Hi). apply Hp.
    now apply lookup_lt_Some in Hi. }
  split; [split|]; auto.
  intros H. exists (map l x). now apply Hcorner.
Qed.

(** X7.  The volume (the product of the radii) of a non-empty
    hyperrectangle is not negative, and it does not exceed the volume of a
    hyperrectangle that includes it component by component. *)
Theorem hyperrectangle_volume_monotone (x y : Hyperrectangle) :
  length x = length y ->
  hyperrectangle_is_bottom x = false ->
  (forall i : nat, (i < length x)%nat -> interval_included (x !!! i) (y !!! i)) ->
  0 <= hyperrectangle_volume x <= hyperrectangle_volume y.
Proof.
  intros Hlen Hb Hinc. unfold hyperrectangle_volume. rewrite <- Hlen.
  assert (Hrad : forall i : nat, (i < length x)%nat ->
            0 <= interval_radius (x !!! i) <= interval_radius (y !!! i)).
  { intros i Hi. destruct (Hinc i Hi) as [H1 H2].
    assert (Hnb : interval_is_bottom (x !!! i) = false).
    { unfold hyperrectangle_is_bottom in Hb.
      destruct (interval_is_bottom (x !!! i)) eqn:E; [|reflexivity].
      assert (existsb interval_is_bottom x = true) as Hex; [|congruence].
      apply existsb_exists. exists (x !!! i). split; [|exact E].
      apply (proj1 (list_elem_of_In x (x !!! i))). now apply list_elem_of_lookup_total_2. }
    unfold interval_is_bottom in Hnb. apply Qgtb_le in Hnb.
    unfold interval_radius in *. lra. }
  assert (G : forall n : nat, (n <= length x)%nat ->
            0 <= for_loop n (fun i volume => volume * interval_radius (x !!! i)) 1
              <= for_loop n (fun i volume => volume * interval_radius (y !!! i)) 1).
  { induction n as [|n IH]; intros Hn.
    - unfold for_loop; simpl. lra.
    - rewrite !for_loop_S. destruct IH as [IH1 IH2]; [lia|].
      destruct (Hrad n ltac:(lia)) as [R1 R2].
      set (vx := for_loop n _ 1) in *. set (vy := for_loop n _ 1) in *.
      split; nra. }
  now apply G.
Qed.

Lemma hyperrectangle_volume_monotone_witness :
  0 <= hyperrectangle_volume [ {| l := 0; u := 1 |} ]
    <= hyperrectangle_volume [ {| l := -1; u := 2 |} ].
Proof.
  apply hyperrectangle_volume_monotone; [reflexivity|reflexivity|].
  intros i Hi. simpl in Hi. assert (i = 0%nat) as -> by lia.
  split; vm_compute; discriminate.
Defined.

(** ** Sets of labels *)

Lemma set_equality_string_true x y : set_equality_string x y = true <-> x = y.
Proof. apply String.eqb_eq. Qed.

Lemma set_add_element_NoDup (S : LabelSet) (x : string) :
  NoDup S -> NoDup (set_add_element S x).
Proof.
  intros Hnd. unfold set_add_element. destruct (set_has_element S x) eqn:E; [exact Hnd|].
  apply NoDup_app. split; [exact Hnd|]. split; [|apply NoDup_singleton].
  intros y Hy Hyx. apply list_elem_of_singleton in Hyx. subst y.
  apply set_has_element_true in Hy. congruence.
Qed.

(** X8.  [set_add_element] adds exactly the given element, keeps a set free
    of repetitions, and adding an element twice is adding it once. *)
Theorem set_add_element_spec (S : LabelSet) (x : string) :
  (forall y, y ∈ set_add_element S x <-> y = x \/ y ∈ S) /\
  (NoDup S -> NoDup (set_add_element S x)) /\
  set_add_element (set_add_element S x) x = set_add_element S x /\
  (set_has_element S x = false ->
   set_get_cardinality (set_add_element S x) = Datatypes.S (set_get_cardinality S)).
Proof.
  split; [intros y; apply elem_of_set_add_element|]. split; [|split].
  - apply set_add_element_NoDup.
  - assert (H : set_has_element (set_add_element S x) x = true).
    { apply set_has_element_true, elem_of_set_add_element. now left. }
    unfold set_add_element at 1. now rewrite H.
  - intros E. unfold set_add_element, set_get_cardinality. rewrite E, length_app.
    simpl. lia.
Qed.

(** X9.  On sets free of repetitions [set_is_equal] decides whether the
    two sets have the same elements. *)
Theorem set_is_equal_spec (A B : LabelSet) :
  NoDup A -> NoDup B ->
  (set_is_equal A B = true <-> forall x, x ∈ A <-> x ∈ B).
Proof.
  intros HA HB. split; [apply set_is_equal_true|].
  intros H. unfold set_is_equal.
  assert (Hlen : length A = length B).
  { apply Nat.le_antisymm; apply submseteq_length, NoDup_submseteq; try assumption;
      intros x Hx; now apply H. }
  rewrite Hlen, Nat.eqb_refl. apply andb_true_iff.
  split; apply set_is_subset_true; intros x Hx; now apply H.
Qed.

Lemma set_is_equal_spec_witness :
  NoDup ["A"; "B"]%string /\ NoDup ["B"; "A"]%string /\
  (set_is_equal ["A"; "B"]%string ["B"; "A"]%string = true <->
   forall x, x ∈ ["A"; "B"]%string <-> x ∈ ["B"; "A"]%string).
Proof.
  assert (H1 : NoDup ["A"; "B"]%string).
  { apply NoDup_cons. split; [|apply NoDup_singleton].
    intros H. apply list_elem_of_singleton in H. discriminate. }
  assert (H2 : NoDup ["B"; "A"]%string).
  { apply NoDup_cons. split; [|apply NoDup_singleton].
    intros H. apply list_elem_of_singleton in H. discriminate. }
  split; [exact H1|]. split; [exact H2|].
  exact (set_is_equal_spec _ _ H1 H2).
Defined.

Lemma set_is_proper_subset_loop_count elements B n m :
  set_is_proper_subset_loop elements B n = Some m -> m = (n + length elements)%nat.
Proof.
  revert n. induction elements as [|a elements IH]; intros n; simpl.
  - intros [= <-]. lia.
  - destruct (set_has_element B a); simpl; [|discriminate].
    intros H. apply IH in H. lia.
Qed.

(** X10.  [set_is_proper_subset] never answers yes: when every element of
    [A] is found in [B] the counter [n_common] equals the size of [A], which
    is the case in which the function returns 0. *)
Theorem set_is_proper_subset_never (A B : LabelSet) :
  set_is_proper_subset A B = false.
Proof.
  unfold set_is_proper_subset.
  destruct (set_is_proper_subset_loop A B 0) as [m|] eqn:E; [|reflexivity].
  apply set_is_proper_subset_loop_count in E. subst m. simpl.
  now rewrite Nat.eqb_refl.
Qed.

(** A loop that adds to [T] the elements of [L] that pass a test. *)
Lemma set_filter_loop_spec (f : string -> bool) (g : LabelSet -> string -> LabelSet)
    (L : list string) :
  (forall T x, g T x = if f x then set_add_element T x else T) ->
  forall T,
    (forall y, y ∈ fold_left g L T <-> y ∈ T \/ (y ∈ L /\ f y = true)) /\
    (NoDup T -> NoDup (fold_left g L T)).
Proof.
  intros Hg. induction L as [|a L IH]; intros T; simpl.
  - split; [|auto]. intros y. rewrite elem_of_nil. tauto.
  - destruct (IH (g T a)) as [IHm IHn]. split.
    + intros y. rewrite IHm, Hg, elem_of_cons. destruct (f a) eqn:E.
      * rewrite elem_of_set_add_element. split; [|intros [?|[[->|?] ?]]; auto].
        intros [[->|?]|[? ?]]; auto.
      * split; [intros [?|[? ?]]; auto|].
        intros [?|[[->|?] ?]]; auto; congruence.
    + intros HT. apply IHn. rewrite Hg. destruct (f a); [|exact HT].
      now apply set_add_element_NoDup.
Qed.

(** X11.  The set operations compute the union, the intersection, the
    difference and the symmetric difference, and their results are free of
    repetitions whatever the arguments. *)
Theorem set_operations_spec (A B : LabelSet) :
  (forall x, x ∈ set_union A B <-> x ∈ A \/ x ∈ B) /\
  (forall x, x ∈ set_intersection A B <-> x ∈ A /\ x ∈ B) /\
  (forall x, x ∈ set_difference A B <-> x ∈ A /\ ~ x ∈ B) /\
  (forall x, x ∈ set_symmetric_difference A B <->
             (x ∈ A /\ ~ x ∈ B) \/ (x ∈ B /\ ~ x ∈ A)) /\
  NoDup (set_union A B) /\ NoDup (set_intersection A B) /\
  NoDup (set_difference A B) /\ NoDup (set_symmetric_difference A B).
Proof.
  pose proof (set_filter_loop_spec (fun _ => true) (fun T x => set_add_element T x))
    as Hall.
  assert (Hunion : forall A B,
            (forall x, x ∈ set_union A B <-> x ∈ A \/ x ∈ B) /\ NoDup (set_union A B)).
  { intros A' B'. unfold set_union.
    destruct (Hall A' ltac:(reflexivity) []) as [Ha Hna].
    destruct (Hall B' ltac:(reflexivity)
                (fold_left (fun T x => set_add_element T x) A' [])) as [Hb Hnb].
    split; [|apply Hnb, Hna, NoDup_nil_2].
    intros x. rewrite Hb, Ha, elem_of_nil. tauto. }
  assert (Hdiff : forall A B,
            (forall x, x ∈ set_difference A B <-> x ∈ A /\ ~ x ∈ B)
            /\ NoDup (set_difference A B)).
  { intros A' B'. unfold set_difference.
    destruct (set_filter_loop_spec (fun x => negb (set_has_element B' x))
                (fun T x => if negb (set_has_element B' x) then set_add_element T x else T)
                A' ltac:(reflexivity) []) as [Hm Hn].
    split; [|apply Hn, NoDup_nil_2].
    intros x. rewrite Hm, elem_of_nil, negb_true_iff, <- not_true_iff_false,
      set_has_element_true. tauto. }
  assert (Hinter : (forall x, x ∈ set_intersection A B <-> x ∈ A /\ x ∈ B)
                   /\ NoDup (set_intersection A B)).
  { unfold set_intersection.
    destruct (set_filter_loop_spec (fun x => set_has_element B x)
                (fun T x => if set_has_element B x then set_add_element T x else T)
                A ltac:(reflexivity) []) as [Hm Hn].
    split; [|apply Hn, NoDup_nil_2].
    intros x. rewrite Hm, elem_of_nil, set_has_element_true. tauto. }
  destruct (Hunion A B) as [Hu Hun]. destruct (Hdiff A B) as [Hd Hdn].
  destruct Hinter as [Hi Hin].
  destruct (Hunion (set_difference A B) (set_difference B A)) as [Hs Hsn].
  split; [exact Hu|]. split; [exact Hi|]. split; [exact Hd|].
  split; [|now repeat split].
  intros x. unfold set_symmetric_difference. cbv zeta.
  rewrite Hs, Hd, (proj1 (Hdiff B A)). reflexivity.
Qed.

Lemma set_remove_element_loop_absent fuel (i : nat) (s : LabelSet) x :
  ~ x ∈ drop i s -> set_remove_element_loop fuel i s x = s.
Proof.
  revert i s. induction fuel as [|fuel IH]; intros i s Hx; simpl; [reflexivity|].
  destruct (Nat.ltb_spec i (length s)) as [Hi|Hi]; [|reflexivity].
  destruct (lookup_lt_is_Some_2 s i Hi) as [a Ha].
  rewrite (list_lookup_total_correct _ _ _ Ha).
  rewrite (drop_S _ _ _ Ha) in Hx.
  destruct (set_equality_string a x) eqn:E.
  - apply set_equality_string_true in E. subst a. exfalso. apply Hx. now left.
  - apply IH. rewrite Nat.add_1_r. intros H. apply Hx. now right.
Qed.

Lemma set_remove_element_loop_spec fuel (i : nat) (s : LabelSet) x :
  NoDup s -> (length s - i <= fuel)%nat ->
  set_remove_element_loop fuel i s x
  = take i s ++ List.filter (fun y => negb (set_equality_string y x)) (drop i s).
Proof.
  revert i. induction fuel as [|fuel IH]; intros i Hnd Hfuel.
  - simpl. rewrite drop_ge by lia. rewrite take_ge by lia. now rewrite app_nil_r.
  - simpl. destruct (Nat.ltb_spec i (length s)) as [Hi|Hi].
    2: { rewrite drop_ge by lia. rewrite take_ge by lia. now rewrite app_nil_r. }
    destruct (lookup_lt_is_Some_2 s i Hi) as [a Ha].
    rewrite (list_lookup_total_correct _ _ _ Ha).
    rewrite (drop_S _ _ _ Ha).
    assert (Hnd' : NoDup (a :: drop (S i) s)).
    { rewrite <- (drop_S _ _ _ Ha). rewrite <- (take_drop i s) in Hnd.
      now apply NoDup_app in Hnd as (_ & _ & Hnd). }
    apply NoDup_cons in Hnd' as [Hna Hnd'].
    cbn [List.filter]. destruct (set_equality_string a x) eqn:E; cbn [negb].
    + apply set_equality_string_true in E. subst a.
      assert (Hdel : delete i s = take i s ++ drop (S i) s) by apply delete_take_drop.
      assert (Hkeep : forall L : list string, ~ x ∈ L ->
                List.filter (fun y => negb (set_equality_string y x)) L = L).
      { induction L as [|b L IHL]; intros Hb; [reflexivity|]. cbn [List.filter].
        destruct (set_equality_string b x) eqn:Eb.
        - apply set_equality_string_true in Eb. subst b. exfalso. apply Hb. now left.
        - cbn [negb]. f_equal. apply IHL. intros H. apply Hb. now right. }
      rewrite Hkeep by exact Hna.
      rewrite set_remove_element_loop_absent; [exact Hdel|].
      rewrite Hdel, Nat.add_1_r. intros H. apply Hna.
      assert (Hsub : drop (S i) (take i s ++ drop (S i) s) `sublist_of` drop (S i) s).
      { rewrite drop_app_ge by (rewrite length_take; lia).
        apply sublist_drop. }
      eapply elem_of_sublist; [exact H | exact Hsub].
    + rewrite Nat.add_1_r, IH by (assumption || lia).
      rewrite (take_S_r _ _ _ Ha), <- app_assoc. reflexivity.
Qed.

(** X12.  On a set free of repetitions [set_remove_element] removes the
    given element and keeps the other elements in their order. *)
Theorem set_remove_element_spec (S : LabelSet) (x : string) :
  NoDup S ->
  set_remove_element S x = List.filter (fun y => negb (set_equality_string y x)) S /\
  (forall y, y ∈ set_remove_element S x <-> y ∈ S /\ y <> x) /\
  NoDup (set_remove_element S x).
Proof.
  intros Hnd. unfold set_remove_element.
  rewrite set_remove_element_loop_spec by (assumption || lia).
  rewrite take_0, drop_0. cbn [app]. split; [reflexivity|]. split.
  - intros y. rewrite list_elem_of_In, filter_In, <- list_elem_of_In, negb_true_iff,
      <- not_true_iff_false, set_equality_string_true. reflexivity.
  - apply NoDup_ListNoDup, List.NoDup_filter, NoDup_ListNoDup, Hnd.
Qed.

Lemma set_remove_element_spec_witness :
  set_remove_element ["A"; "B"; "C"]%string "B"%string = ["A"; "C"]%string.
Proof.
  assert (Hnd : NoDup ["A"; "B"; "C"]%string).
  { repeat (apply NoDup_cons; split;
            [intros H; repeat (apply elem_of_cons in H as [H|H]; [discriminate|]);
             now apply elem_of_nil in H|]).
    apply NoDup_nil_2. }
  rewrite (proj1 (set_remove_element_spec _ "B"%string Hnd)). reflexivity.
Defined.

Lemma set_is_disjoint_true (A B : LabelSet) :
  set_is_disjoint A B = true <-> forall y, y ∈ A -> ~ y ∈ B.
Proof.
  unfold set_is_disjoint. rewrite forallb_forall. split.
  - intros H y Hy Hb. apply list_elem_of_In in Hy. specialize (H y Hy).
    rewrite forallb_forall in H. apply list_elem_of_In in Hb. specialize (H y Hb).
    apply negb_true_iff in H.
    now rewrite (proj2 (set_equality_string_true y y) eq_refl) in H.
  - intros H a Ha. apply forallb_forall. intros b Hb. apply negb_true_iff.
    destruct (set_equality_string a b) eqn:E; [|reflexivity].
    apply set_equality_string_true in E. subst b. exfalso.
    apply (H a); now apply list_elem_of_In.
Qed.

(** X13.  The set predicates decide the relations they are named after. *)
Theorem set_predicates_decide (A B : LabelSet) (x : string) :
  (set_has_element A x = true <-> x ∈ A) /\
  (set_is_subset A B = true <-> forall y, y ∈ A -> y ∈ B) /\
  (set_is_superset A B = true <-> forall y, y ∈ B -> y ∈ A) /\
  (set_is_disjoint A B = true <-> forall y, y ∈ A -> ~ y ∈ B) /\
  (set_is_empty A = true <-> forall y, ~ y ∈ A).
Proof.
  split; [apply set_has_element_true|]. split; [apply set_is_subset_true|].
  split; [apply set_is_subset_true|]. split; [apply set_is_disjoint_true|].
  unfold set_is_empty. destruct A as [|a A]; simpl.
  - split; [intros _ y Hy; now apply elem_of_nil in Hy | reflexivity].
  - split; [discriminate|]. intros H. exfalso. apply (H a). now left.
Qed.

(** ** Classification by trees and forests *)

(** Every counting leaf holds at least one sample (the decision function
    divides by their number). *)
Fixpoint leaves_have_samples (N : Node) : Prop :=
  match N with
  | Leaf _ _ n_samples => (0 < n_samples)%Z
  | LeafLog _ _ => True
  | Split _ _ lc rc => leaves_have_samples lc /\ leaves_have_samples rc
  end.

Lemma labels_at_max_NoDup (K : nat) (scores : list Real) (m : Real)
    (labels_array : list string) :
  NoDup (labels_at_max K scores m labels_array []).
Proof.
  unfold labels_at_max. induction K as [|K IH]; [apply NoDup_nil_2|].
  rewrite for_loop_S. destruct (Qeqb (scores !!! K) m); [|exact IH].
  now apply set_add_element_NoDup.
Qed.

(** The two loops shared by the classification routines select the labels
    of maximal score. *)
Lemma classify_loops_argmax (K : nat) (scores : list Real) (labels_array : list string) :
  (0 < K)%nat ->
  let R := labels_at_max K scores (max_from 1 K scores) labels_array [] in
  (forall lbl, lbl ∈ R <->
     exists i : nat, (i < K)%nat /\ lbl = labels_array !!! i /\
       forall j : nat, (j < K)%nat -> scores !!! j <= scores !!! i) /\
  (exists lbl, lbl ∈ R) /\ NoDup R.
Proof.
  intros HK R. destruct (max_from_1_spec scores K HK) as [Hle (i0 & Hi0 & Hm)].
  split; [|split].
  - intros lbl. split.
    + intros H. apply labels_at_max_elem in H as (i & Hi & Hs & Hl).
      exists i. split; [exact Hi|]. split; [exact Hl|].
      intros j Hj. rewrite Hs. now apply Hle.
    + intros (i & Hi & -> & Hmax). apply labels_at_max_intro; [exact Hi|].
      apply Qle_antisym; [now apply Hle|]. rewrite Hm. now apply Hmax.
  - exists (labels_array !!! i0). apply labels_at_max_intro; [exact Hi0|].
    rewrite Hm. reflexivity.
  - apply labels_at_max_NoDup.
Qed.

(** X14.  For a tree whose counting leaves hold at least one sample each,
    [decision_tree_classify] returns, without repetitions, the labels whose
    score at the leaf selected by the sample is maximal; there is at least
    one.  (The score of a counting leaf is the quotient of a count by the
    positive number of samples, and such quotients compare like the
    counts.) *)
Theorem decision_tree_classify_argmax (T : DecisionTree) (x : list Real) :
  (0 < n_labels T)%nat -> leaves_have_samples (root T) ->
  (forall lbl, lbl ∈ decision_tree_classify T x <->
     exists i : nat, (i < n_labels T)%nat /\ lbl = labels T !!! i /\
       forall j : nat, (j < n_labels T)%nat ->
         decision_tree_compute_decision_function T x !!! j
         <= decision_tree_compute_decision_function T x !!! i) /\
  (exists lbl, lbl ∈ decision_tree_classify T x) /\
  NoDup (decision_tree_classify T x).
Proof.
  intros HK _. unfold decision_tree_classify.
  exact (classify_loops_argmax (n_labels T)
           (decision_tree_compute_decision_function T x) (labels T) HK).
Qed.

Lemma decision_tree_classify_argmax_witness :
  (0 < n_labels stump)%nat /\ leaves_have_samples (root stump) /\
  (exists lbl, lbl ∈ decision_tree_classify stump [1 # 4]) /\
  NoDup (decision_tree_classify stump [1 # 4]).
Proof.
  assert (H : (0 < n_labels stump)%nat) by (simpl; lia).
  assert (Hs : leaves_have_samples (root stump)) by (simpl; split; reflexivity).
  split; [exact H|]. split; [exact Hs|].
  exact (proj2 (decision_tree_classify_argmax stump [1 # 4] H Hs)).
Defined.

(** X15.  For a well-formed forest that votes by MAX, [forest_classify]
    returns, without repetitions, the labels with the largest number of
    votes; there is at least one. *)
Theorem forest_classify_argmax (n : nat) (F : Forest) (x : list Real) :
  forest_wf n F -> voting_scheme F = FOREST_VOTING_MAX ->
  (forall lbl, lbl ∈ forest_classify F x <->
     exists i : nat, (i < forest_get_n_labels F)%nat /\
       lbl = forest_get_labels_as_array F !!! i /\
       forall j : nat, (j < forest_get_n_labels F)%nat ->
         forest_compute_decision_function F x !!! j
         <= forest_compute_decision_function F x !!! i) /\
  (exists lbl, lbl ∈ forest_classify F x) /\
  NoDup (forest_classify F x).
Proof.
  intros (_ & _ & HK & _) _. unfold forest_classify.
  exact (classify_loops_argmax (forest_get_n_labels F)
           (forest_compute_decision_function F x) (forest_get_labels_as_array F) HK).
Qed.

Lemma forest_classify_argmax_witness :
  forest_wf 1 forest_gap /\
  (exists lbl, lbl ∈ forest_classify forest_gap [1]) /\
  NoDup (forest_classify forest_gap [1]).
Proof.
  split; [exact forest_gap_wf|].
  exact (proj2 (forest_classify_argmax 1 forest_gap [1] forest_gap_wf eq_refl)).
Defined.

Lemma labels_at_max_ext (K : nat) (s1 s2 : list Real) (m1 m2 : Real)
    (labels_array : list string) :
  (forall i : nat, (i < K)%nat -> Qeqb (s1 !!! i) m1 = Qeqb (s2 !!! i) m2) ->
  labels_at_max K s1 m1 labels_array [] = labels_at_max K s2 m2 labels_array [].
Proof.
  unfold labels_at_max. induction K as [|K IH]; intros H; [reflexivity|].
  rewrite !for_loop_S, IH by (intros i Hi; apply H; lia).
  now rewrite (H K) by lia.
Qed.

Lemma Qeqb_ext a b c d : (a == b <-> c == d) -> Qeqb a b = Qeqb c d.
Proof.
  intros H. destruct (Qeqb a b) eqn:E1, (Qeqb c d) eqn:E2; try reflexivity.
  - apply Qeqb_eq in E1. apply Qeqb_neq in E2. tauto.
  - apply Qeqb_neq in E1. apply Qeqb_eq in E2. tauto.
Qed.


(** X16.  A forest of a single tree whose counting leaves hold at least
    one sample each classifies every sample as the tree does, whatever the
    voting scheme.  (With one tree the forest adds a single term to a zero
    score and divides by one, so no rounding is involved.) *)
Theorem forest_single_tree (scheme : ForestVotingScheme) (T : DecisionTree)
    (x : list Real) :
  leaves_have_samples (root T) ->
  forest_classify {| voting_scheme := scheme; trees := [T]; n_trees := 1 |} x
  = decision_tree_classify T x.
Proof.
  intros _. unfold forest_classify, decision_tree_classify, forest_get_n_labels,
    forest_get_labels_as_array. cbn [trees lookup_total list_lookup_total].
  set (K := n_labels T). set (ts := decision_tree_compute_decision_function T x).
  set (fs := forest_compute_decision_function _ x).
  destruct (Nat.eq_dec K 0%nat) as [HK0|HK0]; [now rewrite HK0|].
  assert (HK : (0 < K)%nat) by lia.
  apply labels_at_max_ext. intros i Hi.
  destruct (max_from_1_spec ts K HK) as [Hmt (it & Hit & Emt)].
  destruct (max_from_1_spec fs K HK) as [Hmf (jf & Hjf & Emf)].
  assert (Hlen0 : length (replicate K (0 : Q)) = K) by apply length_replicate.
  destruct scheme.
  - (* MAX: the score is the indicator of the labels of maximal tree score *)
    assert (Hfs : forall j : nat, (j < K)%nat ->
              fs !!! j = if Qeqb (ts !!! j) (max_from 1 K ts) then 0 + 1 else 0).
    { intros j Hj. unfold fs, forest_compute_decision_function, decision_function_max,
        forest_get_n_labels. cbn [voting_scheme trees n_trees lookup_total list_lookup_total].
      fold K. rewrite for_loop_S. unfold for_loop at 2. cbn [for_from].
      cbn [lookup_total list_lookup_total]. fold ts.
      destruct (for_loop_pointwise
                  (fun j scores =>
                     if Qeqb (ts !!! j) (max_from 1 K ts)
                     then <[j := scores !!! j + 1]> scores else scores)
                  (fun j v => if Qeqb (ts !!! j) (max_from 1 K ts) then v + 1 else v)
                  K (replicate K 0)) as [_ Hget].
      { exact (pointwise_insert_if (fun j => Qeqb (ts !!! j) (max_from 1 K ts))
                 (fun _ v => v + 1)). }
      rewrite Hget by (rewrite Hlen0; exact Hj).
      destruct (decide (j < K)%nat); [|lia].
      now rewrite lookup_total_replicate_2 by exact Hj. }
    assert (Hone : max_from 1 K fs == 1).
    { apply Qle_antisym.
      - rewrite Emf, Hfs by exact Hjf. destruct (Qeqb _ _); lra.
      - assert (H1 : fs !!! it == 1).
        { rewrite Hfs by exact Hit. rewrite <- Emt.
          rewrite (proj2 (Qeqb_eq _ _) (Qeq_refl _)). lra. }
        rewrite <- H1. now apply Hmf. }
    apply Qeqb_ext. rewrite Hone, Hfs by exact Hi.
    destruct (Qeqb (ts !!! i) (max_from 1 K ts)) eqn:E.
    + apply Qeqb_eq in E. split; intros _; [exact E | lra].
    + apply Qeqb_neq in E. split; intros H; [lra | contradiction].
  - (* AVERAGE: the score is the tree score divided by one *)
    assert (Hfs : forall j : nat, (j < K)%nat -> fs !!! j == ts !!! j).
    { intros j Hj. unfold fs, forest_compute_decision_function, decision_function_average,
        forest_get_n_labels. cbn [voting_scheme trees n_trees lookup_total list_lookup_total].
      fold K. rewrite for_loop_S. unfold for_loop at 2. cbn [for_from].
      cbn [lookup_total list_lookup_total]. fold ts.
      destruct (for_loop_pointwise
                  (fun j scores =>
                     <[j := scores !!! j + ts !!! j / Z2R (Z.of_nat 1)]> scores)
                  (fun j v => v + ts !!! j / Z2R (Z.of_nat 1))
                  K (replicate K 0)) as [_ Hget].
      { exact (pointwise_insert (fun j v => v + ts !!! j / Z2R (Z.of_nat 1))). }
      rewrite Hget by (rewrite Hlen0; exact Hj).
      destruct (decide (j < K)%nat); [|lia].
      rewrite lookup_total_replicate_2 by exact Hj.
      change (Z2R (Z.of_nat 1)) with 1. field. }
    assert (Hm : max_from 1 K fs == max_from 1 K ts).
    { apply Qle_antisym.
      - rewrite Emf, Hfs by exact Hjf. now apply Hmt.
      - rewrite Emt, <- Hfs by exact Hit. now apply Hmf. }
    apply Qeqb_ext. rewrite Hm, Hfs by exact Hi. reflexivity.
  - (* SOFTARGMAX: the score is the tree score *)
    assert (Hfs : forall j : nat, (j < K)%nat -> fs !!! j == ts !!! j).
    { intros j Hj. unfold fs, forest_compute_decision_function,
        decision_function_softargmax, forest_get_n_labels.
      cbn [voting_scheme trees n_trees lookup_total list_lookup_total].
      fold K. rewrite for_loop_S. unfold for_loop at 2. cbn [for_from].
      cbn [lookup_total list_lookup_total]. fold ts.
      destruct (for_loop_pointwise
                  (fun j scores => <[j := scores !!! j + ts !!! j]> scores)
                  (fun j v => v + ts !!! j)
                  K (replicate K 0)) as [_ Hget].
      { exact (pointwise_insert (fun j v => v + ts !!! j)). }
      rewrite Hget by (rewrite Hlen0; exact Hj).
      destruct (decide (j < K)%nat); [|lia].
      rewrite lookup_total_replicate_2 by exact Hj. lra. }
    assert (Hm : max_from 1 K fs == max_from 1 K ts).
    { apply Qle_antisym.
      - rewrite Emf, Hfs by exact Hjf. now apply Hmt.
      - rewrite Emt, <- Hfs by exact Hit. now apply Hmf. }
    apply Qeqb_ext. rewrite Hm, Hfs by exact Hi. reflexivity.
Qed.

Lemma forest_single_tree_witness :
  leaves_have_samples (root stump) /\
  forest_classify
    {| voting_scheme := FOREST_VOTING_AVERAGE; trees := [stump]; n_trees := 1 |} [1 # 4]
  = decision_tree_classify stump [1 # 4].
Proof.
  assert (Hs : leaves_have_samples (root stump)) by (simpl; split; reflexivity).
  split; [exact Hs|]. exact (forest_single_tree FOREST_VOTING_AVERAGE stump [1 # 4] Hs).
Defined.

(** ** Scores of a forest, concrete and abstract *)



(** X18.  Under the MAX voting scheme, where every score is a count of
    votes, the abstract scores of a decorator enclose the concrete score of
    every point that the decorator covers: the point lies in the region of
    the decorator and selects, in the trees already refined, the leaves
    fixed by the decorator and its ancestors. *)
Theorem decorator_score_overapproximate_encloses (exp : Q -> Q) (n : nat) (F : Forest)
    (reference : LabelSet) (tier : Tier) (data : analysis_data) (p : list Real)
    (h : HyperrectangleDecorator) (j : nat) :
  forest_wf n F -> data_for F reference tier data ->
  length p = n -> covers F p h -> (decorator_get_depth h <= n_trees F)%nat ->
  voting_scheme F = FOREST_VOTING_MAX ->
  (j < forest_get_n_labels F)%nat ->
  in_interval (forest_compute_decision_function F p !!! j)
    (decorator_score_overapproximate exp
       (hyperrectangle_create (a_n_labels data)) h data !!! j).
Proof.
  intros Hwf Hdata Hpn [Hin Hchain] Hdepth Hscheme Hj.
  pose proof Hwf as (HTlen & HTpos & HKpos & _).
  pose proof Hdata as (HF & HK & HT & HL & _).
  set (K := forest_get_n_labels F) in *. set (d := decorator_get_depth h) in *.
  apply (in_interval_eq (point_score F p j));
    [symmetry; now apply (forest_decision_function_spec n)|].
  set (s1 := decorator_score_concrete (hyperrectangle_create (a_n_labels data)) h data).
  destruct (decorator_score_concrete_encloses F reference tier data p h d
              (hyperrectangle_create (a_n_labels data)) Hdata Hchain Hdepth)
    as [Hs1l Hs1v].
  { unfold hyperrectangle_create. rewrite length_replicate. exact HK. }
  fold s1 in Hs1l, Hs1v. fold K in Hs1l, Hs1v.
  set (step := fun (t : nat) (s : Hyperrectangle) =>
    match forest_get_voting_scheme (a_F data) with
    | FOREST_VOTING_MAX => decorator_score_sound_max
    | FOREST_VOTING_AVERAGE => decorator_score_sound_average
    | FOREST_VOTING_SOFTARGMAX => decorator_score_sound_softargmax
    end s h (trees (a_F data) !!! t) data).
  assert (Hstep : forall (t : nat) (s : Hyperrectangle), (d <= t < n_trees F)%nat ->
     length (step t s) = length s /\
     forall (j : nat) v, (j < K)%nat -> (j < length s)%nat ->
       in_interval v (s !!! j) ->
       in_interval (v + contribution F (tree_leaf F t p) j) (step t s !!! j)).
  { intros t s Ht. unfold step, forest_get_voting_scheme. rewrite HF.
    destruct (forest_tree_wf n F t Hwf ltac:(lia)) as (_ & Hnwf & _).
    assert (Hz : tree_leaf F t p ∈ reachable_leaves (trees F !!! t) (d_x h)).
    { rewrite reachable_leaves_reach.
      apply (walk_in_reach (length (d_x h))); [|reflexivity|exact Hin].
      destruct Hin as [Hlen _]. rewrite <- Hlen, Hpn. exact Hnwf. }
    destruct (voting_scheme F) eqn:Es.
    - now apply (decorator_score_sound_max_adds F reference tier).
    - now apply (decorator_score_sound_average_adds F reference tier).
    - now apply (decorator_score_sound_softargmax_adds F reference tier). }
  destruct (sound_steps_enclose K (n_trees F) d
              (fun t j => contribution F (tree_leaf F t p) j) step Hstep
              (n_trees F - d) s1 ltac:(lia) Hs1l Hs1v) as [Hs2l Hs2v].
  replace (d + (n_trees F - d))%nat with (n_trees F) in Hs2v by lia.
  unfold decorator_score_overapproximate, decorator_score_sound.
  fold s1. rewrite HT. fold d. fold step.
  unfold forest_get_voting_scheme. rewrite HF.
  rewrite Hscheme. now apply Hs2v.
Qed.

(** The analysis data with which [forest_hyperrectangle_is_stable] starts
    on [forest_gap]. *)
Definition forest_gap_data : analysis_data :=
  {| a_status := set_sample_a [0] ["A"%string] initial_status;
     a_F := forest_gap; a_start_time := 0; a_timeout := 1;
     a_internal_status := DONT_KNOW;
     a_labels := forest_get_labels_as_array forest_gap;
     a_n_labels := forest_get_n_labels forest_gap;
     a_n_trees := forest_get_n_trees forest_gap;
     a_local_labels := []; a_tier := untiered 1; a_clock := 1 |}.

Lemma forest_gap_data_for :
  data_for forest_gap ["A"%string] (untiered 1) forest_gap_data.
Proof. repeat split. Qed.

Lemma symmetric_box_covers :
  covers forest_gap [1] (mk_decorator symmetric_box None None []).
Proof.
  split; [|constructor]. split; [reflexivity|]. intros i Hi. simpl in Hi.
  assert (i = 0%nat) as -> by lia. split; vm_compute; discriminate.
Qed.

Lemma decorator_score_overapproximate_encloses_witness :
  in_interval (forest_compute_decision_function forest_gap [1] !!! 0%nat)
    (decorator_score_overapproximate constant_exp
       (hyperrectangle_create (a_n_labels forest_gap_data))
       (mk_decorator symmetric_box None None []) forest_gap_data !!! 0%nat).
Proof.
  apply (decorator_score_overapproximate_encloses constant_exp 1 forest_gap
           ["A"%string] (untiered 1) forest_gap_data [1]).
  - exact forest_gap_wf.
  - exact forest_gap_data_for.
  - reflexivity.
  - exact symmetric_box_covers.
  - simpl. lia.
  - reflexivity.
  - vm_compute. lia.
Defined.

(** X19.  Under the MAX voting scheme the label set computed for a
    decorator contains every label of every point that the decorator covers,
    so it is never disjoint from the labels of such a point. *)
Theorem decorator_compute_labels_overapproximates (exp : Q -> Q) (n : nat) (F : Forest)
    (reference : LabelSet) (tier : Tier) (data : analysis_data) (p : list Real)
    (h : HyperrectangleDecorator) :
  voting_scheme F = FOREST_VOTING_MAX ->
  forest_wf n F -> data_for F reference tier data ->
  length p = n -> covers F p h -> (decorator_get_depth h <= n_trees F)%nat ->
  set_is_subset (forest_classify F p) (decorator_compute_labels exp h data) = true /\
  set_is_disjoint (decorator_compute_labels exp h data) (forest_classify F p) = false.
Proof.
  intros Hscheme Hwf Hdata Hpn Hc Hdepth.
  assert (Hexp : exp_adequate F exp)
    by (intros Es; rewrite Hscheme in Es; discriminate Es).
  assert (Hsub : forall lbl, lbl ∈ forest_classify F p ->
            lbl ∈ decorator_compute_labels exp h data).
  { intros lbl. now apply (decorator_compute_labels_sound exp n F reference tier). }
  split; [now apply set_is_subset_true|].
  destruct Hwf as (_ & _ & HK & _).
  destruct (forest_classify_nonempty F p HK) as [lbl Hlbl].
  destruct (set_is_disjoint _ _) eqn:E; [|reflexivity]. exfalso.
  pose proof (proj1 (set_is_disjoint_true _ _) E) as Hd.
  apply (Hd lbl); [now apply Hsub|exact Hlbl].
Qed.

Lemma decorator_compute_labels_overapproximates_witness :
  set_is_subset (forest_classify forest_gap [1])
    (decorator_compute_labels constant_exp
       (mk_decorator symmetric_box None None []) forest_gap_data) = true.
Proof.
  apply (decorator_compute_labels_overapproximates constant_exp 1 forest_gap
           ["A"%string] (untiered 1) forest_gap_data [1]).
  - reflexivity.
  - exact forest_gap_wf.
  - exact forest_gap_data_for.
  - reflexivity.
  - exact symmetric_box_covers.
  - simpl. lia.
Defined.

(** ** The time limit of the forest verifier *)

(** X20.  When the time limit is already exceeded at the first test of
    the clock, the forest verifier returns at once and answers DONT_KNOW. *)
Theorem forest_hyperrectangle_is_stable_timeout (exp : Q -> Q) (time : nat -> Z)
    (fuel : nat) (status : StabilityStatus) (F : Forest) (x : Hyperrectangle) (t : Tier) :
  (time 1%nat - time 0%nat > timeout status)%Z -> (0 < fuel)%nat ->
  exists status',
    forest_hyperrectangle_is_stable exp time fuel status F x t = Some status' /\
    result status' = STABILITY_DONT_KNOW.
Proof.
  intros Hlate Hfuel. destruct fuel as [|fuel]; [lia|].
  unfold forest_hyperrectangle_is_stable, best_first_search.
  cbn [best_first_search_loop]. unfold priority_queue_push, priority_queue_is_empty,
    priority_queue_pop, binary_heap_is_empty, binary_heap_push, binary_heap_pop,
    priority_queue_create, binary_heap_create, sift_up, sift_down, write_node.
  cbn. unfold is_complete. cbn [a_internal_status a_clock a_start_time a_timeout tick].
  assert (Htmo : timeout (if has_sample status then status
                          else set_sample_a (hyperrectangle_midpoint x)
                                 (forest_classify F (hyperrectangle_midpoint x)) status)
                 = timeout status) by (destruct (has_sample status); reflexivity).
  rewrite Htmo. apply Z.gtb_gt in Hlate. rewrite Hlate.
  cbn [a_internal_status set_internal_status a_status].
  eexists. split; [reflexivity|]. destruct (has_sample status); reflexivity.
Qed.

Lemma forest_hyperrectangle_is_stable_timeout_witness :
  exists status',
    forest_hyperrectangle_is_stable constant_exp (fun k => Z.of_nat (5 * k)) 1
      initial_status forest_gap symmetric_box (untiered 1) = Some status' /\
    result status' = STABILITY_DONT_KNOW.
Proof.
  apply forest_hyperrectangle_is_stable_timeout; [reflexivity | lia].
Defined.

(** The fields of the analysis data that the test of the clock reads. *)
Definition clockwork (start tmo : Z) (data : analysis_data) : Prop :=
  a_start_time data = start /\ a_timeout data = tmo /\
  a_internal_status data <> ABORTED.

Lemma refine_loop_data exp fuel :
  forall Qx Qt refined x data r data',
  refine_loop exp fuel Qx Qt refined x data = Some (r, data') ->
  data' = data \/ exists sample, data' = found_unstable sample data.
Proof.
  induction fuel as [|fuel IH]; intros Qx Qt refined x data r data' H; [discriminate|].
  cbn [refine_loop] in H.
  destruct (priority_queue_is_empty Qx); [injection H as _ <-; now left|].
  destruct (priority_queue_pop Qx) as [[x' Qx']|]; [|discriminate].
  destruct (priority_queue_pop Qt) as [[N Qt']|]; [|discriminate].
  destruct (here N).
  3: { repeat match type of H with
              | (if ?c then _ else _) = _ => destruct c
              end; eapply IH; exact H. }
  all: destruct (set_is_disjoint _ _);
         [injection H as _ <-; right; eexists; reflexivity|];
       destruct (set_is_equal _ _); eapply IH; exact H.
Qed.

Lemma refine_clockwork exp fuel x data adj data' start tmo :
  refine exp fuel x data = Some (adj, data') ->
  clockwork start tmo data -> clockwork start tmo data'.
Proof.
  unfold refine. intros H Hc.
  assert (Hu : forall sample, clockwork start tmo (found_unstable sample data)).
  { intros sample. destruct Hc as (H1 & H2 & _). repeat split; try assumption.
    discriminate. }
  destruct (_ =? _)%nat.
  - destruct (negb _); injection H as _ <-; [apply Hu | exact Hc].
  - apply refine_loop_data in H as [->|[sample ->]]; [exact Hc | apply Hu].
Qed.

Lemma enqueue_adjacent_clockwork (adj : list HyperrectangleDecorator) Qu data Qu' data'
    start tmo :
  enqueue_adjacent compute_priority adj (Qu, data) = (Qu', data') ->
  clockwork start tmo data -> clockwork start tmo data'.
Proof.
  unfold enqueue_adjacent. generalize (rev adj). intros L. revert Qu data.
  induction L as [|h L IH]; intros Qu data H Hc; [injection H as _ <-; exact Hc|].
  cbn [fold_left] in H. destruct (compute_priority h data) as [pr data1] eqn:Hpr.
  unfold compute_priority in Hpr. injection Hpr as _ <-.
  eapply IH; [exact H|]. exact Hc.
Qed.

Lemma best_first_search_loop_clockwork exp (time : nat -> Z) fuel0 fuel (tmo : Z) :
  (forall k, (time k - time 0%nat <= tmo)%Z) ->
  forall Qu data goal data',
  best_first_search_loop (is_complete time) (refine exp fuel0) compute_priority
    fuel Qu data = Some (goal, data') ->
  clockwork (time 0%nat) tmo data -> clockwork (time 0%nat) tmo data'.
Proof.
  intros Htime. induction fuel as [|fuel IH]; intros Qu data goal data' H Hc;
    [discriminate|].
  cbn [best_first_search_loop] in H.
  destruct (priority_queue_is_empty Qu); [injection H as _ <-; exact Hc|].
  destruct (priority_queue_pop Qu) as [[x Q1]|]; [|discriminate].
  assert (Hcomp : exists stop : bool, is_complete time x data = (stop, if stop then data else tick data)).
  { unfold is_complete. destruct Hc as (Hs & Ht & Ha).
    destruct (a_internal_status data) eqn:E; [|now exists true|contradiction].
    cbn [tick a_start_time a_timeout]. rewrite Hs, Ht.
    assert ((time (a_clock data) - time 0%nat >? tmo)%Z = false) as ->.
    { rewrite Z.gtb_ltb. apply Z.ltb_ge, Htime. }
    now exists false. }
  destruct Hcomp as [stop Hcomp]. rewrite Hcomp in H. destruct stop.
  - injection H as _ <-. exact Hc.
  - destruct (refine exp fuel0 x (tick data)) as [[adj data1]|] eqn:Href; [|discriminate].
    destruct (enqueue_adjacent compute_priority adj (Q1, data1)) as [Q2 data2] eqn:Henq.
    eapply IH; [exact H|].
    eapply enqueue_adjacent_clockwork; [exact Henq|].
    eapply refine_clockwork; [exact Href|]. exact Hc.
Qed.

(** X21.  The forest verifier answers DONT_KNOW only when the clock passes
    the time limit: if no reading of the clock exceeds the start time by more
    than the limit, every answer it returns is STABLE or UNSTABLE. *)
Theorem forest_hyperrectangle_is_stable_decides (exp : Q -> Q) (time : nat -> Z)
    (fuel : nat) (status : StabilityStatus) (F : Forest) (x : Hyperrectangle) (t : Tier)
    (status' : StabilityStatus) :
  (forall k, (time k - time 0%nat <= timeout status)%Z) ->
  forest_hyperrectangle_is_stable exp time fuel status F x t = Some status' ->
  result status' = STABILITY_TRUE \/ result status' = STABILITY_FALSE.
Proof.
  intros Htime Hrun. unfold forest_hyperrectangle_is_stable, best_first_search in Hrun.
  destruct (best_first_search_loop _ _ _ _ _ _) as [[g data']|] eqn:Hbfs; [|discriminate].
  injection Hrun as <-.
  apply (best_first_search_loop_clockwork exp time fuel fuel (timeout status) Htime)
    in Hbfs.
  - destruct Hbfs as (_ & _ & Hna).
    destruct (a_internal_status data'); [left|right|contradiction];
      destruct (has_sample status); reflexivity.
  - split; [reflexivity|]. split; [|discriminate].
    cbn [a_timeout]. destruct (has_sample status); reflexivity.
Qed.

Lemma forest_hyperrectangle_is_stable_decides_witness :
  exists status',
    forest_hyperrectangle_is_stable constant_exp still_clock 20
      initial_status forest_gap symmetric_box (untiered 1) = Some status' /\
    (result status' = STABILITY_TRUE \/ result status' = STABILITY_FALSE).
Proof.
  eexists. split; [vm_compute; reflexivity|].
  eapply (forest_hyperrectangle_is_stable_decides constant_exp still_clock 20
            initial_status forest_gap symmetric_box (untiered 1)).
  - intros k. vm_compute. discriminate.
  - vm_compute. reflexivity.
Defined.

(** ** Soundness of the single-tree verifier *)

(** A search that finds no goal has met no goal among the leaves that the
    region can reach. *)
Lemma depth_first_search_no_goal fuel (is_goal : DecisionTreeNode -> bool) x :
  forall stack,
  depth_first_search fuel is_goal (compute_reachable_paths x) stack = Some None ->
  forall n, n ∈ stack -> forall z, z ∈ reach (here n) (up n) x -> is_goal z = false.
Proof.
  induction fuel as [|fuel IH]; intros stack H; [discriminate|].
  destruct stack as [|m stack]; [intros n Hn; now apply elem_of_nil in Hn|].
  cbn [depth_first_search] in H.
  destruct (is_goal m) eqn:Hm; [discriminate|].
  specialize (IH _ H). intros n Hn z Hz.
  apply elem_of_cons in Hn as [->|Hn].
  2: { apply (IH n); [apply elem_of_app; now right | exact Hz]. }
  destruct m as [N ctx]. cbn [here up] in Hz.
  destruct N as [sc ms ns|sc w|i k lc rc]; cbn [reach] in Hz.
  - apply list_elem_of_singleton in Hz. now subst z.
  - apply list_elem_of_singleton in Hz. now subst z.
  - unfold compute_reachable_paths in IH. cbn [here up] in IH.
    apply elem_of_app in Hz as [Hz|Hz].
    + destruct (Qgtb (u (x !!! i)) k); [|now apply elem_of_nil in Hz].
      apply (IH {| here := rc; up := mk_frame RightSide i k lc :: ctx |}); [|exact Hz].
      apply elem_of_app; left. apply elem_of_app; right. now left.
    + destruct (Qleb (l (x !!! i)) k); [|now apply elem_of_nil in Hz].
      apply (IH {| here := lc; up := mk_frame LeftSide i k rc :: ctx |}); [|exact Hz].
      apply elem_of_app; left. apply elem_of_app; left. now left.
Qed.

Lemma walk_has_samples N ctx (p : list Real) :
  leaves_have_samples N -> leaves_have_samples (here (decision_tree_walk N ctx p)).
Proof.
  revert ctx. induction N as [| |i k lc IHl rc IHr]; intros ctx H; simpl in *;
    try exact H.
  destruct H as [Hl Hr]. destruct (Qleb (p !!! i) k); [now apply IHl | now apply IHr].
Qed.

Lemma label_loop_ext (K : nat) (t1 t2 : nat -> bool) (labels_array : list string) :
  (forall i : nat, (i < K)%nat -> t1 i = t2 i) ->
  for_loop K (fun i S => if t1 i then set_add_element S (labels_array !!! i) else S) []
  = for_loop K (fun i S => if t2 i then set_add_element S (labels_array !!! i) else S) [].
Proof.
  induction K as [|K IH]; intros H; [reflexivity|].
  rewrite !for_loop_S, IH by (intros i Hi; apply H; lia).
  now rewrite (H K) by lia.
Qed.

Lemma Zmax_loop_spec (s : list Z) (K : nat) :
  let m := for_loop K (fun i m => if (s !!! i >? m)%Z then s !!! i else m)
             (s !!! 0%nat) in
  (forall i : nat, (i < K)%nat -> (s !!! i <= m)%Z) /\
  (m = s !!! 0%nat \/ exists i : nat, (i < K)%nat /\ m = s !!! i).
Proof.
  induction K as [|K IH]; cbv zeta.
  - split; [intros i Hi; lia | now left].
  - rewrite for_loop_S. cbv zeta in IH. destruct IH as [Hle Hat].
    set (m := for_loop K _ (s !!! 0%nat)) in *.
    destruct (Z.gtb_spec (s !!! K) m) as [Hgt|Hng].
    + split.
      * intros i Hi. destruct (decide (i = K)) as [->|Hne]; [lia|].
        specialize (Hle i ltac:(lia)). lia.
      * right. exists K. split; [lia | reflexivity].
    + split.
      * intros i Hi. destruct (decide (i = K)) as [->|Hne]; [lia|].
        apply Hle. lia.
      * destruct Hat as [->|(i & Hi & ->)]; [now left|].
        right. exists i. split; [lia | reflexivity].
Qed.

(** The labels that the verifier reads off a leaf are the labels that the
    tree gives to the samples that select the leaf. *)
Lemma classify_at_leaf (T : DecisionTree) (p : list Real) :
  leaves_have_samples (root T) ->
  decision_tree_classify T p
  = match here (decision_tree_walk (root T) [] p) with
    | Leaf scores _ _ => scores_to_labels scores T
    | LeafLog scores _ => log_scores_to_labels scores T
    | Split _ _ _ _ => []
    end.
Proof.
  intros Hs. apply (walk_has_samples _ [] p) in Hs.
  pose proof (walk_is_leaf (root T) [] p) as Hleaf.
  unfold decision_tree_node_is_leaf in Hleaf.
  unfold decision_tree_classify.
  set (K := n_labels T). set (ts := decision_tree_compute_decision_function T p).
  assert (Hts : forall j : nat, (j < K)%nat ->
            ts !!! j = leaf_decision_score (here (decision_tree_walk (root T) [] p)) j)
    by (intros j Hj; now apply tree_scores_lookup).
  destruct (here (decision_tree_walk (root T) [] p)) as [sc mx ns|sc w|] eqn:HN;
    [| |discriminate].
  - (* a counting leaf *)
    unfold scores_to_labels. fold K. unfold labels_at_max.
    destruct (Nat.eq_dec K 0%nat) as [HK0|HK0]; [now rewrite HK0|].
    assert (HK : (0 < K)%nat) by lia.
    apply label_loop_ext. intros i Hi.
    cbn [leaves_have_samples] in Hs. pose proof (Z2R_pos ns Hs) as Hpos.
    cbn [leaf_decision_score] in Hts.
    destruct (max_from_1_spec ts K HK) as [Hmt (it & Hit & Emt)].
    destruct (Zmax_loop_spec sc K) as [Hmz Haz]. cbv zeta in Hmz, Haz.
    set (mz := for_loop K _ (sc !!! 0%nat)) in *.
    assert (Haz' : exists i1 : nat, (i1 < K)%nat /\ mz = sc !!! i1).
    { destruct Haz as [E|H]; [exists 0%nat; split; [lia | exact E] | exact H]. }
    destruct Haz' as (i1 & Hi1 & Emz).
    destruct (Z.eqb_spec (sc !!! i) mz) as [Heq|Hne].
    + apply Qeqb_eq. apply Qle_antisym; [now apply Hmt|].
      rewrite Emt, !Hts by assumption.
      apply Qdiv_le_r; [exact Hpos|]. apply Z2R_le. rewrite Heq. now apply Hmz.
    + apply Qeqb_neq. intros E.
      assert (Hge : ts !!! i1 <= ts !!! i) by (rewrite E; now apply Hmt).
      rewrite !Hts in Hge by assumption.
      assert (Hlt : (sc !!! i < sc !!! i1)%Z).
      { specialize (Hmz i Hi). lia. }
      assert (Hlt' : Z2R (sc !!! i) < Z2R (sc !!! i1)).
      { unfold Z2R. now rewrite <- Zlt_Qlt. }
      assert (Hdiv : Z2R (sc !!! i) / Z2R ns < Z2R (sc !!! i1) / Z2R ns).
      { apply Qlt_shift_div_l; [exact Hpos|].
        unfold Qdiv. rewrite <- Qmult_assoc, (Qmult_comm (/ Z2R ns)), Qmult_inv_r by lra.
        lra. }
      lra.
  - (* a logarithmic leaf *)
    unfold log_scores_to_labels. fold K.
    destruct (Nat.eq_dec K 0%nat) as [HK0|HK0]; [now rewrite HK0|].
    assert (HK : (0 < K)%nat) by lia.
    cbn [leaf_decision_score] in Hts.
    apply labels_at_max_ext. intros i Hi.
    destruct (max_from_1_spec ts K HK) as [Hmt (it & Hit & Emt)].
    unfold max_from at 2. rewrite Nat.sub_0_r.
    destruct (max_from_loop_spec sc 0 K (sc !!! 0%nat)) as (H0 & Hle & Hat).
    cbv zeta in H0, Hle, Hat. set (ml := for_from 0 K _ (sc !!! 0%nat)) in *.
    assert (Hat' : exists i1 : nat, (i1 < K)%nat /\ ml = sc !!! i1).
    { destruct Hat as [E|(i1 & Hi1 & E)]; [exists 0%nat | exists i1];
        (split; [lia | exact E]). }
    destruct Hat' as (i1 & Hi1 & Eml).
    assert (Hm : max_from 1 K ts == ml).
    { apply Qle_antisym.
      - rewrite Emt, Hts by exact Hit. apply Hle. lia.
      - rewrite Eml, <- Hts by exact Hi1. now apply Hmt. }
    apply Qeqb_ext. rewrite Hm, Hts by exact Hi. reflexivity.
Qed.

(** A search that finds no counterexample leaf shows that the tree gives
    every point of the region exactly the given labels. *)
Lemma search_without_counterexample fuel (T : DecisionTree) (H : Hyperrectangle)
    (concrete_labels : LabelSet) (p : list Real) :
  node_wf (length H) (root T) -> leaves_have_samples (root T) ->
  depth_first_search fuel (is_counterexample_leaf T concrete_labels)
    (compute_reachable_paths H) [decision_tree_get_root T] = Some None ->
  in_hyperrectangle p H ->
  forall lbl, lbl ∈ decision_tree_classify T p <-> lbl ∈ concrete_labels.
Proof.
  intros Hwf Hs Hdfs Hin lbl.
  pose proof (depth_first_search_no_goal fuel _ H _ Hdfs (decision_tree_get_root T)
                ltac:(now left) (decision_tree_walk (root T) [] p)) as Hng.
  cbn [decision_tree_get_root here up] in Hng.
  specialize (Hng (walk_in_reach (length H) _ _ _ _ Hwf eq_refl Hin)).
  rewrite (classify_at_leaf T p Hs).
  pose proof (walk_is_leaf (root T) [] p) as Hleaf.
  unfold decision_tree_node_is_leaf in Hleaf.
  unfold is_counterexample_leaf in Hng.
  destruct (here (decision_tree_walk (root T) [] p)); [| |discriminate].
  all: apply negb_false_iff in Hng; symmetry; revert lbl; now apply set_is_equal_true.
Qed.

(** X22.  Soundness of the single-tree verifier: when it answers STABLE,
    the tree gives every point of the region exactly the reference labels. *)
Theorem decision_tree_hyperrectangle_is_stable_sound (fuel : nat)
    (status : StabilityStatus) (T : DecisionTree) (H : Hyperrectangle)
    (status' : StabilityStatus) :
  node_wf (length H) (root T) -> leaves_have_samples (root T) ->
  decision_tree_hyperrectangle_is_stable fuel status T H = Some status' ->
  result status' = STABILITY_TRUE ->
  forall p, in_hyperrectangle p H ->
    forall lbl, lbl ∈ decision_tree_classify T p <-> lbl ∈ labels_a status'.
Proof.
  intros Hwf Hs Hrun Hres p Hin.
  unfold decision_tree_hyperrectangle_is_stable, search_counterexample in Hrun.
  set (status0 := set_result STABILITY_DONT_KNOW _) in Hrun.
  destruct (depth_first_search fuel _ _ _) as [[leaf|]|] eqn:Hdfs; [| |discriminate].
  { (* a counterexample leaf was found: the answer is not STABLE *)
    injection Hrun as <-. destruct (has_sample status); discriminate Hres. }
  injection Hrun as <-.
  assert (Hlab : labels_a (if has_sample status
                           then set_result STABILITY_TRUE status0
                           else stability_status_unset_sample
                                  (set_result STABILITY_TRUE status0))
                 = labels_a status0) by (destruct (has_sample status); reflexivity).
  cbn [result status0 set_result] in *. rewrite Hlab.
  now apply (search_without_counterexample fuel T H).
Qed.

Lemma decision_tree_hyperrectangle_is_stable_sound_witness :
  let H := [ {| l := 0; u := 1 # 4 |} ] in
  exists status',
    decision_tree_hyperrectangle_is_stable 4 initial_status stump H = Some status' /\
    result status' = STABILITY_TRUE /\
    in_hyperrectangle [1 # 8] H /\
    forall lbl, lbl ∈ decision_tree_classify stump [1 # 8] <-> lbl ∈ labels_a status'.
Proof.
  intros H. eexists.
  assert (Hin : in_hyperrectangle [1 # 8] H).
  { split; [reflexivity|]. intros i Hi. simpl in Hi.
    assert (i = 0%nat) as -> by lia. split; vm_compute; discriminate. }
  split; [vm_compute; reflexivity|]. split; [reflexivity|]. split; [exact Hin|].
  apply (decision_tree_hyperrectangle_is_stable_sound 4 initial_status stump H).
  - simpl. repeat split; lia.
  - simpl. split; reflexivity.
  - vm_compute. reflexivity.
  - reflexivity.
  - exact Hin.
Defined.

(** ** From an adversarial region to a hyperrectangle *)

(** The constraint that a perturbation puts on one coordinate. *)
Definition within_perturbation (P : Perturbation) (s a : Real) : Prop :=
  match P with
  | PERTURBATION_L_INF magnitude => - magnitude <= a - s <= magnitude
  | PERTURBATION_L_INF_CLIP_ALL magnitude clip_min clip_max =>
      - magnitude <= a - s <= magnitude /\ clip_min <= a <= clip_max
  end.

Lemma adversarial_region_to_hyperrectangle_lookup (round : Q -> Q) (x : Hyperrectangle)
    (region : AdversarialRegion) :
  length x = region_space_size region ->
  length (adversarial_region_to_hyperrectangle round x region) = region_space_size region /\
  forall i : nat, (i < region_space_size region)%nat ->
    adversarial_region_to_hyperrectangle round x region !!! i
    = match perturbation region with
      | PERTURBATION_L_INF magnitude =>
          {| l := round (sample region !!! i - magnitude);
             u := round (sample region !!! i + magnitude) |}
      | PERTURBATION_L_INF_CLIP_ALL magnitude clip_min clip_max =>
          {| l := max (round (sample region !!! i - magnitude)) clip_min;
             u := min (round (sample region !!! i + magnitude)) clip_max |}
      end.
Proof.
  intros Hlen. unfold adversarial_region_to_hyperrectangle,
    region_to_hyperrectangle_l_inf, region_to_hyperrectangle_l_inf_clip_all.
  destruct (perturbation region) as [m|m cmin cmax].
  - destruct (for_loop_pointwise
                (fun i (x : Hyperrectangle) =>
                   <[i := {| l := round (sample region !!! i - m);
                             u := round (sample region !!! i + m) |}]> x)
                (fun i _ => {| l := round (sample region !!! i - m);
                               u := round (sample region !!! i + m) |})
                (region_space_size region) x) as [Hl Hget].
    { apply (pointwise_insert
               (fun i _ => {| l := round (sample region !!! i - m);
                              u := round (sample region !!! i + m) |})). }
    split; [congruence|]. intros i Hi. rewrite Hget by lia.
    destruct (decide (i < region_space_size region)%nat); [reflexivity|lia].
  - destruct (for_loop_pointwise
                (fun i (x : Hyperrectangle) =>
                   <[i := {| l := max (round (sample region !!! i - m)) cmin;
                             u := min (round (sample region !!! i + m)) cmax |}]> x)
                (fun i _ => {| l := max (round (sample region !!! i - m)) cmin;
                               u := min (round (sample region !!! i + m)) cmax |})
                (region_space_size region) x) as [Hl Hget].
    { apply (pointwise_insert
               (fun i _ => {| l := max (round (sample region !!! i - m)) cmin;
                              u := min (round (sample region !!! i + m)) cmax |})). }
    split; [congruence|]. intros i Hi. rewrite Hget by lia.
    destruct (decide (i < region_space_size region)%nat); [reflexivity|lia].
Qed.

(** X23.  Whatever way the bounds are rounded, as long as rounding is
    monotone, the hyperrectangle built from an adversarial region contains
    every point with coordinates that are doubles (rounding leaves them
    unchanged) and that lies within the perturbation: every coordinate
    within the magnitude of the coordinate of the sample and, for the
    clipped perturbation, within the clipping bounds. *)
Theorem adversarial_region_to_hyperrectangle_contains (round : Q -> Q)
    (x : Hyperrectangle) (region : AdversarialRegion) (p : list Real) :
  (forall a b, a <= b -> round a <= round b) ->
  length x = region_space_size region ->
  length p = region_space_size region ->
  (forall i : nat, (i < region_space_size region)%nat -> round (p !!! i) == p !!! i) ->
  (forall i : nat, (i < region_space_size region)%nat ->
     within_perturbation (perturbation region) (sample region !!! i) (p !!! i)) ->
  in_hyperrectangle p (adversarial_region_to_hyperrectangle round x region).
Proof.
  intros Hmono Hlen Hlp Hfix Hwithin.
  destruct (adversarial_region_to_hyperrectangle_lookup round x region Hlen) as [Hl Hget].
  split; [congruence|]. rewrite Hl. intros i Hi. rewrite Hget by exact Hi.
  specialize (Hfix i Hi). specialize (Hwithin i Hi).
  unfold within_perturbation, in_interval in *. revert Hwithin.
  destruct (perturbation region) as [m|m cmin cmax]; cbn [l u]; intros Hwithin.
  - assert (H1 : sample region !!! i - m <= p !!! i) by lra.
    assert (H2 : p !!! i <= sample region !!! i + m) by lra.
    apply Hmono in H1, H2. split; lra.
  - destruct Hwithin as [Hm Hclip].
    assert (H1 : sample region !!! i - m <= p !!! i) by lra.
    assert (H2 : p !!! i <= sample region !!! i + m) by lra.
    apply Hmono in H1, H2.
    split; [apply max_lub; lra | apply min_glb; lra].
Qed.

Lemma adversarial_region_to_hyperrectangle_contains_witness :
  let region := {| sample := [1 # 2]; region_space_size := 1;
                   perturbation := PERTURBATION_L_INF_CLIP_ALL (1 # 4) 0 (5 # 8) |} in
  in_hyperrectangle [5 # 8]
    (adversarial_region_to_hyperrectangle (fun q => q) unit_box region).
Proof.
  intros region.
  apply (adversarial_region_to_hyperrectangle_contains (fun q => q) unit_box region [5 # 8]).
  - intros a b Hab. exact Hab.
  - reflexivity.
  - reflexivity.
  - intros i Hi. reflexivity.
  - intros i Hi. simpl in Hi. assert (i = 0%nat) as -> by lia.
    vm_compute. repeat split; discriminate.
Defined.

(** ** Emptying a priority queue *)

(** What a client sees when it empties a queue with the loop
    [while (!priority_queue_is_empty(P)) priority_queue_pop(P)] (as [refine]
    does with its two queues): the element returned by every pop, together
    with the priority read by [priority_queue_get_max_priority] just before
    the pop. *)
Fixpoint priority_queue_drain {A : Type} (fuel : nat) (P : PriorityQueue A) :
    list (heap_node A) :=
  match fuel with
  | O => []
  | Datatypes.S fuel =>
      if priority_queue_is_empty P then []
      else
        let priority := priority_queue_get_max_priority P in
        match priority_queue_pop P with
        | Some (x, P) => mk_heap_node x priority :: priority_queue_drain fuel P
        | None => []
        end
  end.

Lemma stored_length {A : Type} (H : BinaryHeap A) :
  heap_inv H -> length (stored H) = size H.
Proof. intros (_ & Hsz & _). unfold stored. rewrite length_take. lia. Qed.

Lemma priority_queue_drain_spec {A : Type} (fuel : nat) :
  forall P : PriorityQueue A,
  heap_inv (heap P) -> (size (heap P) <= fuel)%nat ->
  priority_queue_drain fuel P ≡ₚ stored (heap P) /\
  StronglySorted (fun a b => key b <= key a) (priority_queue_drain fuel P).
Proof.
  induction fuel as [|fuel IH]; intros P Hinv Hfuel.
  - simpl. pose proof (stored_length _ Hinv) as Hl.
    destruct (stored (heap P)); [split; [reflexivity|constructor]|simpl in Hl; lia].
  - cbn [priority_queue_drain]. unfold priority_queue_is_empty, binary_heap_is_empty.
    destruct (Nat.eqb_spec (size (heap P)) 0%nat) as [Hz|Hnz].
    { pose proof (stored_length _ Hinv) as Hl. rewrite Hz in Hl.
      destruct (stored (heap P)); [split; [reflexivity|constructor]|discriminate]. }
    destruct (binary_heap_pop_spec (heap P) Hinv)
      as (first & H' & Hpop & Hfirst & Hmax & Hinv' & Hperm); [lia|].
    unfold priority_queue_pop. rewrite Hpop.
    assert (Hkey : priority_queue_get_max_priority P = key first).
    { unfold priority_queue_get_max_priority, binary_heap_get_next_key, key_at.
      now rewrite Hfirst. }
    rewrite Hkey.
    assert (Hnode : mk_heap_node (data first) (key first) = first) by now destruct first.
    rewrite Hnode.
    assert (Hsize : (size H' <= fuel)%nat).
    { pose proof (stored_length _ Hinv) as L1. pose proof (stored_length _ Hinv') as L2.
      apply Permutation_length in Hperm. simpl in Hperm. lia. }
    destruct (IH {| heap := H' |} Hinv' Hsize) as [IHp IHs]. cbn [heap] in IHp.
    split.
    + rewrite Hperm. now constructor.
    + constructor; [exact IHs|]. apply Forall_forall. intros n Hn.
      apply Hmax. rewrite Hperm. right. now rewrite <- IHp.
Qed.

(** X25.  Emptying a queue that was built by pushes and pops, with
    priorities that are numbers (the keys of the embedding; a NaN priority
    is left out), returns each of its elements once, in the order of
    decreasing priority. *)
Theorem priority_queue_drain_sorted {A : Type} (P : PriorityQueue A) :
  pq_reachable P ->
  priority_queue_drain (priority_queue_get_size P) P ≡ₚ stored (heap P) /\
  StronglySorted (fun a b => key b <= key a)
    (priority_queue_drain (priority_queue_get_size P) P).
Proof.
  intros HP. apply priority_queue_drain_spec; [now apply pq_reachable_heap_inv|].
  unfold priority_queue_get_size, binary_heap_get_size. lia.
Qed.

Lemma priority_queue_drain_sorted_witness :
  let P := priority_queue_push
             (priority_queue_push (priority_queue_push priority_queue_create
                "a"%string 1) "b"%string 3) "c"%string 2 in
  pq_reachable P /\
  priority_queue_drain (priority_queue_get_size P) P
  = [mk_heap_node "b"%string 3; mk_heap_node "c"%string 2; mk_heap_node "a"%string 1] /\
  StronglySorted (fun a b => key b <= key a)
    (priority_queue_drain (priority_queue_get_size P) P).
Proof.
  intros P.
  assert (HP : pq_reachable P) by (repeat constructor).
  split; [exact HP|]. split; [vm_compute; reflexivity|].
  exact (proj2 (priority_queue_drain_sorted P HP)).
Defined.

(** ** Leaves built by [decision_tree_leaf_create] *)

Definition Zsum (L : list Z) : Z := foldr Z.add 0%Z L.

Lemma Zsum_take_S (L : list Z) (n : nat) :
  (n < length L)%nat -> Zsum (take (Datatypes.S n) L) = (Zsum (take n L) + L !!! n)%Z.
Proof.
  revert n. induction L as [|a L IH]; intros n Hn; [simpl in Hn; lia|].
  destruct n as [|n].
  - simpl. try rewrite take_0. simpl. lia.
  - change (take (Datatypes.S (Datatypes.S n)) (a :: L)) with (a :: take (Datatypes.S n) L).
    change (take (Datatypes.S n) (a :: L)) with (a :: take n L).
    change ((a :: L) !!! Datatypes.S n) with (L !!! n).
    simpl. simpl in Hn. rewrite IH by lia. unfold Zsum. lia.
Qed.

Lemma Zsum_take_le (L : list Z) (n : nat) :
  (forall s, s ∈ L -> (0 <= s)%Z) -> (0 <= Zsum (take n L) <= Zsum L)%Z.
Proof.
  revert n. induction L as [|a L IH]; intros n Hpos.
  - rewrite take_nil. simpl. lia.
  - assert (0 <= a)%Z by (apply Hpos; left).
    assert (HL : forall s, s ∈ L -> (0 <= s)%Z) by (intros s Hs; apply Hpos; now right).
    destruct n as [|n]; simpl.
    + pose proof (IH 0%nat HL) as IH0. try rewrite take_0 in IH0. simpl in IH0. lia.
    + pose proof (IH n HL). unfold Zsum in *. lia.
Qed.

Lemma leaf_create_loop (scores : list Z) (n : nat) :
  (0 < length scores)%nat ->
  (forall s, s ∈ scores -> (0 <= s)%Z) ->
  (Zsum scores < UINT_RANGE)%Z ->
  (Datatypes.S n <= length scores)%nat ->
  let r := for_from 1 n (fun i '(n_samples, max_score) =>
      (((n_samples + scores !!! i) mod UINT_RANGE)%Z,
       if (scores !!! i >? max_score)%Z then scores !!! i else max_score))
      (scores !!! 0%nat, scores !!! 0%nat) in
  fst r = Zsum (take (Datatypes.S n) scores) /\
  (forall i : nat, (i <= n)%nat -> (scores !!! i <= snd r)%Z) /\
  (exists i : nat, (i <= n)%nat /\ scores !!! i = snd r).
Proof.
  intros Hlen Hpos Hsum. induction n as [|n IH]; intros Hn r.
  - subst r. simpl. split; [|split].
    + destruct scores as [|a L]; [simpl in Hlen; lia|]. simpl. try rewrite take_0. simpl. lia.
    + intros i Hi. replace i with 0%nat by lia. lia.
    + exists 0%nat. split; [lia|reflexivity].
  - subst r. rewrite for_from_S.
    destruct (IH ltac:(lia)) as (Hs & Hmax & i0 & Hi0 & Hi0m). clear IH.
    set (r := for_from 1 n _ _) in *. destruct r as [ns ms]. cbn [fst snd] in *.
    replace (1 + n)%nat with (Datatypes.S n) by lia.
    split; [|split].
    + rewrite (Zsum_take_S scores (Datatypes.S n)) by lia. rewrite <- Hs.
      apply Z.mod_small.
      pose proof (Zsum_take_le scores (Datatypes.S (Datatypes.S n)) Hpos) as Hb.
      rewrite (Zsum_take_S scores (Datatypes.S n)) in Hb by lia. rewrite <- Hs in Hb.
      pose proof (Zsum_take_le scores (Datatypes.S n) Hpos) as Hb'. rewrite <- Hs in Hb'.
      assert (0 <= scores !!! Datatypes.S n)%Z.
      { apply Hpos. apply list_elem_of_lookup_total_2. lia. }
      lia.
    + intros i Hi. destruct (Z.gtb_spec (scores !!! Datatypes.S n) ms) as [Hgt|Hle].
      * destruct (Nat.eq_dec i (Datatypes.S n)) as [->|Hne]; [lia|].
        specialize (Hmax i ltac:(lia)). lia.
      * destruct (Nat.eq_dec i (Datatypes.S n)) as [->|Hne]; [lia|].
        apply Hmax. lia.
    + destruct (Z.gtb_spec (scores !!! Datatypes.S n) ms) as [Hgt|Hle].
      * exists (Datatypes.S n). split; [lia|reflexivity].
      * exists i0. split; [lia|exact Hi0m].
Qed.

(** X26.  For counts that are not negative, not all zero and whose sum
    fits an [unsigned int], [decision_tree_leaf_create] caches the number
    of samples (the sum of the counts) and the largest count, and the leaf
    is one the voting schemes MAX and AVERAGE can read. *)
Theorem decision_tree_leaf_create_caches (scores : list Z) :
  (forall s, s ∈ scores -> (0 <= s)%Z) ->
  (0 < Zsum scores < UINT_RANGE)%Z ->
  exists max_score : Z,
    decision_tree_leaf_create scores = Leaf scores max_score (Zsum scores) /\
    (forall s, s ∈ scores -> (s <= max_score)%Z) /\
    max_score ∈ scores /\
    leaf_ok FOREST_VOTING_MAX (length scores) (decision_tree_leaf_create scores) /\
    leaf_ok FOREST_VOTING_AVERAGE (length scores) (decision_tree_leaf_create scores).
Proof.
  intros Hpos [Hsum0 Hsum].
  assert (Hlen : (0 < length scores)%nat).
  { destruct scores; [simpl in Hsum0; lia|simpl; lia]. }
  destruct (leaf_create_loop scores (length scores - 1) Hlen Hpos Hsum ltac:(lia))
    as (Hs & Hmax & i0 & Hi0 & Hi0m).
  unfold decision_tree_leaf_create.
  set (r := for_from 1 (length scores - 1) _ _) in *. destruct r as [ns ms].
  cbn [fst snd] in *.
  replace (Datatypes.S (length scores - 1)) with (length scores) in Hs by lia.
  rewrite firstn_all in Hs. subst ns.
  exists ms. split; [reflexivity|].
  assert (Hall : forall i : nat, (i < length scores)%nat -> (scores !!! i <= ms)%Z)
    by (intros i Hi; apply Hmax; lia).
  assert (Hex : exists i : nat, (i < length scores)%nat /\ scores !!! i = ms)
    by (exists i0; split; [lia|exact Hi0m]).
  split; [|split; [|split]].
  - intros s Hs. apply list_elem_of_lookup_total_1 in Hs as (i & Hi & <-). now apply Hall.
  - rewrite <- Hi0m. apply list_elem_of_lookup_total_2. lia.
  - simpl. split; [exact Hsum0|]. split; [exact Hall|exact Hex].
  - simpl. split; [exact Hsum0|]. split; [exact Hall|exact Hex].
Qed.

Lemma decision_tree_leaf_create_caches_witness :
  exists max_score : Z,
    decision_tree_leaf_create [3; 7; 2]%Z = Leaf [3; 7; 2]%Z max_score (Zsum [3; 7; 2]%Z) /\
    (forall s, s ∈ [3; 7; 2]%Z -> (s <= max_score)%Z) /\
    max_score ∈ [3; 7; 2]%Z /\
    leaf_ok FOREST_VOTING_MAX (length [3; 7; 2]%Z) (decision_tree_leaf_create [3; 7; 2]%Z) /\
    leaf_ok FOREST_VOTING_AVERAGE (length [3; 7; 2]%Z)
      (decision_tree_leaf_create [3; 7; 2]%Z).
Proof.
  apply (decision_tree_leaf_create_caches [3; 7; 2]%Z).
  - intros s Hs. repeat (apply elem_of_cons in Hs as [->|Hs]; [lia|]).
    now apply elem_of_nil in Hs.
  - vm_compute. split; reflexivity.
Defined.

(** ** Depth-first visits of a binary tree *)

Fixpoint binary_tree_size {A : Type} (T : BinaryTree A) : nat :=
  match T with
  | BT_NULL => 0
  | BT_node _ l r => Datatypes.S (binary_tree_size l + binary_tree_size r)
  end.

Fixpoint pre_order {A : Type} (T : BinaryTree A) : list (BinaryTree A) :=
  match T with
  | BT_NULL => []
  | BT_node _ l r => T :: pre_order l ++ pre_order r
  end.

Fixpoint in_order {A : Type} (T : BinaryTree A) : list (BinaryTree A) :=
  match T with
  | BT_NULL => []
  | BT_node _ l r => in_order l ++ T :: in_order r
  end.

Fixpoint post_order {A : Type} (T : BinaryTree A) : list (BinaryTree A) :=
  match T with
  | BT_NULL => []
  | BT_node _ l r => post_order l ++ post_order r ++ [T]
  end.

(** The state after the visitor has been called on the nodes of [L], in
    their order. *)
Definition visit_all {A St : Type} (V : BinaryTree A -> St -> St)
    (L : list (BinaryTree A)) (data : St) : St :=
  fold_left (fun data N => V N data) L data.

Lemma visit_all_app {A St : Type} (V : BinaryTree A -> St -> St) L1 L2 data :
  visit_all V (L1 ++ L2) data = visit_all V L2 (visit_all V L1 data).
Proof. unfold visit_all. apply fold_left_app. Qed.

Lemma pre_visit_loop_subtree {A St : Type} (V : BinaryTree A -> St -> St)
    (T : BinaryTree A) :
  forall (stack : list (BinaryTree A)) (data : St) (fuel : nat),
  binary_tree_depth_first_pre_visit_loop V (binary_tree_size T + fuel)
    (stack_push_child stack T) data
  = binary_tree_depth_first_pre_visit_loop V fuel stack (visit_all V (pre_order T) data).
Proof.
  induction T as [|d l IHl r IHr]; intros stack data fuel; [reflexivity|].
  cbn [binary_tree_size stack_push_child pre_order Nat.add
       binary_tree_depth_first_pre_visit_loop]. cbv zeta.
  rewrite <- Nat.add_assoc, IHl, IHr.
  change (visit_all V (BT_node d l r :: pre_order l ++ pre_order r) data)
    with (visit_all V (pre_order l ++ pre_order r) (V (BT_node d l r) data)).
  now rewrite visit_all_app.
Qed.

Lemma in_visit_loop_subtree {A St : Type} (V : BinaryTree A -> St -> St)
    (current : BinaryTree A) :
  forall (stack : list (BinaryTree A)) (data : St) (fuel : nat),
  binary_tree_depth_first_in_visit_loop V (2 * binary_tree_size current + fuel)
    stack current data
  = binary_tree_depth_first_in_visit_loop V fuel stack BT_NULL
      (visit_all V (in_order current) data).
Proof.
  induction current as [|d l IHl r IHr]; intros stack data fuel; [reflexivity|].
  cbn [binary_tree_size in_order].
  replace (2 * Datatypes.S (binary_tree_size l + binary_tree_size r) + fuel)%nat
    with (Datatypes.S (2 * binary_tree_size l
            + Datatypes.S (2 * binary_tree_size r + fuel)))%nat by lia.
  cbn [binary_tree_depth_first_in_visit_loop]. rewrite IHl.
  cbn [binary_tree_depth_first_in_visit_loop]. rewrite IHr.
  rewrite visit_all_app. reflexivity.
Qed.

Lemma post_visit_loop_subtree {A : Type} (T : BinaryTree A) :
  forall (stack stack_prime : list (BinaryTree A)) (fuel : nat),
  binary_tree_depth_first_post_visit_loop (binary_tree_size T + fuel)
    (stack_push_child stack T) stack_prime
  = binary_tree_depth_first_post_visit_loop fuel stack (post_order T ++ stack_prime).
Proof.
  induction T as [|d l IHl r IHr]; intros stack stack_prime fuel; [reflexivity|].
  cbn [binary_tree_size stack_push_child post_order Nat.add
       binary_tree_depth_first_post_visit_loop]. cbv zeta.
  rewrite (Nat.add_comm (binary_tree_size l)), <- Nat.add_assoc, IHr, IHl.
  now rewrite <- !app_assoc.
Qed.

(** X27.  On a tree that is not NULL the three depth-first visits call the
    visitor once on every node: in pre-order, in in-order and in
    post-order. *)
Theorem binary_tree_depth_first_visits_order {A St : Type}
    (V : BinaryTree A -> St -> St) (T : BinaryTree A) (data : St) (fuel : nat) :
  T <> BT_NULL -> (2 * binary_tree_size T < fuel)%nat ->
  binary_tree_depth_first_pre_visit V fuel T data
  = Some (visit_all V (pre_order T) data) /\
  binary_tree_depth_first_in_visit V fuel T data
  = Some (visit_all V (in_order T) data) /\
  binary_tree_depth_first_post_visit V fuel T data
  = Some (visit_all V (post_order T) data).
Proof.
  intros HT Hfuel. destruct T as [|d l r]; [contradiction|].
  set (T := BT_node d l r) in *.
  assert (Hpost : binary_tree_depth_first_post_visit_loop fuel [T] [] = Some (post_order T)).
  { replace fuel with (binary_tree_size T + (fuel - binary_tree_size T))%nat by lia.
    change [T] with (stack_push_child [] T).
    rewrite post_visit_loop_subtree, app_nil_r.
    destruct (fuel - binary_tree_size T)%nat as [|k] eqn:E; [lia|reflexivity]. }
  split; [|split].
  - unfold binary_tree_depth_first_pre_visit. subst T. cbv iota.
    set (T := BT_node d l r) in *.
    replace fuel with (binary_tree_size T + (fuel - binary_tree_size T))%nat by lia.
    change [T] with (stack_push_child [] T).
    rewrite pre_visit_loop_subtree.
    destruct (fuel - binary_tree_size T)%nat as [|k] eqn:E; [lia|reflexivity].
  - unfold binary_tree_depth_first_in_visit. subst T. cbv iota.
    cbn [binary_tree_size] in Hfuel.
    replace fuel with (2 * binary_tree_size l
                       + Datatypes.S (2 * binary_tree_size r
                                      + (fuel - 2 * binary_tree_size l
                                              - 2 * binary_tree_size r - 1)))%nat
      at 1 by lia.
    rewrite in_visit_loop_subtree.
    cbn [binary_tree_depth_first_in_visit_loop]. rewrite in_visit_loop_subtree.
    destruct (fuel - 2 * binary_tree_size l - 2 * binary_tree_size r - 1)%nat
      as [|k] eqn:E; [lia|].
    cbn [binary_tree_depth_first_in_visit_loop in_order]. now rewrite visit_all_app.
  - unfold binary_tree_depth_first_post_visit. subst T. cbv iota.
    now rewrite Hpost.
Qed.

Lemma binary_tree_depth_first_visits_order_witness :
  let leaf (n : nat) := BT_node n BT_NULL BT_NULL in
  let T := BT_node 1%nat (BT_node 2%nat (leaf 3%nat) BT_NULL) (leaf 4%nat) in
  let V (N : BinaryTree nat) (seen : list nat) :=
    match N with BT_NULL => seen | BT_node n _ _ => seen ++ [n] end in
  binary_tree_depth_first_pre_visit V 9 T [] = Some [1; 2; 3; 4]%nat /\
  binary_tree_depth_first_in_visit V 9 T [] = Some [3; 2; 1; 4]%nat /\
  binary_tree_depth_first_post_visit V 9 T [] = Some [3; 2; 4; 1]%nat.
Proof.
  intros leaf T V.
  destruct (binary_tree_depth_first_visits_order V T [] 9%nat)
    as (Hpre & Hin & Hpost); [discriminate|vm_compute; lia|].
  rewrite Hpre, Hin, Hpost. repeat split.
Defined.

(** ** Array lists *)

(** The sequence a list stands for. *)
Definition list_contents {A : Type} (L : List A) : list A :=
  take (uint_sub (list_to L) (list_from L)) (drop (list_from L) (list_elements L)).

(** A list whose first element is in the first cell of its array, as after
    [list_create] and any number of [list_append], [list_prepend] and
    [list_pop]. *)
Definition list_unshifted {A : Type} (L : List A) : Prop :=
  list_from L = 0%nat /\ (list_to L <= list_capacity L)%nat /\
  length (list_elements L) = list_capacity L /\ (0 < list_capacity L)%nat /\
  (Z.of_nat (list_capacity L) < UINT_RANGE)%Z.

Lemma uint_of_Z_small (n : nat) :
  (Z.of_nat n < UINT_RANGE)%Z -> uint_of_Z (Z.of_nat n) = n.
Proof.
  intros Hn. unfold uint_of_Z. rewrite Z.mod_small by lia. apply Nat2Z.id.
Qed.

Lemma uint_sub_small (a b : nat) :
  (b <= a)%nat -> (Z.of_nat a < UINT_RANGE)%Z -> uint_sub a b = (a - b)%nat.
Proof.
  intros Hb Ha. unfold uint_sub. rewrite <- Nat2Z.inj_sub by exact Hb.
  apply uint_of_Z_small. lia.
Qed.

Lemma uint_add_small (a b : nat) :
  (Z.of_nat (a + b) < UINT_RANGE)%Z -> uint_add a b = (a + b)%nat.
Proof.
  intros Ha. unfold uint_add. rewrite <- Nat2Z.inj_add. now apply uint_of_Z_small.
Qed.

Lemma uint_mul_small (a b : nat) :
  (Z.of_nat (a * b) < UINT_RANGE)%Z -> uint_mul a b = (a * b)%nat.
Proof.
  intros Ha. unfold uint_mul. rewrite <- Nat2Z.inj_mul. now apply uint_of_Z_small.
Qed.

Lemma list_contents_unshifted {A : Type} (L : List A) :
  list_unshifted L -> list_contents L = take (list_to L) (list_elements L).
Proof.
  intros (Hf & Ht & Hl & Hc & Hr). unfold list_contents.
  rewrite Hf, uint_sub_small by lia. now rewrite Nat.sub_0_r, drop_0.
Qed.

(** Room for one more element: the list itself, or its array doubled. *)
Lemma list_resize_double {A : Type} `{Inhabited A} (L : List A) :
  list_unshifted L -> (2 * Z.of_nat (list_capacity L) < UINT_RANGE)%Z ->
  exists L1 : List A,
    (if (list_to L =? list_capacity L)%nat
     then list_resize L (uint_mul 2 (list_capacity L)) else Some L) = Some L1 /\
    list_unshifted L1 /\ list_to L1 = list_to L /\
    (list_to L1 < list_capacity L1)%nat /\
    take (list_to L) (list_elements L1) = take (list_to L) (list_elements L).
Proof.
  intros (Hf & Ht & Hl & Hc & Hr) Hdouble.
  destruct (Nat.eqb_spec (list_to L) (list_capacity L)) as [Hfull|Hroom].
  - rewrite uint_mul_small by lia. unfold list_resize. rewrite Hf. cbn [Nat.eqb negb].
    destruct (Nat.eqb_spec (2 * list_capacity L) (list_capacity L)) as [E|_]; [lia|].
    cbn [negb]. eexists. split; [reflexivity|].
    destruct (Nat.ltb_spec (2 * list_capacity L) (list_to L)) as [E|_]; [lia|].
    cbn [list_from list_to list_capacity list_elements].
    split; [|split; [reflexivity|split; [lia|]]].
    + unfold list_unshifted. cbn [list_from list_to list_capacity list_elements].
      split; [exact Hf|]. split; [lia|]. split; [|lia].
      rewrite length_app, length_take, length_replicate. lia.
    + rewrite (take_ge (list_elements L)) by lia. rewrite take_app_le by lia. reflexivity.
  - exists L. split; [reflexivity|]. split; [repeat split; assumption|].
    split; [reflexivity|]. split; [lia|reflexivity].
Qed.

(** X28.  On a list that was never shifted, [list_append] and
    [list_prepend] stay inside the array (which is doubled when full) and
    add the element at the end and at the front of the sequence;
    [list_pop] removes and returns the last element, and aborts on the
    empty list; [list_get_at] reads the elements of the sequence and aborts
    beyond its length; [list_get_size] is the length of the sequence. *)
Theorem list_unshifted_is_sequence {A : Type} `{Inhabited A} (L : List A) (x : A) :
  list_unshifted L -> (2 * Z.of_nat (list_capacity L) < UINT_RANGE)%Z ->
  (exists L' : List A,
     list_append L x = Some L' /\ list_unshifted L' /\
     list_contents L' = list_contents L ++ [x]) /\
  (exists L' : List A,
     list_prepend L x = Some L' /\ list_unshifted L' /\
     list_contents L' = x :: list_contents L) /\
  (forall (l : list A) (y : A), list_contents L = l ++ [y] ->
     exists L' : List A,
       list_pop L = Some (y, L') /\ list_unshifted L' /\ list_contents L' = l) /\
  (list_contents L = [] -> list_pop L = None /\ list_is_empty L = true) /\
  (forall i : nat,
     ((i < length (list_contents L))%nat -> list_get_at L i = list_contents L !! i) /\
     ((length (list_contents L) < i)%nat -> list_get_at L i = None)) /\
  list_get_size L = length (list_contents L).
Proof.
  intros HL Hdouble. pose proof HL as (Hf & Ht & Hl & Hc & Hr).
  pose proof (list_contents_unshifted L HL) as Hcont.
  assert (Hsize : length (list_contents L) = list_to L)
    by (rewrite Hcont, length_take; lia).
  split; [|split; [|split; [|split; [|split]]]].
  - destruct (list_resize_double L HL Hdouble) as (L1 & E1 & HL1 & Hto & Hroom & Htake).
    unfold list_append. rewrite Hf, uint_sub_small, Nat.sub_0_r by lia. rewrite E1.
    pose proof HL1 as (Hf1 & Ht1 & Hl1 & Hc1 & Hr1).
    destruct (Nat.ltb_spec (list_to L1) (length (list_elements L1))) as [_|E]; [|lia].
    eexists. split; [reflexivity|].
    assert (HL' : list_unshifted
                    {| list_elements := <[list_to L1 := x]> (list_elements L1);
                       list_from := list_from L1;
                       list_to := uint_add (list_to L1) 1;
                       list_capacity := list_capacity L1 |}).
    { unfold list_unshifted. cbn [list_from list_to list_capacity list_elements].
      rewrite uint_add_small, length_insert by lia. repeat split; try assumption; lia. }
    split; [exact HL'|].
    rewrite (list_contents_unshifted _ HL'), Hcont.
    cbn [list_from list_to list_capacity list_elements].
    rewrite uint_add_small by lia. rewrite Hto, <- Htake.
    replace (list_to L + 1)%nat with (Datatypes.S (list_to L)) by lia.
    assert (Hx : <[list_to L := x]> (list_elements L1) !! list_to L = Some x)
      by (apply list_lookup_insert_eq; lia).
    rewrite (take_S_r _ _ x Hx). f_equal. apply take_insert_ge. lia.
  - destruct (list_resize_double L HL Hdouble) as (L1 & E1 & HL1 & Hto & Hroom & Htake).
    unfold list_prepend. rewrite Hf. cbn [Nat.eqb]. rewrite E1.
    pose proof HL1 as (Hf1 & Ht1 & Hl1 & Hc1 & Hr1).
    unfold list_memmove. rewrite Hf1, uint_sub_small, Nat.sub_0_r by lia.
    cbn [Nat.add].
    destruct (Nat.leb_spec (list_to L1) (length (list_elements L1))) as [_|E]; [|lia].
    destruct (Nat.leb_spec (Datatypes.S (list_to L1)) (length (list_elements L1)))
      as [_|E]; [|lia].
    cbn [andb list_from list_to list_capacity list_elements].
    set (moved := take 1 (list_elements L1)
                  ++ take (list_to L1) (drop 0 (list_elements L1))
                  ++ drop (Datatypes.S (list_to L1)) (list_elements L1)).
    assert (Hmoved : length moved = list_capacity L1).
    { subst moved. rewrite !length_app, !length_take, !length_drop. lia. }
    destruct (Nat.ltb_spec 0 (length moved)) as [_|E]; [|lia].
    eexists. split; [reflexivity|].
    assert (HL' : list_unshifted
                    {| list_elements := <[0%nat := x]> moved;
                       list_from := 0;
                       list_to := uint_add (list_to L1) 1;
                       list_capacity := list_capacity L1 |}).
    { unfold list_unshifted. cbn [list_from list_to list_capacity list_elements].
      rewrite uint_add_small, length_insert by lia. repeat split; try assumption; lia. }
    split; [exact HL'|].
    rewrite (list_contents_unshifted _ HL'), Hcont.
    cbn [list_from list_to list_capacity list_elements].
    rewrite uint_add_small by lia. rewrite Hto, <- Htake.
    subst moved. rewrite drop_0.
    destruct (list_elements L1) as [|e els] eqn:Eels; [simpl in Hl1; lia|].
    change (take 1 (e :: els)) with [e]. cbn [app]. cbn [list_insert insert].
    replace (list_to L + 1)%nat with (Datatypes.S (list_to L)) by lia.
    change (<[0%nat:=x]> (e :: take (list_to L1) (e :: els)
                            ++ drop (Datatypes.S (list_to L1)) (e :: els)))
      with (x :: take (list_to L1) (e :: els) ++ drop (Datatypes.S (list_to L1)) (e :: els)).
    rewrite firstn_cons. f_equal. rewrite Hto.
    rewrite take_app_le by (rewrite length_take; simpl in Hl1; simpl; lia).
    rewrite take_take. f_equal. lia.
  - intros l y Hly. rewrite Hcont in Hly.
    assert (Hlen : list_to L = Datatypes.S (length l)).
    { apply (f_equal length) in Hly. rewrite length_take, length_app in Hly.
      simpl in Hly. lia. }
    unfold list_pop. rewrite Hf.
    destruct (Nat.eqb_spec (list_to L) 0) as [E|_]; [lia|].
    cbn [list_from list_to list_capacity list_elements].
    rewrite uint_sub_small by lia.
    assert (Hy : list_elements L !! (list_to L - 1)%nat = Some y).
    { rewrite <- (lookup_take_lt _ (list_to L)) by lia. rewrite Hly.
      replace (list_to L - 1)%nat with (length l) by lia.
      rewrite lookup_app_r by lia. now rewrite Nat.sub_diag. }
    rewrite Hy. eexists. split; [reflexivity|].
    assert (HL' : list_unshifted
                    {| list_elements := list_elements L; list_from := 0;
                       list_to := (list_to L - 1)%nat;
                       list_capacity := list_capacity L |}).
    { unfold list_unshifted. cbn [list_from list_to list_capacity list_elements].
      repeat split; try assumption; lia. }
    split; [exact HL'|].
    rewrite (list_contents_unshifted _ HL').
    cbn [list_from list_to list_capacity list_elements].
    replace (list_to L - 1)%nat with (length l) by lia.
    apply (f_equal (take (length l))) in Hly.
    rewrite take_take, take_app_length in Hly.
    replace (length l `min` list_to L)%nat with (length l) in Hly by lia. exact Hly.
  - intros Hnil. rewrite Hcont in Hnil.
    assert (Hz : list_to L = 0%nat).
    { apply (f_equal length) in Hnil. rewrite length_take in Hnil. simpl in Hnil. lia. }
    unfold list_pop, list_is_empty. rewrite Hf, Hz. split; reflexivity.
  - intros i. rewrite Hsize. unfold list_get_at.
    rewrite Hf, uint_sub_small, Nat.sub_0_r by lia. split; intros Hi.
    + destruct (Nat.ltb_spec (list_to L) i) as [E|_]; [lia|].
      rewrite uint_add_small by lia. rewrite Hcont. cbn [Nat.add].
      symmetry. apply lookup_take_lt. exact Hi.
    + destruct (Nat.ltb_spec (list_to L) i) as [_|E]; [reflexivity|lia].
  - unfold list_get_size. rewrite Hcont, length_take, Hf, uint_sub_small by lia. lia.
Qed.

Lemma list_unshifted_is_sequence_witness :
  exists L : List nat,
    list_append list_create 7%nat = Some L /\ list_contents L = [7%nat] /\
    exists L' : List nat,
      list_prepend L 5%nat = Some L' /\ list_contents L' = [5; 7]%nat /\
      exists L'' : List nat, list_pop L' = Some (7%nat, L'') /\ list_contents L'' = [5%nat].
Proof.
  assert (H0 : list_unshifted (list_create (A := nat))).
  { unfold list_unshifted. vm_compute. repeat split; try lia; reflexivity. }
  destruct (list_unshifted_is_sequence list_create 7%nat H0 ltac:(vm_compute; reflexivity))
    as ((L & EL & HL & CL) & _).
  exists L. split; [exact EL|]. split; [exact CL|].
  assert (Hcap : (2 * Z.of_nat (list_capacity L) < UINT_RANGE)%Z).
  { vm_compute in EL. injection EL as <-. vm_compute. reflexivity. }
  destruct (list_unshifted_is_sequence L 5%nat HL Hcap) as (_ & (L' & EL' & HL' & CL') & _).
  exists L'. split; [exact EL'|]. rewrite CL in CL'. split; [exact CL'|].
  assert (Hcap' : (2 * Z.of_nat (list_capacity L') < UINT_RANGE)%Z).
  { vm_compute in EL. injection EL as <-. vm_compute in EL'. injection EL' as <-.
    vm_compute. reflexivity. }
  destruct (list_unshifted_is_sequence L' 5%nat HL' Hcap') as (_ & _ & Hpop & _).
  destruct (Hpop [5%nat] 7%nat CL') as (L'' & EL'' & _ & CL'').
  exists L''. split; [exact EL''|exact CL''].
Defined.
